(** * Octree over a point cloud: a model of octree.h / octree.cpp

    The nodes of the tree live in a store indexed by addresses; a node holds
    the addresses of its children and of its parent, as the C++ objects hold
    pointers.  Member functions that mutate the tree take the tree and give
    back an [outcome] carrying the new tree; [const] member functions give
    back an [outcome] without a tree.

    Coordinates ([float] in [Point3f], [double] for sizes) are modelled as
    exact rationals.  Every concrete input below uses small dyadic rationals on
    which the floating-point operations of the source (sums, halving,
    comparisons) are exact.  The general results on insertion, lookup,
    deletion and traversal use no law of arithmetic on coordinates beyond
    [x == x]: they rest on [index] repeating the tests that
    [insertPointRecurse] made on the same stored values.

    The [children] of a node are a vector of [childNum] slots that no member
    function resizes; the loops over [0 .. childNum) are modelled as passes
    over that list. *)

From Stdlib Require Import QArith Qpower ZArith Lia.
From stdpp Require Import base option list gmap.

Local Open Scope Z_scope.

(** ** Points *)

Record Point3f : Type := mkPoint3f { px : Q; py : Q; pz : Q }.

Definition Qlt_bool (a b : Q) : bool :=
  match (a ?= b)%Q with Lt => true | _ => false end.

(** [std::max] and [std::min]. *)
Definition fmax (a b : Q) : Q := if Qlt_bool a b then b else a.
Definition fmin (a b : Q) : Q := if Qlt_bool b a then b else a.

(** The componentwise comparison written out in [index] and [deletePoint]. *)
Definition samePoint (p q : Point3f) : bool :=
  Qeq_bool (px p) (px q) && Qeq_bool (py p) (py q) && Qeq_bool (pz p) (pz q).

(** ** Nodes and trees *)

Definition addr : Type := positive.

Definition childNum : nat := 8.

Record OctreeNode : Type := mkOctreeNode {
  children : list (option addr);
  parent : option addr;
  parentIndex : Z;
  depth : Z;
  node_size : Q;
  node_origin : Point3f;
  isLeaf : bool;
  pointList : list Point3f
}.

Record Octree : Type := mkOctree {
  heap : gmap addr OctreeNode;
  rootNode : option addr;
  tree_size : Q;
  maxDepth : Z;
  tree_origin : Point3f
}.

(** [OctreeNode(_depth, _size, _origin, _parentIndex)]: eight null children,
    a null parent, not a leaf, no points. *)
Definition newOctreeNode (d : Z) (s : Q) (o : Point3f) (pi : Z) : OctreeNode :=
  {| children := replicate childNum None; parent := None; parentIndex := pi;
     depth := d; node_size := s; node_origin := o;
     isLeaf := false; pointList := [] |}.

(** [Octree(_maxDepth, _size, _origin)]. *)
Definition newOctree (md : Z) (s : Q) (o : Point3f) : Octree :=
  {| heap := ∅; rootNode := None; tree_size := s; maxDepth := md;
     tree_origin := o |}.

(** [Octree(_maxDepth)]. *)
Definition newOctreeDepth (md : Z) : Octree :=
  newOctree md 0%Q (mkPoint3f 0 0 0).

Definition set_children (cs : list (option addr)) (n : OctreeNode) : OctreeNode :=
  {| children := cs; parent := parent n; parentIndex := parentIndex n;
     depth := depth n; node_size := node_size n; node_origin := node_origin n;
     isLeaf := isLeaf n; pointList := pointList n |}.

Definition set_parent (pa : option addr) (n : OctreeNode) : OctreeNode :=
  {| children := children n; parent := pa; parentIndex := parentIndex n;
     depth := depth n; node_size := node_size n; node_origin := node_origin n;
     isLeaf := isLeaf n; pointList := pointList n |}.

Definition set_isLeaf (b : bool) (n : OctreeNode) : OctreeNode :=
  {| children := children n; parent := parent n; parentIndex := parentIndex n;
     depth := depth n; node_size := node_size n; node_origin := node_origin n;
     isLeaf := b; pointList := pointList n |}.

Definition set_pointList (l : list Point3f) (n : OctreeNode) : OctreeNode :=
  {| children := children n; parent := parent n; parentIndex := parentIndex n;
     depth := depth n; node_size := node_size n; node_origin := node_origin n;
     isLeaf := isLeaf n; pointList := l |}.

Definition set_heap (h : gmap addr OctreeNode) (t : Octree) : Octree :=
  {| heap := h; rootNode := rootNode t; tree_size := tree_size t;
     maxDepth := maxDepth t; tree_origin := tree_origin t |}.

Definition set_rootNode (r : option addr) (t : Octree) : Octree :=
  {| heap := heap t; rootNode := r; tree_size := tree_size t;
     maxDepth := maxDepth t; tree_origin := tree_origin t |}.

Definition set_bounds (o : Point3f) (s : Q) (t : Octree) : Octree :=
  {| heap := heap t; rootNode := rootNode t; tree_size := s;
     maxDepth := maxDepth t; tree_origin := o |}.

(** Writing the object at address [a]. *)
Definition store (a : addr) (n : OctreeNode) (t : Octree) : Octree :=
  set_heap (<[a := n]> (heap t)) t.

(** [delete node]. *)
Definition free (a : addr) (t : Octree) : Octree :=
  set_heap (delete a (heap t)) t.

(** ** Outcomes

    [Done] is a normal return.  [Throw] is the exception raised by
    [CV_Error(Error::StsBadArg, ...)], with the tree as it is at the throw.
    [Undefined] stands for undefined behaviour of the C++ program: a null or
    dangling pointer dereferenced, a vector read out of range.  [OutOfFuel]
    belongs to the model only: the recursion budget ran out. *)

Inductive outcome (A : Type) : Type :=
| Done (a : A)
| Throw (t : Octree)
| Undefined
| OutOfFuel.
Arguments Done {A} a.
Arguments Throw {A} t.
Arguments Undefined {A}.
Arguments OutOfFuel {A}.

#[global] Instance outcome_bind : MBind outcome := λ A B k m,
  match m with
  | Done a => k a
  | Throw t => Throw t
  | Undefined => Undefined
  | OutOfFuel => OutOfFuel
  end.

(** [*p] for a node pointer [p]. *)
Definition deref (t : Octree) (p : option addr) : outcome OctreeNode :=
  match p with
  | None => Undefined
  | Some a => match heap t !! a with Some n => Done n | None => Undefined end
  end.

(** [v[i]] on a [std::vector]: out of range is undefined behaviour. *)
Definition at_index {A : Type} (v : list A) (i : nat) : outcome A :=
  match v !! i with Some x => Done x | None => Undefined end.

(** ** References to node pointers

    Several member functions take [OctreeNode*&].  The pointer variable
    referred to is the tree's [rootNode], a slot of some node's [children], or
    a local variable of a caller, which no one reads once the callee returns. *)

Inductive noderef : Type :=
| RootRef
| ChildRef (a : addr) (i : nat)
| LocalRef (v : option addr).

Definition read_ref (r : noderef) (t : Octree) : outcome (option addr) :=
  match r with
  | RootRef => Done (rootNode t)
  | ChildRef a i => n ← deref t (Some a) ; at_index (children n) i
  | LocalRef v => Done v
  end.

Definition write_ref (r : noderef) (v : option addr) (t : Octree) : outcome Octree :=
  match r with
  | RootRef => Done (set_rootNode v t)
  | ChildRef a i =>
      n ← deref t (Some a) ;
      if decide (i < length (children n))%nat
      then Done (store a (set_children (<[i := v]> (children n)) n) t)
      else Undefined
  | LocalRef _ => Done t
  end.

(** ** Bounds and octants *)

(** [isPointInBound(point, origin, size)]. *)
Definition isPointInBound (p o : Point3f) (s : Q) : bool :=
  (Qlt_bool (px o) (px p) && Qlt_bool (py o) (py p) && Qlt_bool (pz o) (pz p))
  && (Qlt_bool (px p) (px o + s) && Qlt_bool (py p) (py o + s)
      && Qlt_bool (pz p) (pz o + s)).

(** [isPointInBound(point, node)]. *)
Definition isPointInBound_node (p : Point3f) (n : OctreeNode) : bool :=
  isPointInBound p (node_origin n) (node_size n).

(** [isPointInBound(point)] on the tree. *)
Definition isPointInBound_tree (p : Point3f) (t : Octree) : bool :=
  isPointInBound p (tree_origin t) (tree_size t).

(** [point.x < node->origin.x + childSize ? 0 : 1]. *)
Definition halfIndex (c o childSize : Q) : nat :=
  if Qlt_bool c (o + childSize) then 0%nat else 1%nat.

(** The [childIndex] computed alike in [insertPointRecurse] and [index]. *)
Definition childIndex (p o : Point3f) (s : Q) : nat :=
  let childSize := (s / 2)%Q in
  let xIndex := halfIndex (px p) (px o) childSize in
  let yIndex := halfIndex (py p) (py o) childSize in
  let zIndex := halfIndex (pz p) (pz o) childSize in
  (xIndex + yIndex * 2 + zIndex * 4)%nat.

(** [node->origin + Point3f(xIndex * childSize, yIndex * childSize, zIndex * childSize)]. *)
Definition childOrigin (p o : Point3f) (s : Q) : Point3f :=
  let childSize := (s / 2)%Q in
  let xIndex := halfIndex (px p) (px o) childSize in
  let yIndex := halfIndex (py p) (py o) childSize in
  let zIndex := halfIndex (pz p) (pz o) childSize in
  mkPoint3f (px o + inject_Z (Z.of_nat xIndex) * childSize)
            (py o + inject_Z (Z.of_nat yIndex) * childSize)
            (pz o + inject_Z (Z.of_nat zIndex) * childSize).

(** ** Insertion *)

Fixpoint insertPointRecurse (fuel : nat) (node : option addr) (point : Point3f)
    (t : Octree) : outcome (unit * Octree) :=
  match fuel with
  | O => OutOfFuel
  | S fuel' =>
      n ← deref t node ;
      match node with
      | None => Undefined
      | Some a =>
          if negb (isPointInBound point (node_origin n) (node_size n)) then Throw t
          else if depth n =? maxDepth t then
            Done (tt, store a (set_pointList (pointList n ++ [point])
                                 (set_isLeaf true n)) t)
          else
            let childSize := (node_size n / 2)%Q in
            let ci := childIndex point (node_origin n) (node_size n) in
            slot ← at_index (children n) ci ;
            match slot with
            | Some c => insertPointRecurse fuel' (Some c) point t
            | None =>
                let co := childOrigin point (node_origin n) (node_size n) in
                let c := fresh (dom (heap t)) in
                let child :=
                  set_parent (Some a)
                    (newOctreeNode (depth n + 1) childSize co (Z.of_nat ci)) in
                let t1 := store a (set_children (<[ci := Some c]> (children n)) n)
                            (store c child t) in
                insertPointRecurse fuel' (Some c) point t1
            end
      end
  end.

(** The recursion of [insertPointRecurse] and of [index] goes one level down
    per call and stops at [maxDepth]. *)
Definition descentFuel (t : Octree) : nat := S (Z.to_nat (maxDepth t)).

(** [insertPoint(node, point)]. *)
Definition insertPoint (node : noderef) (point : Point3f) (t : Octree)
    : outcome (unit * Octree) :=
  p ← read_ref node t ;
  match p with
  | None =>
      let a := fresh (dom (heap t)) in
      t1 ← write_ref node (Some a)
             (store a (newOctreeNode 0 (tree_size t) (tree_origin t) (-1)) t) ;
      p1 ← read_ref node t1 ;
      insertPointRecurse (descentFuel t) p1 point t1
  | Some _ => insertPointRecurse (descentFuel t) p point t
  end.

(** ** Lookup *)

(** The scan of a leaf's [pointList] in [index]. *)
Definition leafHolds (point : Point3f) (l : list Point3f) : bool :=
  existsb (samePoint point) l.

(** [index(point, node)]. *)
Fixpoint index (fuel : nat) (point : Point3f) (node : option addr) (t : Octree)
    : outcome (option addr) :=
  match fuel with
  | O => OutOfFuel
  | S fuel' =>
      match node with
      | None => Done None
      | Some a =>
          n ← deref t node ;
          if isLeaf n then
            (if leafHolds point (pointList n) then Done (Some a) else Done None)
          else if isPointInBound point (node_origin n) (node_size n) then
            slot ← at_index (children n)
                     (childIndex point (node_origin n) (node_size n)) ;
            match slot with
            | Some c => index fuel' point (Some c) t
            | None => Done None
            end
          else Done None
      end
  end.

(** [index(point)]: the search from the root. *)
Definition index_tree (point : Point3f) (t : Octree) : outcome (option addr) :=
  if isPointInBound_tree point t
  then index (descentFuel t) point (rootNode t) t
  else Done None.

(** ** Deletion *)

(** The loop of [deletePoint] over [node->pointList]: the entry at [i] is
    erased when it equals [point], and [i] goes up by one either way; the loop
    ends when [i] reaches the current size.  [fuel] bounds the iterations. *)
Fixpoint eraseLoop (fuel : nat) (point : Point3f) (l : list Point3f) (i : nat)
    : list Point3f :=
  match fuel with
  | O => l
  | S fuel' =>
      match l !! i with
      | None => l
      | Some q =>
          if samePoint point q
          then eraseLoop fuel' point (delete i l) (S i)
          else eraseLoop fuel' point l (S i)
      end
  end.

Definition erasePoints (point : Point3f) (l : list Point3f) : list Point3f :=
  eraseLoop (length l) point l 0.

(** [pointList.empty()]. *)
Definition empty_list {A : Type} (l : list A) : bool :=
  match l with [] => true | _ => false end.

(** The loop of [deletePointRecurse] that computes [deleteFlag]. *)
Definition noLiveChild (cs : list (option addr)) : bool :=
  forallb (λ c, match c with None => true | Some _ => false end) cs.

(** [deletePointRecurse(node)]. *)
Fixpoint deletePointRecurse (fuel : nat) (node : noderef) (t : Octree)
    : outcome (bool * Octree) :=
  match fuel with
  | O => OutOfFuel
  | S fuel' =>
      p ← read_ref node t ;
      match p with
      | None => Done (false, t)
      | Some a =>
          n ← deref t p ;
          if isLeaf n then
            if negb (empty_list (pointList n)) then
              let parent := parent n in
              pn ← deref t parent ;
              match parent with
              | None => Undefined
              | Some pa =>
                  if decide (0 ≤ parentIndex n < Z.of_nat (length (children pn)))
                  then
                    let slots := <[Z.to_nat (parentIndex n) := None]> (children pn) in
                    let t1 := store pa (set_children slots pn) t in
                    let t2 := free a t1 in
                    deletePointRecurse fuel' (LocalRef parent) t2
                  else Undefined
              end
            else Done (true, t)
          else
            let deleteFlag := noLiveChild (children n) in
            if deleteFlag then
              let parent := parent n in
              t1 ← write_ref node None t ;
              deletePointRecurse fuel' (LocalRef parent) t1
            else Done (true, t)
      end
  end.

(** The walk of [deletePointRecurse] goes one level up per call and ends on
    the null parent of the root. *)
Definition ascentFuel (t : Octree) : nat := S (S (Z.to_nat (maxDepth t))).

(** [deletePoint(point)]: [node] is a local variable of this function. *)
Definition deletePoint (point : Point3f) (t : Octree) : outcome (bool * Octree) :=
  node ← index (descentFuel t) point (rootNode t) t ;
  match node with
  | Some a =>
      n ← deref t node ;
      let t1 := store a (set_pointList (erasePoints point (pointList n)) n) t in
      deletePointRecurse (ascentFuel t) (LocalRef node) t1
  | None => Done (false, t)
  end.

(** [isEmpty()]. *)
Definition isEmpty (t : Octree) : bool :=
  match rootNode t with None => true | Some _ => false end.

(** ** Teardown *)

(** [if(parentIndex != -1) parent->children[parentIndex] = nullptr;] in
    [OctreeNode::clear]. *)
Definition clearParentSlot (this : addr) (t : Octree) : outcome Octree :=
  n ← deref t (Some this) ;
  if decide (parentIndex n = -1) then Done t
  else
    let parent := parent n in
    pn ← deref t parent ;
    match parent with
    | None => Undefined
    | Some pa =>
        if decide (0 ≤ parentIndex n < Z.of_nat (length (children pn)))
        then
          let slots := <[Z.to_nat (parentIndex n) := None]> (children pn) in
          Done (store pa (set_children slots pn) t)
        else Undefined
    end.

(** The loop of [OctreeNode::clear] over the children of [this].  A child's
    [clear] writes the slot it sits in, so [children[i]] is read from the
    store at each round. *)
Fixpoint clearChildren (body : addr → Octree → outcome Octree) (this : addr)
    (idxs : list nat) (t : Octree) : outcome Octree :=
  match idxs with
  | [] => Done t
  | i :: rest =>
      n ← deref t (Some this) ;
      slot ← at_index (children n) i ;
      t1 ← match slot with
           | Some c => body c t
           | None => Done t
           end ;
      clearChildren body this rest t1
  end.

(** [OctreeNode::clear()], called on the node at address [this]. *)
Fixpoint OctreeNode_clear (fuel : nat) (this : addr) (t : Octree) : outcome Octree :=
  match fuel with
  | O => OutOfFuel
  | S fuel' =>
      n ← deref t (Some this) ;
      if isLeaf n then
        t1 ← clearParentSlot this t ;
        Done (free this t1)
      else
        t1 ← clearChildren (OctreeNode_clear fuel') this (seq 0 childNum) t ;
        t2 ← clearParentSlot this t1 ;
        Done (free this t2)
  end.

(** [Octree::clear()]. *)
Definition Octree_clear (t : Octree) : outcome Octree :=
  t1 ← match rootNode t with
       | Some r => OctreeNode_clear (descentFuel t) r t
       | None => Done t
       end ;
  Done {| heap := heap t1; rootNode := rootNode t1; tree_size := 0;
          maxDepth := 0; tree_origin := mkPoint3f 0 0 0 |}.

(** ** Traversal

    The predicate [f] sees the node's address and content.  A traversal gives
    back the addresses on which [f] was called, in call order. *)

(** The loop over [childIndex] in both traversals. *)
Fixpoint forChildren (body : option addr → outcome (list addr))
    (cs : list (option addr)) : outcome (list addr) :=
  match cs with
  | [] => Done []
  | c :: cs' => v ← body c ; w ← forChildren body cs' ; Done (v ++ w)
  end.

Fixpoint traverseRecurseBFS (fuel : nat) (f : addr → OctreeNode → bool)
    (node : option addr) (t : Octree) : outcome (list addr) :=
  match fuel with
  | O => OutOfFuel
  | S fuel' =>
      match node with
      | None => Done []
      | Some a =>
          n ← deref t node ;
          below ← forChildren (λ c, traverseRecurseBFS fuel' f c t) (children n) ;
          if negb (f a n) then Done (below ++ [a]) else Done (below ++ [a])
      end
  end.

Fixpoint traverseRecurseDFS (fuel : nat) (f : addr → OctreeNode → bool)
    (node : option addr) (t : Octree) : outcome (list addr) :=
  match fuel with
  | O => OutOfFuel
  | S fuel' =>
      match node with
      | None => Done []
      | Some a =>
          n ← deref t node ;
          if negb (f a n) then Done [a]
          else
            below ← forChildren (λ c, traverseRecurseDFS fuel' f c t) (children n) ;
            Done (a :: below)
      end
  end.

(** A traversal goes one level down per call and ends on null children. *)
Definition traversalFuel (t : Octree) : nat := S (S (Z.to_nat (maxDepth t))).

(** ** The drawing pass of main.cpp

    [Traverse(node, merger)] adds to the merger one cube widget per node: the
    cube from [origin] to [origin + (size, size, size)], drawn as a wire frame
    unless the node is a leaf.  The merger is modelled by the list of the
    cubes added, in order; the message printed for a null node is left
    out. *)

Record WCube : Type := mkWCube {
  min_point : Point3f;
  max_point : Point3f;
  wire_frame : bool
}.

Definition cubeOf (n : OctreeNode) : WCube :=
  {| min_point := node_origin n;
     max_point := mkPoint3f (px (node_origin n) + node_size n)
                            (py (node_origin n) + node_size n)
                            (pz (node_origin n) + node_size n);
     wire_frame := negb (isLeaf n) |}.

(** The loop of [Traverse] over the children: null children are skipped. *)
Fixpoint forLiveChildren (body : option addr → outcome (list WCube))
    (cs : list (option addr)) : outcome (list WCube) :=
  match cs with
  | [] => Done []
  | None :: cs' => forLiveChildren body cs'
  | Some c :: cs' =>
      v ← body (Some c) ; w ← forLiveChildren body cs' ; Done (v ++ w)
  end.

Fixpoint Traverse (fuel : nat) (node : option addr) (t : Octree)
    : outcome (list WCube) :=
  match fuel with
  | O => OutOfFuel
  | S fuel' =>
      match node with
      | None => Done []
      | Some a =>
          n ← deref t node ;
          below ← forLiveChildren (λ c, Traverse fuel' c t) (children n) ;
          Done (cubeOf n :: below)
      end
  end.

(** ** Construction from a point cloud *)

Definition pointMax (p q : Point3f) : Point3f :=
  mkPoint3f (fmax (px p) (px q)) (fmax (py p) (py q)) (fmax (pz p) (pz q)).

Definition pointMin (p q : Point3f) : Point3f :=
  mkPoint3f (fmin (px p) (px q)) (fmin (py p) (py q)) (fmin (pz p) (pz q)).

(** [findCenterInPointCloud(pointCloud)]: the bounds start from
    [pointCloud[0]]. *)
Definition findCenterInPointCloud (pointCloud : list Point3f) : outcome Point3f :=
  first ← at_index pointCloud 0%nat ;
  let bounds :=
    fold_left (λ b p, (pointMax p (fst b), pointMin p (snd b)))
              pointCloud (first, first) in
  let maxBound := fst bounds in
  let minBound := snd bounds in
  Done (mkPoint3f ((px maxBound + px minBound) / 2)
                  ((py maxBound + py minBound) / 2)
                  ((pz maxBound + pz minBound) / 2)).

(** The loop of [convertFromPointCloud] that inserts every point. *)
Fixpoint insertEach (pointCloud : list Point3f) (t : Octree)
    : outcome (unit * Octree) :=
  match pointCloud with
  | [] => Done (tt, t)
  | p :: rest => r ← insertPoint RootRef p t ; insertEach rest (snd r)
  end.

(** [convertFromPointCloud(pointCloud)]. *)
Definition convertFromPointCloud (pointCloud : list Point3f) (t : Octree)
    : outcome (bool * Octree) :=
  center ← findCenterInPointCloud pointCloud ;
  let halfSize := fmax (px center) (fmax (py center) (pz center)) in
  let origin := mkPoint3f (px center - halfSize) (py center - halfSize)
                          (pz center - halfSize) in
  let t1 := set_bounds origin (2 * halfSize) t in
  r ← insertEach pointCloud t1 ;
  Done (true, snd r).

(** [Octree(_maxDepth, _pointCloud)]. *)
Definition newOctreeFromPointCloud (md : Z) (pointCloud : list Point3f)
    : outcome Octree :=
  r ← convertFromPointCloud pointCloud (newOctreeDepth md) ;
  Done (snd r).

(** ** Shape of the trees the member functions build *)

(** What holds of the object [n] stored at address [a]. *)
Record node_ok (t : Octree) (a : addr) (n : OctreeNode) : Prop := {
  ok_slots : length (children n) = childNum;
  ok_depth : 0 ≤ depth n ≤ maxDepth t;
  ok_leaf : isLeaf n = true → depth n = maxDepth t;
  ok_child : ∀ i c, children n !! i = Some (Some c) →
      ∃ m, heap t !! c = Some m ∧ parent m = Some a
           ∧ parentIndex m = Z.of_nat i ∧ depth m = depth n + 1;
  ok_parent : ∀ pa, parent n = Some pa →
      ∃ m, heap t !! pa = Some m ∧ 0 ≤ parentIndex n
           ∧ children m !! Z.to_nat (parentIndex n) = Some (Some a);
  ok_orphan : parent n = None → rootNode t = Some a
}.

Record wf (t : Octree) : Prop := {
  wf_maxDepth : 0 ≤ maxDepth t;
  wf_empty : rootNode t = None → heap t = ∅;
  wf_root : ∀ r, rootNode t = Some r →
      ∃ n, heap t !! r = Some n ∧ parent n = None ∧ depth n = 0
           ∧ node_origin n = tree_origin t ∧ node_size n = tree_size t;
  wf_node : ∀ a n, heap t !! a = Some n → node_ok t a n
}.

(** The trees obtained from an empty tree over given bounds by calls of
    [insertPoint] on the root and of [deletePoint].  A call of [insertPoint]
    that throws leaves the tree as it is at the throw. *)
Inductive built : Octree → Prop :=
| built_new md s o : 0 ≤ md → built (newOctree md s o)
| built_insert t p t' :
    built t → insertPoint RootRef p t = Done (tt, t') → built t'
| built_insert_throw t p t' :
    built t → insertPoint RootRef p t = Throw t' → built t'
| built_delete t p b t' :
    built t → deletePoint p t = Done (b, t') → built t'.

(** [ext t t']: the nodes of [t] are still in [t'], at the same place and
    depth, with the children and the points they had. *)
Definition ext (t t' : Octree) : Prop :=
  ∀ a n, heap t !! a = Some n →
    ∃ n', heap t' !! a = Some n'
          ∧ depth n' = depth n
          ∧ node_origin n' = node_origin n ∧ node_size n' = node_size n
          ∧ (∀ i c, children n !! i = Some (Some c) →
                    children n' !! i = Some (Some c))
          ∧ (∀ q, q ∈ pointList n → q ∈ pointList n')
          ∧ (isLeaf n = true → isLeaf n' = true).

(** [grown t t']: [t'] comes from [t] by calls of [insertPoint] on the root. *)
Inductive grown : Octree → Octree → Prop :=
| grown_refl t : grown t t
| grown_insert t t1 q t2 :
    grown t t1 → insertPoint RootRef q t1 = Done (tt, t2) → grown t t2
| grown_insert_throw t t1 q t2 :
    grown t t1 → insertPoint RootRef q t1 = Throw t2 → grown t t2.

(** Nodes reachable from the root through child pointers. *)
Inductive reach (t : Octree) : addr → Prop :=
| reach_root r : rootNode t = Some r → reach t r
| reach_child a n i c :
    reach t a → heap t !! a = Some n → children n !! i = Some (Some c) →
    reach t c.

(** I1: every reachable non-leaf node has a non-null child. *)
Definition I1 (t : Octree) : Prop :=
  ∀ a n, reach t a → heap t !! a = Some n → isLeaf n = false →
         noLiveChild (children n) = false.

(** I2: the [pointList] of every reachable leaf is non-empty. *)
Definition I2 (t : Octree) : Prop :=
  ∀ a n, reach t a → heap t !! a = Some n → isLeaf n = true →
         pointList n ≠ [].

(** [below f t a m]: [m] is [a] or lies under [a] along child pointers, and
    [f] holds of every node of the chain above [m]. *)
Inductive below (f : addr → OctreeNode → bool) (t : Octree) : addr → addr → Prop :=
| below_here a n : heap t !! a = Some n → below f t a a
| below_child a n i c m :
    heap t !! a = Some n → f a n = true →
    children n !! i = Some (Some c) → below f t c m → below f t a m.

(** The box midpoint and half-extents of a point cloud, as the bounding cube
    is described: used to compare [convertFromPointCloud] with. *)
Definition boxMax (first : Point3f) (l : list Point3f) : Point3f :=
  fold_left (λ b p, pointMax p b) l first.
Definition boxMin (first : Point3f) (l : list Point3f) : Point3f :=
  fold_left (λ b p, pointMin p b) l first.
Definition maxHalfExtent (first : Point3f) (l : list Point3f) : Q :=
  let hi := boxMax first l in
  let lo := boxMin first l in
  fmax ((px hi - px lo) / 2) (fmax ((py hi - py lo) / 2) ((pz hi - pz lo) / 2)).

(** A traversal that stops for good at the first node on which the predicate
    is false visits nothing after that node. *)
Definition stopsAtFirstFalse (f : addr → OctreeNode → bool) (t : Octree)
    (visited : list addr) : Prop :=
  ∀ pre a n post, visited = pre ++ a :: post → heap t !! a = Some n →
                  f a n = false → post = [].

(** ** Reference descriptions, to compare the code with *)

(** What the loop of [deletePoint] comes to, by recursion on the list: an
    entry equal to the point is dropped and the entry after it is kept
    unseen. *)
Fixpoint eraseSkipping (point : Point3f) (l : list Point3f) : list Point3f :=
  match l with
  | [] => []
  | x :: r =>
      if samePoint point x then
        match r with
        | [] => []
        | y :: r' => y :: eraseSkipping point r'
        end
      else x :: eraseSkipping point r
  end.

(** No two neighbours of the list are both equal to the point. *)
Fixpoint noAdjacentMatch (point : Point3f) (l : list Point3f) : bool :=
  match l with
  | x :: r =>
      match r with
      | y :: _ => negb (samePoint point x && samePoint point y)
      | [] => true
      end && noAdjacentMatch point r
  | [] => true
  end.

(** The entries of the list that differ from the point. *)
Definition others (point : Point3f) (l : list Point3f) : list Point3f :=
  List.filter (λ q, negb (samePoint point q)) l.


(** The elementary changes that [insertPoint] and [deletePoint] make to a
    tree: allocate the root; hang a new child in the empty slot on the way of
    a point; mark a node at [maxDepth] as leaf and append the point; rewrite
    a leaf's list by the erasing loop; clear a leaf's slot and free the
    leaf. *)
Inductive step : Octree → Octree → Prop :=
| step_root t :
    rootNode t = None →
    step t (set_rootNode (Some (fresh (dom (heap t))))
              (store (fresh (dom (heap t)))
                 (newOctreeNode 0 (tree_size t) (tree_origin t) (-1)) t))
| step_child t a n p :
    heap t !! a = Some n →
    isPointInBound p (node_origin n) (node_size n) = true →
    depth n ≠ maxDepth t →
    children n !! childIndex p (node_origin n) (node_size n) = Some None →
    step t (store a
              (set_children
                 (<[childIndex p (node_origin n) (node_size n)
                    := Some (fresh (dom (heap t)))]> (children n)) n)
              (store (fresh (dom (heap t)))
                 (set_parent (Some a)
                    (newOctreeNode (depth n + 1) (node_size n / 2)%Q
                       (childOrigin p (node_origin n) (node_size n))
                       (Z.of_nat (childIndex p (node_origin n) (node_size n)))))
                 t))
| step_push t a n p :
    heap t !! a = Some n →
    isPointInBound p (node_origin n) (node_size n) = true →
    depth n = maxDepth t →
    step t (store a (set_pointList (pointList n ++ [p]) (set_isLeaf true n)) t)
| step_erase t a n p :
    heap t !! a = Some n → isLeaf n = true →
    step t (store a (set_pointList (erasePoints p (pointList n)) n) t)
| step_detach t a n pa pn :
    heap t !! a = Some n → isLeaf n = true →
    parent n = Some pa → heap t !! pa = Some pn → a ≠ pa →
    step t (free a
              (store pa
                 (set_children
                    (<[Z.to_nat (parentIndex n) := None]> (children pn)) pn)
                 t)).


(** ** Invariants of built trees *)

(** Points are held by leaves only, and a point held by a node is strictly
    inside the node's cube. *)
Definition payload_ok (t : Octree) : Prop :=
  ∀ a n, heap t !! a = Some n →
    (isLeaf n = false → pointList n = [])
    ∧ (∀ q, q ∈ pointList n →
            isPointInBound q (node_origin n) (node_size n) = true).

(** The size of a node is the size of the tree halved [depth] times. *)
Definition size_ok (t : Octree) : Prop :=
  ∀ a n, heap t !! a = Some n →
    (node_size n == tree_size t / 2 ^ depth n)%Q.


(** Every point held by a node is within the tree's bounds and is found by
    [index] from the root, in that node. *)
Definition findable_ok (t : Octree) : Prop :=
  ∀ a n q,
    heap t !! a = Some n → q ∈ pointList n →
    isPointInBound_tree q t = true
    ∧ index (descentFuel t) q (rootNode t) t = Done (Some a).


(** The cubes of the nodes at the given addresses. *)
Definition cubesAt (t : Octree) (v : list addr) : list WCube :=
  omap (λ a, cubeOf <$> heap t !! a) v.

(** The predicate that lets a traversal go everywhere. *)
Definition everywhere (a : addr) (n : OctreeNode) : bool := true.

(** A node without parent has the [parentIndex] that the root is made
    with. *)
Definition orphan_index_ok (t : Octree) : Prop :=
  ∀ a n, heap t !! a = Some n → parent n = None → parentIndex n = -1.

(** [shrunk t' t]: the nodes of [t'] are nodes of [t], with no child that
    they did not have in [t] and with the parent they had. *)
Definition shrunk (t' t : Octree) : Prop :=
  ∀ x m', heap t' !! x = Some m' →
    ∃ m, heap t !! x = Some m ∧ parent m' = parent m
         ∧ ∀ j y, children m' !! j = Some (Some y) → children m !! j = Some (Some y).

(** What [clear] leaves when called on a node [a] that sits in slot
    [parentIndex n] of its parent: a well-formed tree with the same root and
    bounds, in which [a] is freed, its slot in the parent is null, and the
    other nodes that are left are as they were; only nodes below [a] are
    freed. *)
Definition clears (t : Octree) (a : addr) (n : OctreeNode) (pa : addr)
    (pn : OctreeNode) (t' : Octree) : Prop :=
  wf t'
  ∧ rootNode t' = rootNode t ∧ maxDepth t' = maxDepth t
  ∧ tree_size t' = tree_size t ∧ tree_origin t' = tree_origin t
  ∧ heap t' !! a = None
  ∧ heap t' !! pa
    = Some (set_children (<[Z.to_nat (parentIndex n) := None]> (children pn)) pn)
  ∧ (∀ x m, x ≠ pa → heap t' !! x = Some m → heap t !! x = Some m)
  ∧ (∀ x, is_Some (heap t !! x) → is_Some (heap t' !! x) ∨ below everywhere t a x).

(** ** Sample inputs *)

Definition origin0 : Point3f := mkPoint3f 0 0 0.
Definition pHalf : Point3f := mkPoint3f (1#2) (1#2) (1#2).
Definition pQuarter : Point3f := mkPoint3f (1#4) (1#4) (1#4).
Definition pEighth : Point3f := mkPoint3f (1#8) (1#8) (1#8).
Definition pFar : Point3f := mkPoint3f (15#8) (15#8) (15#8).

(** Two points in opposite octants of the cube of origin (0,0,0) and size 2. *)
Definition cloudTwo : list Point3f := [pEighth; pFar].

(** Two points with negative coordinates. *)
Definition cloudNegative : list Point3f :=
  [mkPoint3f (-3) (-3) (-3); mkPoint3f (-1) (-1) (-1)].

(** Two points far from the origin of the coordinates. *)
Definition cloudShifted : list Point3f :=
  [mkPoint3f 10 10 10; mkPoint3f 12 12 12].

(** The tree of an outcome, or [dflt] when there is none. *)
Definition tree_of {A : Type} (dflt : Octree) (o : outcome (A * Octree)) : Octree :=
  match o with Done r => snd r | Throw t => t | _ => dflt end.

(** [insertPoint] on the root, then the tree. *)
Definition inserted (p : Point3f) (t : Octree) : Octree :=
  tree_of t (insertPoint RootRef p t).

(** [deletePoint], then the tree. *)
Definition deleted (p : Point3f) (t : Octree) : Octree :=
  tree_of t (deletePoint p t).

(** The tree of depth 1 built from [cloudTwo]: the root at address 1, the leaf
    of [pEighth] at address 2 in slot 0, the leaf of [pFar] at address 3 in
    slot 7. *)
Definition treeTwo : Octree :=
  tree_of (newOctreeDepth 1) (convertFromPointCloud cloudTwo (newOctreeDepth 1)).

(** A predicate that is false on the node at address 2 only. *)
Definition notSecond (a : addr) (n : OctreeNode) : bool := negb (Pos.eqb a 2).

(** * Properties *)

Local Open Scope Q_scope.

Lemma Qlt_bool_iff (a b : Q) : Qlt_bool a b = true ↔ a < b.
Proof.
  unfold Qlt_bool. rewrite Qlt_alt.
  destruct (a ?= b); split; intros H; try reflexivity; discriminate.
Qed.



(** ** Construction from a point cloud *)

(** C10. Whenever [convertFromPointCloud] returns normally, it returns true. *)
Theorem convertFromPointCloud_returns_true
    (pointCloud : list Point3f) (t : Octree) (b : bool) (t' : Octree) :
  convertFromPointCloud pointCloud t = Done (b, t') → b = true.
Proof.
  unfold convertFromPointCloud. intros H.
  destruct (findCenterInPointCloud pointCloud) as [center | | |]; try discriminate.
  simpl in H.
  destruct (insertEach pointCloud _) as [r | | |]; try discriminate.
  simpl in H. congruence.
Qed.

Lemma convertFromPointCloud_returns_true_witness :
  ∃ b t', convertFromPointCloud cloudTwo (newOctreeDepth 1) = Done (b, t')
          ∧ b = true.
Proof.
  eexists _, _. split.
  - vm_compute. reflexivity.
  - eapply (convertFromPointCloud_returns_true cloudTwo (newOctreeDepth 1)).
    vm_compute. reflexivity.
Defined.

(** C3. On an empty point cloud [convertFromPointCloud] raises no error: it
    reads [pointCloud[0]] of an empty vector, which is undefined behaviour, and
    so does the constructor that calls it. *)
Theorem convertFromPointCloud_empty_undefined :
  (∀ t, convertFromPointCloud [] t = Undefined)
  ∧ (∀ md, newOctreeFromPointCloud md [] = Undefined)
  ∧ findCenterInPointCloud [] = Undefined.
Proof. repeat split. Qed.

(** C2. For the cloud (-3,-3,-3), (-1,-1,-1) the box midpoint is (-2,-2,-2)
    and the largest half-extent is 1, but [convertFromPointCloud] takes
    halfSize = -2 (the largest coordinate of the midpoint), origin (0,0,0)
    and size -4; both points are outside that cube, on none of its faces,
    and the first insertion throws.  For the cloud (10,10,10), (12,12,12) the largest half-extent is
    again 1, but the size is 22. *)
Theorem convertFromPointCloud_halfSize_from_center :
  findCenterInPointCloud cloudNegative = Done (mkPoint3f (-4#2) (-4#2) (-4#2))
  ∧ maxHalfExtent (mkPoint3f (-3) (-3) (-3)) cloudNegative == 1
  ∧ (∃ t, convertFromPointCloud cloudNegative (newOctreeDepth 1) = Throw t
          ∧ tree_size t == -4
          ∧ px (tree_origin t) == 0 ∧ py (tree_origin t) == 0
          ∧ pz (tree_origin t) == 0
          ∧ Forall (λ p, isPointInBound_tree p t = false) cloudNegative
          ∧ Forall (λ p, ¬ px p == px (tree_origin t)
                         ∧ ¬ px p == px (tree_origin t) + tree_size t)
                   cloudNegative)
  ∧ maxHalfExtent (mkPoint3f 10 10 10) cloudShifted == 1
  ∧ (∃ r, convertFromPointCloud cloudShifted (newOctreeDepth 1) = Done r
          ∧ tree_size (snd r) == 22
          ∧ px (tree_origin (snd r)) == 0).
Proof.
  split; [vm_compute; reflexivity |].
  split; [vm_compute; reflexivity |].
  split.
  - eexists. split; [vm_compute; reflexivity |].
    split_and!; try (vm_compute; reflexivity).
    + repeat constructor.
    + repeat constructor; vm_compute; discriminate.
  - split; [vm_compute; reflexivity |].
    eexists. split; [vm_compute; reflexivity |].
    split; vm_compute; reflexivity.
Qed.

(** ** Deletion on sample trees *)

(** C5. With the point (1/2,1/2,1/2) stored twice in a leaf, the loop of
    [deletePoint] erases the first copy and steps over the second: one copy is
    left when the loop ends.  The list being non-empty, [deletePointRecurse]
    then frees the leaf. *)
Theorem deletePoint_adjacent_duplicates :
  let t := inserted pHalf (inserted pHalf (newOctree 1 2 origin0)) in
  ∃ leaf n,
    index_tree pHalf t = Done (Some leaf)
    ∧ heap t !! leaf = Some n
    ∧ pointList n = [pHalf; pHalf]
    ∧ erasePoints pHalf (pointList n) = [pHalf]
    ∧ ∃ b t', deletePoint pHalf t = Done (b, t') ∧ heap t' !! leaf = None.
Proof.
  eexists _, _. split; [vm_compute; reflexivity |].
  split; [vm_compute; reflexivity |].
  split; [reflexivity |].
  split; [vm_compute; reflexivity |].
  eexists _, _. split; vm_compute; reflexivity.
Qed.

(** C1. Deleting the only point of a leaf leaves the leaf in its parent's slot
    with an empty [pointList], so I2 fails; deleting one of two points of a
    leaf frees the leaf with the other point still in it and leaves its parent
    in the tree without any child, so I1 fails. *)
Theorem deletePoint_breaks_invariants :
  (∃ t1 t2,
     insertPoint RootRef pHalf (newOctree 1 2 origin0) = Done (tt, t1)
     ∧ deletePoint pHalf t1 = Done (true, t2)
     ∧ ¬ I2 t2)
  ∧ (∃ t1 t2 t3,
       insertPoint RootRef pQuarter (newOctree 2 2 origin0) = Done (tt, t1)
       ∧ insertPoint RootRef pEighth t1 = Done (tt, t2)
       ∧ deletePoint pQuarter t2 = Done (true, t3)
       ∧ index_tree pEighth t2 = Done (Some 3%positive)
       ∧ index_tree pEighth t3 = Done None
       ∧ ¬ I1 t3).
Proof.
  split.
  - eexists _, _. split; [vm_compute; reflexivity |].
    split; [vm_compute; reflexivity |].
    intros H.
    eapply (H 2%positive).
    + eapply (reach_child _ 1%positive _ 0%nat).
      * apply reach_root. reflexivity.
      * vm_compute. reflexivity.
      * reflexivity.
    + vm_compute. reflexivity.
    + reflexivity.
    + reflexivity.
  - eexists _, _, _. split; [vm_compute; reflexivity |].
    split; [vm_compute; reflexivity |].
    split; [vm_compute; reflexivity |].
    split; [vm_compute; reflexivity |].
    split; [vm_compute; reflexivity |].
    intros H.
    match type of H with I1 ?t =>
      assert (reach t 2%positive) as Hr
    end.
    { eapply (reach_child _ 1%positive _ 0%nat).
      - apply reach_root. reflexivity.
      - vm_compute. reflexivity.
      - reflexivity. }
    specialize (H 2%positive (set_parent (Some 1%positive)
                   (newOctreeNode 1 (2 # 2)
                      (mkPoint3f (0 # 2) (0 # 2) (0 # 2)) 0)) Hr).
    cut (noLiveChild (replicate childNum None) = false); [discriminate |].
    apply H; [vm_compute |]; reflexivity.
Qed.

(** C6. In the tree of depth 1 built from two points in opposite octants,
    deleting both points leaves the root in place, with both emptied leaves
    still in its slots: the tree is not empty. *)
Theorem deletePoint_full_drain_keeps_root :
  ∃ t1 t2 root n,
    deletePoint pEighth treeTwo = Done (true, t1)
    ∧ deletePoint pFar t1 = Done (true, t2)
    ∧ isEmpty t2 = false
    ∧ rootNode t2 = Some root
    ∧ heap t2 !! root = Some n
    ∧ children n = [Some 2%positive; None; None; None; None; None; None;
                    Some 3%positive]
    ∧ (pointList <$> heap t2 !! 2%positive) = Some []
    ∧ (pointList <$> heap t2 !! 3%positive) = Some []
    ∧ index_tree pEighth t2 = Done None
    ∧ index_tree pFar t2 = Done None.
Proof.
  eexists _, _, _, _. split; [vm_compute; reflexivity |].
  split; [vm_compute; reflexivity |].
  repeat split; vm_compute; reflexivity.
Qed.

(** ** Traversal on a sample tree *)

(** C7, as stated, fails: in the tree with root 1 and leaves 2 and 3, the
    predicate that is false on node 2 is still called on node 3 afterwards by
    the depth-first traversal, and on nodes 3 and 1 by the other one. *)
Lemma traversal_goes_on_after_false :
  traverseRecurseDFS (traversalFuel treeTwo) notSecond (rootNode treeTwo) treeTwo
    = Done [1; 2; 3]%positive
  ∧ ¬ stopsAtFirstFalse notSecond treeTwo [1; 2; 3]%positive
  ∧ traverseRecurseBFS (traversalFuel treeTwo) notSecond (rootNode treeTwo) treeTwo
    = Done [2; 3; 1]%positive
  ∧ ¬ stopsAtFirstFalse notSecond treeTwo [2; 3; 1]%positive.
Proof.
  split; [vm_compute; reflexivity |].
  split.
  - intros H.
    assert ([3%positive] = []) as Habs; [| discriminate Habs].
    eapply (H [1%positive] 2%positive); [reflexivity | vm_compute; reflexivity |].
    reflexivity.
  - split; [vm_compute; reflexivity |].
    intros H.
    assert ([3%positive; 1%positive] = []) as Habs; [| discriminate Habs].
    eapply (H [] 2%positive); [reflexivity | vm_compute; reflexivity |].
    reflexivity.
Qed.

(** ** Well-formed trees *)

Local Close Scope Q_scope.

Lemma wf_newOctree md s o : 0 ≤ md → wf (newOctree md s o).
Proof.
  intros Hmd. split; simpl; done.
Qed.

Lemma childIndex_lt p o s : (childIndex p o s < childNum)%nat.
Proof.
  unfold childIndex, halfIndex, childNum.
  repeat match goal with |- context [if ?b then _ else _] => destruct b end;
    simpl; lia.
Qed.

(** A node without children: what a node at depth [maxDepth] is. *)
Lemma deepest_no_child t a n i c :
  wf t → heap t !! a = Some n → depth n = maxDepth t →
  children n !! i = Some (Some c) → False.
Proof.
  intros Hwf Ha Hd Hc.
  destruct (ok_child _ _ _ (wf_node _ Hwf _ _ Ha) _ _ Hc)
    as (m & Hm & _ & _ & Hdm).
  pose proof (ok_depth _ _ _ (wf_node _ Hwf _ _ Hm)). lia.
Qed.

Lemma parent_not_leaf t a n i c :
  wf t → heap t !! a = Some n → children n !! i = Some (Some c) →
  isLeaf n = false.
Proof.
  intros Hwf Ha Hc. destruct (isLeaf n) eqn:E; [| done].
  exfalso. eapply deepest_no_child; eauto.
  by apply (ok_leaf _ _ _ (wf_node _ Hwf _ _ Ha)).
Qed.

(** Rewriting the payload of a node ([isLeaf], [pointList]) keeps the tree
    well formed. *)
Lemma wf_store_payload t a n n' :
  wf t → heap t !! a = Some n →
  children n' = children n → parent n' = parent n →
  parentIndex n' = parentIndex n → depth n' = depth n →
  node_origin n' = node_origin n → node_size n' = node_size n →
  (isLeaf n' = true → depth n = maxDepth t) →
  wf (store a n' t).
Proof.
  intros Hwf Ha Hc Hp Hpi Hd Ho Hs Hl.
  assert (Hlk : ∀ b m, heap t !! b = Some m →
            ∃ m', heap (store a n' t) !! b = Some m'
                  ∧ children m' = children m ∧ parent m' = parent m
                  ∧ parentIndex m' = parentIndex m ∧ depth m' = depth m
                  ∧ node_origin m' = node_origin m ∧ node_size m' = node_size m).
  { intros b m Hb. simpl. destruct (decide (a = b)) as [<- | Hne].
    - rewrite lookup_insert_eq. exists n'. by simplify_eq.
    - rewrite lookup_insert_ne by done. by exists m. }
  split; simpl.
  - apply Hwf.
  - intros Hr. apply (wf_empty _ Hwf) in Hr. rewrite Hr in Ha.
    by rewrite lookup_empty in Ha.
  - intros r Hr. destruct (wf_root _ Hwf r Hr) as (m & Hm & ? & ? & ? & ?).
    destruct (Hlk _ _ Hm) as (m' & Hm' & ? & ? & ? & ? & ? & ?).
    exists m'. simpl in Hm'. repeat split; congruence.
  - intros b m Hb.
    assert (∃ m0, heap t !! b = Some m0 ∧ children m = children m0
                  ∧ parent m = parent m0 ∧ parentIndex m = parentIndex m0
                  ∧ depth m = depth m0
                  ∧ (isLeaf m = true → depth m0 = maxDepth t))
      as (m0 & Hm0 & Hc0 & Hp0 & Hpi0 & Hd0 & Hl0).
    { destruct (decide (a = b)) as [<- | Hne].
      - rewrite lookup_insert_eq in Hb. simplify_eq. by exists n.
      - rewrite lookup_insert_ne in Hb by done. exists m. repeat split; try done.
        apply (ok_leaf _ _ _ (wf_node _ Hwf _ _ Hb)). }
    pose proof (wf_node _ Hwf _ _ Hm0) as Hok.
    split; simpl.
    + rewrite Hc0. apply Hok.
    + rewrite Hd0. apply Hok.
    + intros. rewrite Hd0. auto.
    + intros i c Hic. rewrite Hc0 in Hic.
      destruct (ok_child _ _ _ Hok _ _ Hic) as (mc & Hmc & ? & ? & ?).
      destruct (Hlk _ _ Hmc) as (mc' & Hmc' & ? & ? & ? & ? & ? & ?).
      exists mc'. simpl in Hmc'. repeat split; congruence.
    + intros pa Hpa. rewrite Hp0 in Hpa.
      destruct (ok_parent _ _ _ Hok _ Hpa) as (mp & Hmp & ? & ?).
      destruct (Hlk _ _ Hmp) as (mp' & Hmp' & Hcp & _).
      exists mp'. simpl in Hmp'. rewrite Hpi0, Hcp. done.
    + intros Hnone. rewrite Hp0 in Hnone. by apply Hok.
Qed.

(** Hanging a new node in an empty slot, as [insertPointRecurse] does. *)
Lemma wf_add_child t a n ci c sz co :
  wf t → heap t !! a = Some n → heap t !! c = None →
  children n !! ci = Some None → depth n ≠ maxDepth t →
  wf (store a (set_children (<[ci := Some c]> (children n)) n)
        (store c (set_parent (Some a)
                    (newOctreeNode (depth n + 1) sz co (Z.of_nat ci))) t)).
Proof.
  intros Hwf Ha Hc Hci Hd.
  set (child := set_parent (Some a) (newOctreeNode (depth n + 1) sz co (Z.of_nat ci))).
  set (na := set_children (<[ci := Some c]> (children n)) n).
  assert (a ≠ c) as Hac by congruence.
  assert (ci < length (children n))%nat as Hlen by (by eapply lookup_lt_Some).
  pose proof (wf_node _ Hwf _ _ Ha) as Hoka.
  assert (Hlk : ∀ b m, heap t !! b = Some m →
            ∃ m', <[a:=na]> (<[c:=child]> (heap t)) !! b = Some m'
                  ∧ parent m' = parent m
                  ∧ parentIndex m' = parentIndex m ∧ depth m' = depth m
                  ∧ node_origin m' = node_origin m ∧ node_size m' = node_size m
                  ∧ (∀ i x, children m !! i = Some (Some x) →
                            children m' !! i = Some (Some x))).
  { intros b m Hb. destruct (decide (a = b)) as [<- | Hne].
    - rewrite lookup_insert_eq. exists na. simplify_eq. repeat split; try done.
      intros i x Hix. simpl. rewrite list_lookup_insert_ne; [done |].
      congruence.
    - rewrite lookup_insert_ne by done.
      rewrite lookup_insert_ne by congruence. by exists m. }
  split; simpl.
  - apply Hwf.
  - intros Hr. apply (wf_empty _ Hwf) in Hr. rewrite Hr in Ha.
    by rewrite lookup_empty in Ha.
  - intros r Hr. destruct (wf_root _ Hwf r Hr) as (m & Hm & ? & ? & ? & ?).
    destruct (Hlk _ _ Hm) as (m' & Hm' & ? & ? & ? & ? & ? & ?).
    exists m'. repeat split; congruence.
  - intros b m Hb.
    destruct (decide (a = b)) as [<- | Hne].
    { (* the parent, with its new slot *)
      rewrite lookup_insert_eq in Hb. simplify_eq.
      split; simpl.
      - rewrite length_insert. apply Hoka.
      - apply Hoka.
      - apply Hoka.
      - intros i x Hix. destruct (decide (ci = i)) as [<- | Hi].
        + rewrite list_lookup_insert_eq in Hix by done. simplify_eq.
          exists child. rewrite lookup_insert_ne by done.
          rewrite lookup_insert_eq. done.
        + rewrite list_lookup_insert_ne in Hix by done.
          destruct (ok_child _ _ _ Hoka _ _ Hix) as (mc & Hmc & ? & ? & ?).
          destruct (Hlk _ _ Hmc) as (mc' & Hmc' & ? & ? & ? & _).
          exists mc'. repeat split; congruence.
      - intros pa Hpa.
        destruct (ok_parent _ _ _ Hoka _ Hpa) as (mp & Hmp & ? & Hslot).
        destruct (Hlk _ _ Hmp) as (mp' & Hmp' & _ & _ & _ & _ & _ & Hcs).
        exists mp'. repeat split; auto.
      - apply Hoka. }
    rewrite lookup_insert_ne in Hb by done.
    destruct (decide (c = b)) as [<- | Hne'].
    { (* the new node *)
      rewrite lookup_insert_eq in Hb. simplify_eq.
      pose proof (ok_depth _ _ _ Hoka).
      split.
      - reflexivity.
      - simpl. lia.
      - done.
      - intros i x Hix.
        change (replicate childNum (@None addr) !! i = Some (Some x)) in Hix.
        apply lookup_replicate in Hix. by destruct Hix.
      - simpl. intros pa Hpa. simplify_eq. exists na.
        rewrite lookup_insert_eq. repeat split; [lia |].
        rewrite Nat2Z.id. simpl. by rewrite list_lookup_insert_eq.
      - done. }
    (* any other node *)
    rewrite lookup_insert_ne in Hb by done.
    pose proof (wf_node _ Hwf _ _ Hb) as Hok.
    split; simpl; try apply Hok.
    + intros i x Hix.
      destruct (ok_child _ _ _ Hok _ _ Hix) as (mc & Hmc & ? & ? & ?).
      destruct (Hlk _ _ Hmc) as (mc' & Hmc' & ? & ? & ? & _).
      exists mc'. repeat split; congruence.
    + intros pa Hpa.
      destruct (ok_parent _ _ _ Hok _ Hpa) as (mp & Hmp & ? & Hslot).
      destruct (Hlk _ _ Hmp) as (mp' & Hmp' & _ & _ & _ & _ & _ & Hcs).
      exists mp'. repeat split; auto.
Qed.

(** Clearing the slot of a childless node and freeing the node, as the leaf
    case of [deletePointRecurse] does. *)
Lemma wf_detach t a n pa pn :
  wf t → heap t !! a = Some n → depth n = maxDepth t →
  parent n = Some pa → heap t !! pa = Some pn →
  wf (free a (store pa (set_children
                          (<[Z.to_nat (parentIndex n) := None]> (children pn)) pn) t)).
Proof.
  intros Hwf Ha Hd Hpa Hpn.
  set (idx := Z.to_nat (parentIndex n)).
  set (pn' := set_children (<[idx := None]> (children pn)) pn).
  pose proof (wf_node _ Hwf _ _ Ha) as Hoka.
  pose proof (wf_node _ Hwf _ _ Hpn) as Hokp.
  destruct (ok_parent _ _ _ Hoka _ Hpa) as (pn0 & Hpn0 & Hidx0 & Hslot).
  simplify_eq. fold idx in Hslot.
  assert (a ≠ pa) as Hne.
  { intros <-. simplify_eq.
    exact (deepest_no_child _ _ _ _ _ Hwf Ha Hd Hslot). }
  (* the slots that still hold a child after the update *)
  assert (Hslots : ∀ b m i x, heap t !! b = Some m →
            children m !! i = Some (Some x) → x ≠ a ∨ (b = pa ∧ i = idx)).
  { intros b m i x Hb Hix. destruct (decide (x = a)) as [-> | ?]; [| by left].
    right. destruct (ok_child _ _ _ (wf_node _ Hwf _ _ Hb) _ _ Hix)
      as (m' & Hm' & Hp' & Hpi' & _).
    simplify_eq. split; [congruence |]. unfold idx. rewrite Hpi'.
    by rewrite Nat2Z.id. }
  assert (Hlk : ∀ b m, heap t !! b = Some m → b ≠ a →
            ∃ m', delete a (<[pa:=pn']> (heap t)) !! b = Some m'
                  ∧ parent m' = parent m
                  ∧ parentIndex m' = parentIndex m ∧ depth m' = depth m
                  ∧ node_origin m' = node_origin m ∧ node_size m' = node_size m
                  ∧ isLeaf m' = isLeaf m
                  ∧ length (children m') = length (children m)
                  ∧ (∀ i x, children m !! i = Some (Some x) → x ≠ a →
                            children m' !! i = Some (Some x))
                  ∧ (∀ i x, children m' !! i = Some (Some x) →
                            children m !! i = Some (Some x) ∧ x ≠ a)).
  { intros b m Hb Hba. rewrite lookup_delete_ne by done.
    destruct (decide (pa = b)) as [<- | Hpb].
    - rewrite lookup_insert_eq. exists pn'.
      assert (m = pn) as -> by congruence.
      split_and!; try done.
      + simpl. by rewrite length_insert.
      + intros i x Hix Hx. simpl. rewrite list_lookup_insert_ne; [done |].
        intros <-. congruence.
      + intros i x Hix. simpl in Hix.
        destruct (decide (idx = i)) as [<- | Hi].
        * rewrite list_lookup_insert_eq in Hix; [done |].
          by eapply lookup_lt_Some.
        * rewrite list_lookup_insert_ne in Hix by done.
          split; [done |].
          destruct (Hslots _ _ _ _ Hb Hix) as [? | [_ ?]]; done.
    - rewrite lookup_insert_ne by done. exists m. split_and!; try done.
      intros i x Hix. split; [done |].
      destruct (Hslots _ _ _ _ Hb Hix) as [? | [? _]]; done. }
  assert (Hback : ∀ b m, delete a (<[pa:=pn']> (heap t)) !! b = Some m →
            b ≠ a ∧ ∃ m0, heap t !! b = Some m0).
  { intros b m Hb. destruct (decide (b = a)) as [-> | Hba].
    - by rewrite lookup_delete_eq in Hb.
    - split; [done |]. rewrite lookup_delete_ne in Hb by done.
      destruct (decide (pa = b)) as [<- | Hpb]; [by eauto |].
      rewrite lookup_insert_ne in Hb by done. eauto. }
  split; simpl.
  - apply Hwf.
  - intros Hr. apply (wf_empty _ Hwf) in Hr. rewrite Hr in Ha.
    by rewrite lookup_empty in Ha.
  - intros r Hr. destruct (wf_root _ Hwf r Hr) as (m & Hm & Hmp & ? & ? & ?).
    assert (r ≠ a) by (intros ->; congruence).
    destruct (Hlk _ _ Hm) as (m' & Hm' & ? & ? & ? & ? & ? & _); [done |].
    exists m'. repeat split; congruence.
  - intros b m Hb.
    destruct (Hback _ _ Hb) as (Hba & m0 & Hm0).
    destruct (Hlk _ _ Hm0 Hba)
      as (m' & Hm' & Hp' & Hpi' & Hd' & _ & _ & Hl' & Hlen' & Hfw & Hbw).
    simplify_eq.
    pose proof (wf_node _ Hwf _ _ Hm0) as Hok.
    split; simpl.
    + rewrite Hlen'. apply Hok.
    + rewrite Hd'. apply Hok.
    + rewrite Hl', Hd'. apply Hok.
    + intros i x Hix. destruct (Hbw _ _ Hix) as [Hix0 Hxa].
      destruct (ok_child _ _ _ Hok _ _ Hix0) as (mc & Hmc & ? & ? & ?).
      destruct (Hlk _ _ Hmc Hxa) as (mc' & Hmc' & ? & ? & ? & _).
      exists mc'. repeat split; congruence.
    + intros pp Hpp. rewrite Hp' in Hpp.
      destruct (ok_parent _ _ _ Hok _ Hpp) as (mp & Hmp & ? & Hslot').
      assert (pp ≠ a).
      { intros ->. simplify_eq.
        exact (deepest_no_child _ _ _ _ _ Hwf Ha Hd Hslot'). }
      destruct (Hlk _ _ Hmp) as (mp' & Hmp' & _ & _ & _ & _ & _ & _ & _ & Hcs & _);
        [done |].
      exists mp'. rewrite Hpi'. repeat split; auto.
    + rewrite Hp'. apply Hok.
Qed.

(** ** Trees that only grow *)

Lemma ext_refl t : ext t t.
Proof. intros a n Ha. exists n. by split_and!. Qed.

Lemma ext_trans t1 t2 t3 : ext t1 t2 → ext t2 t3 → ext t1 t3.
Proof.
  intros H12 H23 a n Ha.
  destruct (H12 _ _ Ha) as (n2 & Hn2 & ? & ? & ? & Hc2 & Hp2 & Hl2).
  destruct (H23 _ _ Hn2) as (n3 & Hn3 & ? & ? & ? & Hc3 & Hp3 & Hl3).
  exists n3. split_and!; try congruence; auto.
Qed.

Lemma ext_store_payload t a n n' :
  heap t !! a = Some n →
  children n' = children n → depth n' = depth n →
  node_origin n' = node_origin n → node_size n' = node_size n →
  (∀ q, q ∈ pointList n → q ∈ pointList n') →
  (isLeaf n = true → isLeaf n' = true) →
  ext t (store a n' t).
Proof.
  intros Ha Hc Hd Ho Hs Hp Hl b m Hb. simpl.
  destruct (decide (a = b)) as [<- | Hne].
  - rewrite lookup_insert_eq. exists n'. simplify_eq.
    split_and!; try done. by rewrite Hc.
  - rewrite lookup_insert_ne by done. exists m. by split_and!.
Qed.

Lemma ext_add_child t a n ci c child :
  heap t !! a = Some n → heap t !! c = None → children n !! ci = Some None →
  ext t (store a (set_children (<[ci := Some c]> (children n)) n)
           (store c child t)).
Proof.
  intros Ha Hc Hci b m Hb. simpl.
  destruct (decide (a = b)) as [<- | Hne].
  - rewrite lookup_insert_eq. eexists. split; [done |]. simplify_eq.
    split_and!; try done.
    intros i x Hix. simpl. rewrite list_lookup_insert_ne; [done |]. congruence.
  - rewrite lookup_insert_ne by done.
    rewrite lookup_insert_ne by congruence. exists m. by split_and!.
Qed.

Lemma fresh_not_allocated (t : Octree) : heap t !! fresh (dom (heap t)) = None.
Proof. apply not_elem_of_dom. apply is_fresh. Qed.

(** ** Lookup after insertion *)

Lemma samePoint_refl p : samePoint p p = true.
Proof. unfold samePoint. by rewrite !Qeq_bool_refl. Qed.

Lemma leafHolds_iff p l : leafHolds p l = true ↔ ∃ q, q ∈ l ∧ samePoint p q = true.
Proof.
  unfold leafHolds. rewrite existsb_exists.
  split; intros (q & Hq & ?); exists q; split; try done;
    by apply list_elem_of_In.
Qed.

(** One step of [index] through a node that is not a leaf. *)
Lemma index_step fuel p a n c t :
  heap t !! a = Some n → isLeaf n = false →
  isPointInBound p (node_origin n) (node_size n) = true →
  children n !! childIndex p (node_origin n) (node_size n) = Some (Some c) →
  index (S fuel) p (Some a) t = index fuel p (Some c) t.
Proof.
  intros Ha Hl Hb Hc. simpl. rewrite Ha. simpl. rewrite Hl, Hb.
  unfold at_index. rewrite Hc. done.
Qed.

(** What [insertPointRecurse] does on a node of a well-formed tree, given
    fuel for the levels below it: it throws or returns; either way the tree is
    well formed and has only grown; when it returns, the point was within the
    node's bounds and [index] from that node finds a leaf that holds it. *)
Lemma insertPointRecurse_spec fuel : ∀ t a n p,
  wf t → heap t !! a = Some n →
  (Z.to_nat (maxDepth t - depth n) < fuel)%nat →
  ∃ t', wf t' ∧ ext t t'
        ∧ rootNode t' = rootNode t ∧ maxDepth t' = maxDepth t
        ∧ tree_origin t' = tree_origin t ∧ tree_size t' = tree_size t
        ∧ (insertPointRecurse fuel (Some a) p t = Throw t'
           ∨ (insertPointRecurse fuel (Some a) p t = Done (tt, t')
              ∧ isPointInBound p (node_origin n) (node_size n) = true
              ∧ ∃ leaf l, index fuel p (Some a) t' = Done (Some leaf)
                          ∧ heap t' !! leaf = Some l ∧ isLeaf l = true
                          ∧ p ∈ pointList l)).
Proof.
  induction fuel as [| fuel IH]; intros t a n p Hwf Ha Hfuel; [lia |].
  pose proof (wf_node _ Hwf _ _ Ha) as Hok.
  cbn [insertPointRecurse deref]. rewrite Ha. cbn [mbind outcome_bind].
  destruct (isPointInBound p (node_origin n) (node_size n)) eqn:Hbound;
    cbn [negb].
  2: { exists t. split_and!; try done; [apply ext_refl | by left]. }
  destruct (depth n =? maxDepth t) eqn:Hd.
  { apply Z.eqb_eq in Hd.
    exists (store a (set_pointList (pointList n ++ [p]) (set_isLeaf true n)) t).
    split_and!; [| | reflexivity .. | right; split_and!; try done].
    - eapply wf_store_payload; eauto.
    - eapply ext_store_payload; eauto.
      intros q Hq. simpl. apply elem_of_app. by left.
    - exists a. eexists. cbn [index deref store heap set_heap].
      rewrite lookup_insert_eq. cbn [mbind outcome_bind isLeaf set_pointList set_isLeaf pointList].
      assert (leafHolds p (pointList n ++ [p]) = true) as ->.
      { apply leafHolds_iff. exists p. split; [| apply samePoint_refl].
        apply elem_of_app. right. by apply list_elem_of_singleton. }
      split_and!; try done. apply elem_of_app. right.
      by apply list_elem_of_singleton. }
  apply Z.eqb_neq in Hd.
  pose proof (ok_depth _ _ _ Hok) as Hdep.
  set (ci := childIndex p (node_origin n) (node_size n)) in *.
  assert (ci < length (children n))%nat as Hci.
  { rewrite (ok_slots _ _ _ Hok). apply childIndex_lt. }
  destruct (lookup_lt_is_Some_2 _ _ Hci) as [slot Hslot].
  unfold at_index. rewrite Hslot. cbn [mbind outcome_bind].
  (* what remains once the call on the child [c] in the tree [t1] is known *)
  assert (Hrest : ∀ t1 c mc,
            wf t1 → ext t t1 → heap t1 !! c = Some mc →
            depth mc = depth n + 1 →
            rootNode t1 = rootNode t → maxDepth t1 = maxDepth t →
            tree_origin t1 = tree_origin t → tree_size t1 = tree_size t →
            (∃ n1, heap t1 !! a = Some n1 ∧ children n1 !! ci = Some (Some c)) →
            ∃ t', wf t' ∧ ext t t'
                  ∧ rootNode t' = rootNode t ∧ maxDepth t' = maxDepth t
                  ∧ tree_origin t' = tree_origin t ∧ tree_size t' = tree_size t
                  ∧ (insertPointRecurse fuel (Some c) p t1 = Throw t'
                     ∨ (insertPointRecurse fuel (Some c) p t1 = Done (tt, t')
                        ∧ true = true
                        ∧ ∃ leaf l, index (S fuel) p (Some a) t' = Done (Some leaf)
                                    ∧ heap t' !! leaf = Some l ∧ isLeaf l = true
                                    ∧ p ∈ pointList l))).
  { intros t1 c mc Hwf1 Hext1 Hc Hdc Hr1 Hm1 Ho1 Hs1 (n1 & Hn1 & Hn1c).
    destruct (IH t1 c mc p Hwf1 Hc) as (t' & Hwf' & Hext' & ? & ? & ? & ? & Hres).
    { rewrite Hm1, Hdc. lia. }
    exists t'. split_and!; try congruence.
    { by eapply ext_trans. }
    destruct Hres as [Hthrow | (Hdone & _ & leaf & l & Hidx & Hleaf & Hisl & Hin)];
      [by left | right].
    split_and!; try done. exists leaf, l. split_and!; try done.
    destruct (Hext' _ _ Hn1) as (n' & Hn' & _ & Ho' & Hs' & Hc' & _ & _).
    destruct (Hext1 _ _ Ha) as (n1' & Hn1' & _ & Ho1' & Hs1' & _).
    simplify_eq.
    rewrite <- Hidx. eapply index_step; eauto.
    - eapply parent_not_leaf; eauto.
    - by rewrite Ho', Hs', Ho1', Hs1'.
    - rewrite Ho', Hs', Ho1', Hs1'. by apply Hc'. }
  destruct slot as [c |].
  - destruct (ok_child _ _ _ Hok _ _ Hslot) as (mc & Hmc & _ & _ & Hdc).
    apply (Hrest t c mc); try done; [apply ext_refl | by eauto].
  - pose proof (fresh_not_allocated t) as Hfresh.
    set (c := fresh (dom (heap t))) in *.
    eapply (Hrest _ c); try done.
    + by apply wf_add_child.
    + by apply ext_add_child.
    + simpl. rewrite lookup_insert_ne by congruence. by rewrite lookup_insert_eq.
    + done.
    + eexists. simpl. rewrite lookup_insert_eq. split; [done |].
      simpl. by rewrite list_lookup_insert_eq.
Qed.

Lemma wf_new_root t :
  wf t → rootNode t = None →
  wf (set_rootNode (Some (fresh (dom (heap t))))
        (store (fresh (dom (heap t)))
           (newOctreeNode 0 (tree_size t) (tree_origin t) (-1)) t)).
Proof.
  intros Hwf Hr. pose proof (wf_empty _ Hwf Hr) as Hempty.
  pose proof (wf_maxDepth _ Hwf).
  set (a := fresh (dom (heap t))).
  split; simpl.
  - done.
  - done.
  - intros r [= <-]. eexists. rewrite lookup_insert_eq. by split_and!.
  - intros b m Hb. rewrite Hempty in Hb.
    destruct (decide (a = b)) as [<- | Hne].
    + rewrite lookup_insert_eq in Hb. simplify_eq. split.
      * reflexivity.
      * simpl. lia.
      * done.
      * intros i x Hix.
        change (replicate childNum (@None addr) !! i = Some (Some x)) in Hix.
        apply lookup_replicate in Hix. by destruct Hix.
      * done.
      * done.
    + rewrite lookup_insert_ne in Hb by done. by rewrite lookup_empty in Hb.
Qed.

(** What [insertPoint] on the root does on a well-formed tree. *)
Lemma insertPoint_spec t p :
  wf t →
  ∃ t', wf t' ∧ ext t t'
        ∧ maxDepth t' = maxDepth t
        ∧ tree_origin t' = tree_origin t ∧ tree_size t' = tree_size t
        ∧ (is_Some (rootNode t) → rootNode t' = rootNode t)
        ∧ (insertPoint RootRef p t = Throw t'
           ∨ (insertPoint RootRef p t = Done (tt, t')
              ∧ isPointInBound_tree p t' = true
              ∧ ∃ leaf l,
                  index (descentFuel t') p (rootNode t') t' = Done (Some leaf)
                  ∧ heap t' !! leaf = Some l ∧ isLeaf l = true
                  ∧ p ∈ pointList l)).
Proof.
  intros Hwf. unfold insertPoint. cbn [read_ref mbind outcome_bind].
  assert (Hfrom : ∀ t1 r, wf t1 → ext t t1 → rootNode t1 = Some r →
            maxDepth t1 = maxDepth t → tree_origin t1 = tree_origin t →
            tree_size t1 = tree_size t →
            ∃ t', wf t' ∧ ext t t'
              ∧ maxDepth t' = maxDepth t
              ∧ tree_origin t' = tree_origin t ∧ tree_size t' = tree_size t
              ∧ rootNode t' = Some r
              ∧ (insertPointRecurse (descentFuel t) (Some r) p t1 = Throw t'
                 ∨ (insertPointRecurse (descentFuel t) (Some r) p t1 = Done (tt, t')
                    ∧ isPointInBound_tree p t' = true
                    ∧ ∃ leaf l,
                        index (descentFuel t') p (rootNode t') t' = Done (Some leaf)
                        ∧ heap t' !! leaf = Some l ∧ isLeaf l = true
                        ∧ p ∈ pointList l))).
  { intros t1 r Hwf1 Hext1 Hr1 Hm1 Ho1 Hs1.
    destruct (wf_root _ Hwf1 _ Hr1) as (n & Hn & _ & Hd & Hon & Hsn).
    destruct (insertPointRecurse_spec (descentFuel t) t1 r n p Hwf1 Hn)
      as (t' & Hwf' & Hext' & Hr' & Hm' & Ho' & Hs' & Hres).
    { unfold descentFuel. rewrite Hm1, Hd. rewrite Z.sub_0_r. lia. }
    exists t'. split_and!; try congruence.
    { by eapply ext_trans. }
    destruct Hres as [? | (Hdone & Hb & leaf & l & Hidx & ?)]; [by left | right].
    split_and!; try done.
    - unfold isPointInBound_tree. by rewrite Ho', Hs', <- Hon, <- Hsn.
    - exists leaf, l. unfold descentFuel in *. by rewrite Hr', Hr1, Hm', Hm1. }
  destruct (rootNode t) as [r |] eqn:Hr.
  - destruct (Hfrom t r) as (t' & ? & ? & ? & ? & ? & ? & ?);
      [done | apply ext_refl | done .. |].
    exists t'. by split_and!.
  - cbn [write_ref mbind outcome_bind read_ref rootNode set_rootNode].
    edestruct Hfrom as (t' & ? & ? & ? & ? & ? & ? & ?);
      [by apply wf_new_root | | reflexivity .. |].
    + intros a n Ha. rewrite (wf_empty _ Hwf Hr) in Ha.
      by rewrite lookup_empty in Ha.
    + exists t'. split_and!; try done; by intros [? ?].
Qed.

(** ** Facts about [index] *)

(** A result of [index] is a leaf that holds the point. *)
Lemma index_result_leaf fuel : ∀ p x t a,
  index fuel p x t = Done (Some a) →
  ∃ n, heap t !! a = Some n ∧ isLeaf n = true
       ∧ leafHolds p (pointList n) = true.
Proof.
  induction fuel as [| fuel IH]; intros p x t a H; [done |].
  cbn [index] in H. destruct x as [x |]; [| done].
  cbn [deref] in H. destruct (heap t !! x) as [nx |] eqn:Hx; [| done].
  cbn [mbind outcome_bind] in H.
  destruct (isLeaf nx) eqn:Hl.
  - destruct (leafHolds p (pointList nx)) eqn:Hh; [| done].
    simplify_eq. by exists nx.
  - destruct (isPointInBound _ _ _); [| done].
    unfold at_index in H.
    destruct (children nx !! _) as [[c |] |]; try done.
    cbn [mbind outcome_bind] in H. eauto.
Qed.

(** On a well-formed tree [index] returns, given fuel for the levels below
    the start node. *)
Lemma index_defined fuel : ∀ p x nx t,
  wf t → heap t !! x = Some nx →
  (Z.to_nat (maxDepth t - depth nx) < fuel)%nat →
  ∃ r, index fuel p (Some x) t = Done r.
Proof.
  induction fuel as [| fuel IH]; intros p x nx t Hwf Hx Hfuel; [lia |].
  pose proof (wf_node _ Hwf _ _ Hx) as Hok.
  cbn [index deref]. rewrite Hx. cbn [mbind outcome_bind].
  destruct (isLeaf nx); [destruct (leafHolds _ _); eauto |].
  destruct (isPointInBound _ _ _); [| eauto].
  set (ci := childIndex p (node_origin nx) (node_size nx)).
  assert (ci < length (children nx))%nat as Hci.
  { rewrite (ok_slots _ _ _ Hok). apply childIndex_lt. }
  destruct (lookup_lt_is_Some_2 _ _ Hci) as [slot Hslot].
  unfold at_index. rewrite Hslot. cbn [mbind outcome_bind].
  destruct slot as [c |]; [| eauto].
  destruct (ok_child _ _ _ Hok _ _ Hslot) as (mc & Hmc & _ & _ & Hdc).
  pose proof (ok_depth _ _ _ (wf_node _ Hwf _ _ Hmc)).
  eapply IH; eauto. lia.
Qed.

(** Rewriting the [pointList] of the leaf that [index] returns. *)
Lemma index_after_erase fuel : ∀ p x t a n l,
  index fuel p x t = Done (Some a) → heap t !! a = Some n →
  index fuel p x (store a (set_pointList l n) t)
  = Done (if leafHolds p l then Some a else None).
Proof.
  induction fuel as [| fuel IH]; intros p x t a n l H Ha; [done |].
  cbn [index] in *. destruct x as [x |]; [| done].
  cbn [deref] in *. destruct (heap t !! x) as [nx |] eqn:Hx; [| done].
  cbn [mbind outcome_bind] in H. cbn [store heap set_heap].
  destruct (decide (a = x)) as [<- | Hne].
  - rewrite lookup_insert_eq. cbn [mbind outcome_bind].
    assert (nx = n) as -> by congruence.
    destruct (index_result_leaf (S fuel) p (Some a) t a) as (n' & Hn' & Hl & _).
    { cbn [index deref]. rewrite Ha. done. }
    assert (n' = n) as -> by congruence.
    cbn [isLeaf set_pointList pointList]. rewrite Hl.
    by destruct (leafHolds p l).
  - rewrite lookup_insert_ne by done. rewrite Hx. cbn [mbind outcome_bind].
    destruct (isLeaf nx) eqn:Hl.
    + destruct (leafHolds p (pointList nx)); simplify_eq.
    + destruct (isPointInBound _ _ _); [| done].
      unfold at_index in *.
      destruct (children nx !! _) as [[c |] |]; try done.
      cbn [mbind outcome_bind] in *. by apply IH.
Qed.

(** Clearing the slot of the leaf that [index] returns. *)
Lemma index_after_detach fuel : ∀ p x t t2 a n pa pn,
  wf t → heap t !! a = Some n → parent n = Some pa → heap t !! pa = Some pn →
  heap t2 !! pa
    = Some (set_children (<[Z.to_nat (parentIndex n) := None]> (children pn)) pn) →
  (∀ b, b ≠ a → b ≠ pa → heap t2 !! b = heap t !! b) →
  x ≠ a → index fuel p (Some x) t = Done (Some a) →
  index fuel p (Some x) t2 = Done None.
Proof.
  induction fuel as [| fuel IH];
    intros p x t t2 a n pa pn Hwf Ha Hpa Hpn Hpa2 Hframe Hxa H; [done |].
  cbn [index deref] in *. destruct (heap t !! x) as [nx |] eqn:Hx; [| done].
  cbn [mbind outcome_bind] in H.
  destruct (isLeaf nx) eqn:Hl.
  { destruct (leafHolds p (pointList nx)); simplify_eq. }
  destruct (isPointInBound p (node_origin nx) (node_size nx)) eqn:Hb; [| done].
  unfold at_index in *.
  destruct (children nx !! childIndex p (node_origin nx) (node_size nx))
    as [[c |] |] eqn:Hc; try done.
  cbn [mbind outcome_bind] in H.
  destruct (ok_child _ _ _ (wf_node _ Hwf _ _ Hx) _ _ Hc)
    as (mc & Hmc & Hmcp & Hmci & _).
  destruct (decide (x = pa)) as [-> | Hxpa].
  - rewrite Hpa2. cbn [mbind outcome_bind]. simplify_eq.
    cbn [isLeaf node_origin node_size set_children children].
    rewrite Hl, Hb.
    destruct (decide (c = a)) as [-> | Hca].
    + simplify_eq. rewrite Hmci, Nat2Z.id.
      rewrite list_lookup_insert_eq by (by eapply lookup_lt_Some). done.
    + rewrite list_lookup_insert_ne.
      * rewrite Hc. cbn [mbind outcome_bind].
        by apply (IH p c t t2 a n pa pn).
      * intros Heq.
        destruct (ok_parent _ _ _ (wf_node _ Hwf _ _ Ha) _ Hpa)
          as (pn0 & Hpn0 & _ & Hslot).
        simplify_eq. rewrite Heq in Hslot. congruence.
  - rewrite Hframe by done. rewrite Hx. cbn [mbind outcome_bind].
    rewrite Hl, Hb, Hc. cbn [mbind outcome_bind].
    apply (IH p c t t2 a n pa pn); try done. intros ->. simplify_eq.
Qed.

(** A leaf found by [index] is still found once the tree has grown. *)
Lemma index_monotone fuel : ∀ p x t t' leaf,
  wf t' → ext t t' →
  index fuel p x t = Done (Some leaf) →
  index fuel p x t' = Done (Some leaf).
Proof.
  induction fuel as [| fuel IH]; intros p x t t' leaf Hwf' Hext H; [done |].
  cbn [index] in *. destruct x as [x |]; [| done].
  cbn [deref] in *. destruct (heap t !! x) as [nx |] eqn:Hx; [| done].
  cbn [mbind outcome_bind] in H.
  destruct (Hext _ _ Hx) as (nx' & Hx' & _ & Ho & Hs & Hcs & Hps & Hlf).
  rewrite Hx'. cbn [mbind outcome_bind].
  destruct (isLeaf nx) eqn:Hl.
  - rewrite Hlf by done.
    destruct (leafHolds p (pointList nx)) eqn:Hh; [| done].
    apply leafHolds_iff in Hh as (q & Hq & Hsame).
    assert (leafHolds p (pointList nx') = true) as ->; [| done].
    apply leafHolds_iff. eauto.
  - rewrite Ho, Hs.
    destruct (isPointInBound _ _ _); [| done].
    unfold at_index in *.
    destruct (children nx !! _) as [[c |] |] eqn:Hc; try done.
    cbn [mbind outcome_bind] in H.
    rewrite (parent_not_leaf _ _ _ _ _ Hwf' Hx' (Hcs _ _ Hc)).
    rewrite (Hcs _ _ Hc). cbn [mbind outcome_bind]. eauto.
Qed.

(** The fuel given to the loop of [deletePoint] is enough: more changes
    nothing. *)
Lemma eraseLoop_fuel fuel : ∀ fuel' p l i,
  (length l - i ≤ fuel)%nat → (fuel ≤ fuel')%nat →
  eraseLoop fuel' p l i = eraseLoop fuel p l i.
Proof.
  induction fuel as [| fuel IH]; intros fuel' p l i Hlen Hle.
  - assert (l !! i = None) as Hnone by (apply lookup_ge_None; lia).
    destruct fuel'; cbn [eraseLoop]; [done |]. by rewrite Hnone.
  - destruct fuel' as [| fuel']; [lia |]. cbn [eraseLoop].
    destruct (l !! i) as [q |] eqn:Hq; [| done].
    pose proof (lookup_lt_Some _ _ _ Hq).
    destruct (samePoint p q); apply IH; try lia.
    rewrite length_delete by eauto. lia.
Qed.

Lemma erasePoints_fuel p l fuel :
  (length l ≤ fuel)%nat → eraseLoop fuel p l 0 = erasePoints p l.
Proof. intros H. unfold erasePoints. apply eraseLoop_fuel; lia. Qed.

(** ** Facts about deletion *)

(** Whatever [deletePointRecurse], called on a local pointer variable, returns
    is a well-formed tree. *)
Lemma deletePointRecurse_wf fuel : ∀ v t b t',
  wf t → deletePointRecurse fuel (LocalRef v) t = Done (b, t') → wf t'.
Proof.
  induction fuel as [| fuel IH]; intros v t b t' Hwf H; [done |].
  cbn [deletePointRecurse read_ref mbind outcome_bind] in H.
  destruct v as [a |]; [| by simplify_eq].
  cbn [deref] in H. destruct (heap t !! a) as [n |] eqn:Ha; [| done].
  cbn [mbind outcome_bind] in H.
  destruct (isLeaf n) eqn:Hl.
  - destruct (empty_list (pointList n)); cbn [negb] in H; [by simplify_eq |].
    destruct (parent n) as [pa |] eqn:Hpa; [| done].
    cbn [deref] in H. destruct (heap t !! pa) as [pn |] eqn:Hpn; [| done].
    cbn [mbind outcome_bind] in H.
    destruct (decide _); [| done].
    eapply IH; [| exact H]. eapply wf_detach; eauto.
    by apply (ok_leaf _ _ _ (wf_node _ Hwf _ _ Ha)).
  - destruct (noLiveChild (children n)); [| by simplify_eq].
    cbn [write_ref mbind outcome_bind] in H. eauto.
Qed.

(** Called on a local pointer to a node that is not a leaf,
    [deletePointRecurse] walks up the parents and returns the tree as it
    is. *)
Lemma deletePointRecurse_internal fuel : ∀ v t,
  wf t →
  (∀ a, v = Some a →
        ∃ n, heap t !! a = Some n ∧ isLeaf n = false
             ∧ (Z.to_nat (depth n) + 1 < fuel)%nat) →
  (1 ≤ fuel)%nat →
  ∃ b, deletePointRecurse fuel (LocalRef v) t = Done (b, t).
Proof.
  induction fuel as [| fuel IH]; intros v t Hwf Hv Hfuel; [lia |].
  cbn [deletePointRecurse read_ref mbind outcome_bind].
  destruct v as [a |]; [| by eauto].
  destruct (Hv a eq_refl) as (n & Ha & Hl & Hd).
  cbn [deref]. rewrite Ha. cbn [mbind outcome_bind]. rewrite Hl.
  destruct (noLiveChild (children n)); [| by eauto].
  cbn [write_ref mbind outcome_bind].
  apply IH; [done | | lia].
  intros pa Hpa.
  pose proof (wf_node _ Hwf _ _ Ha) as Hok.
  destruct (ok_parent _ _ _ Hok _ Hpa) as (pn & Hpn & _ & Hslot).
  exists pn. split_and!; [done | by eapply parent_not_leaf |].
  destruct (ok_child _ _ _ (wf_node _ Hwf _ _ Hpn) _ _ Hslot)
    as (n' & Hn' & _ & _ & Hdn).
  assert (n' = n) as -> by congruence.
  pose proof (ok_depth _ _ _ (wf_node _ Hwf _ _ Hpn)). lia.
Qed.

(** [deletePointRecurse] on a local pointer variable never writes
    [rootNode]. *)
Lemma deletePointRecurse_rootNode fuel : ∀ v t b t',
  deletePointRecurse fuel (LocalRef v) t = Done (b, t') →
  rootNode t' = rootNode t.
Proof.
  induction fuel as [| fuel IH]; intros v t b t' H; [done |].
  cbn [deletePointRecurse read_ref mbind outcome_bind] in H.
  destruct v as [a |]; [| by simplify_eq].
  cbn [deref] in H. destruct (heap t !! a) as [n |] eqn:Ha; [| done].
  cbn [mbind outcome_bind] in H.
  destruct (isLeaf n) eqn:Hl.
  - destruct (empty_list (pointList n)); cbn [negb] in H; [by simplify_eq |].
    destruct (parent n) as [pa |] eqn:Hpa; [| done].
    cbn [deref] in H. destruct (heap t !! pa) as [pn |] eqn:Hpn; [| done].
    cbn [mbind outcome_bind] in H.
    destruct (decide _); [| done].
    by apply IH in H.
  - destruct (noLiveChild (children n)); [| by simplify_eq].
    cbn [write_ref mbind outcome_bind] in H. eauto.
Qed.

(** [deletePoint] never writes [rootNode]: a tree that has a root keeps it. *)
Lemma deletePoint_rootNode p t b t' :
  deletePoint p t = Done (b, t') → rootNode t' = rootNode t.
Proof.
  unfold deletePoint. intros H.
  destruct (index _ p _ t) as [[a |] | | |]; cbn [mbind outcome_bind] in H;
    try done; [| by simplify_eq].
  cbn [deref] in H. destruct (heap t !! a); [| done].
  cbn [mbind outcome_bind] in H.
  by apply deletePointRecurse_rootNode in H.
Qed.

Lemma deletePoint_wf p t b t' :
  wf t → deletePoint p t = Done (b, t') → wf t'.
Proof.
  unfold deletePoint. intros Hwf H.
  destruct (index _ p _ t) as [[a |] | | |]; cbn [mbind outcome_bind] in H;
    try done; [| by simplify_eq].
  cbn [deref] in H. destruct (heap t !! a) as [n |] eqn:Ha; [| done].
  cbn [mbind outcome_bind] in H.
  eapply deletePointRecurse_wf; [| exact H].
  eapply wf_store_payload; eauto.
  apply (ok_leaf _ _ _ (wf_node _ Hwf _ _ Ha)).
Qed.

(** On a well-formed tree of depth at least 1, [deletePoint] returns, and
    [index] from the root does not find the point in the tree it leaves. *)
Lemma deletePoint_total p t :
  wf t → 0 < maxDepth t →
  ∃ b t', deletePoint p t = Done (b, t')
          ∧ index (descentFuel t) p (rootNode t) t' = Done None
          ∧ rootNode t' = rootNode t ∧ maxDepth t' = maxDepth t
          ∧ tree_origin t' = tree_origin t ∧ tree_size t' = tree_size t.
Proof.
  intros Hwf Hmd. unfold deletePoint.
  assert (∃ r, index (descentFuel t) p (rootNode t) t = Done r) as [r Hidx].
  { destruct (rootNode t) as [root |] eqn:Hroot.
    - destruct (wf_root _ Hwf _ Hroot) as (nr & Hnr & _ & Hd0 & _).
      eapply index_defined; eauto. unfold descentFuel. rewrite Hd0. lia.
    - by exists None. }
  rewrite Hidx. cbn [mbind outcome_bind].
  destruct r as [a |]; [| by exists false, t].
  destruct (index_result_leaf _ _ _ _ _ Hidx) as (n & Ha & Hl & _).
  cbn [deref]. rewrite Ha. cbn [mbind outcome_bind].
  set (l := erasePoints p (pointList n)).
  set (n1 := set_pointList l n).
  set (t1 := store a n1 t).
  pose proof (wf_node _ Hwf _ _ Ha) as Hok.
  pose proof (ok_leaf _ _ _ Hok Hl) as Hdep.
  assert (wf t1) as Hwf1.
  { eapply wf_store_payload; eauto. }
  assert (heap t1 !! a = Some n1) as Ha1.
  { unfold t1. simpl. by rewrite lookup_insert_eq. }
  unfold ascentFuel.
  remember (S (Z.to_nat (maxDepth t))) as k eqn:Hk.
  cbn [deletePointRecurse read_ref mbind outcome_bind deref].
  rewrite Ha1. cbn [mbind outcome_bind].
  change (isLeaf n1) with (isLeaf n). rewrite Hl.
  change (pointList n1) with l.
  destruct l as [| q l'] eqn:Hlist; cbn [empty_list negb].
  { (* the list is empty: the leaf stays *)
    exists true, t1. split_and!; try done.
    unfold t1, n1. erewrite index_after_erase; eauto. }
  (* the list is not empty: the leaf is detached and freed *)
  change (parent n1) with (parent n). change (parentIndex n1) with (parentIndex n).
  destruct (parent n) as [pa |] eqn:Hpa.
  2: { exfalso. pose proof (ok_orphan _ _ _ Hok Hpa) as Hroot.
       destruct (wf_root _ Hwf _ Hroot) as (nr & Hnr & _ & Hd0 & _).
       assert (nr = n) as -> by congruence. lia. }
  destruct (ok_parent _ _ _ (wf_node _ Hwf1 _ _ Ha1) pa Hpa)
    as (pn1 & Hpn1 & Hidx0 & Hslot1).
  change (parentIndex n1) with (parentIndex n) in *.
  cbn [deref]. rewrite Hpn1. cbn [mbind outcome_bind].
  pose proof (lookup_lt_Some _ _ _ Hslot1) as Hlt.
  destruct (decide (0 ≤ parentIndex n < Z.of_nat (length (children pn1))))
    as [_ | Hno]; [| lia].
  assert (a ≠ pa) as Hapa.
  { intros <-. assert (pn1 = n1) as -> by congruence.
    eapply (deepest_no_child t1 a n1); eauto. }
  assert (heap t !! pa = Some pn1) as Hpn.
  { unfold t1 in Hpn1. simpl in Hpn1. by rewrite lookup_insert_ne in Hpn1. }
  match goal with |- context [deletePointRecurse _ _ ?u] => set (t2 := u) end.
  assert (wf t2) as Hwf2.
  { unfold t2. apply (wf_detach t1 a n1 pa pn1); auto. }
  destruct (deletePointRecurse_internal k (Some pa) t2)
    as [b Hdel]; [done | | lia |].
  { intros ? [= <-]. eexists. split_and!.
    - unfold t2. simpl. rewrite lookup_delete_ne by done.
      by rewrite lookup_insert_eq.
    - simpl. by eapply (parent_not_leaf t1).
    - simpl.
      destruct (ok_child _ _ _ (wf_node _ Hwf1 _ _ Hpn1) _ _ Hslot1)
        as (n' & Hn' & _ & _ & Hdn).
      assert (n' = n1) as -> by congruence.
      change (depth n1) with (depth n) in Hdn.
      pose proof (ok_depth _ _ _ (wf_node _ Hwf _ _ Hpn)). lia. }
  exists b, t2. split_and!; try done.
  destruct (rootNode t) as [root |] eqn:Hroot; [| done].
  eapply (index_after_detach _ p root t t2 a n pa pn1); eauto.
  - unfold t2. simpl. rewrite lookup_delete_ne by done.
    by rewrite lookup_insert_eq.
  - intros b' Hb'a Hb'pa. unfold t2. simpl.
    rewrite lookup_delete_ne by done.
    rewrite lookup_insert_ne by done. by rewrite lookup_insert_ne.
  - intros ->. destruct (wf_root _ Hwf _ Hroot) as (nr & Hnr & Hnone & _).
    congruence.
Qed.

(** ** Trees built by insertions and deletions *)

(** The tree [insertPoint] leaves, by return or by throw. *)
Lemma insertPoint_result t p t' :
  wf t →
  insertPoint RootRef p t = Done (tt, t') ∨ insertPoint RootRef p t = Throw t' →
  wf t' ∧ ext t t' ∧ maxDepth t' = maxDepth t
  ∧ tree_origin t' = tree_origin t ∧ tree_size t' = tree_size t
  ∧ (is_Some (rootNode t) → rootNode t' = rootNode t).
Proof.
  intros Hwf H.
  destruct (insertPoint_spec t p Hwf) as (t'' & ? & ? & ? & ? & ? & ? & Hres).
  assert (t'' = t') as ->; [| done].
  destruct H, Hres as [? | [? _]]; congruence.
Qed.

Lemma built_wf t : built t → wf t.
Proof.
  induction 1 as [md s o Hmd | t p t' _ IH H | t p t' _ IH H | t p b t' _ IH H].
  - by apply wf_newOctree.
  - by apply (insertPoint_result t p t' IH); left.
  - by apply (insertPoint_result t p t' IH); right.
  - by eapply deletePoint_wf.
Qed.

Lemma grown_spec t t' :
  wf t → grown t t' →
  wf t' ∧ ext t t' ∧ maxDepth t' = maxDepth t
  ∧ tree_origin t' = tree_origin t ∧ tree_size t' = tree_size t
  ∧ (is_Some (rootNode t) → rootNode t' = rootNode t).
Proof.
  intros Hwf. induction 1 as [t | t t1 q t2 _ IH H | t t1 q t2 _ IH H].
  { split_and!; try done. apply ext_refl. }
  all: destruct (IH Hwf) as (Hwf1 & Hext & ? & ? & ? & Hroot).
  all: destruct (insertPoint_result t1 q t2 Hwf1) as (? & ? & ? & ? & ? & Hroot');
    [by auto |].
  all: split_and!; try congruence; [by eapply ext_trans |].
  all: intros Hsome; rewrite Hroot', Hroot; [done .. |]; by rewrite Hroot.
Qed.

(** The trees that [convertFromPointCloud] makes of an empty tree are among
    the built ones. *)
Lemma insertEach_built pointCloud : ∀ t r,
  built t → insertEach pointCloud t = Done r → built (snd r).
Proof.
  induction pointCloud as [| p rest IH]; intros t r Hb H.
  - simpl in H. by simplify_eq.
  - cbn [insertEach] in H.
    destruct (insertPoint RootRef p t) as [[[] t1] | | |] eqn:Hins; try done.
    cbn [mbind outcome_bind] in H. eapply IH; [| exact H].
    by eapply built_insert.
Qed.

Lemma convertFromPointCloud_built md pointCloud b t :
  0 ≤ md →
  convertFromPointCloud pointCloud (newOctreeDepth md) = Done (b, t) → built t.
Proof.
  intros Hmd H. unfold convertFromPointCloud in H.
  destruct (findCenterInPointCloud pointCloud) as [center | | |]; try done.
  cbn [mbind outcome_bind] in H.
  destruct (insertEach pointCloud _) as [r | | |] eqn:Hr; try done.
  cbn [mbind outcome_bind] in H. simplify_eq.
  eapply insertEach_built; [| exact Hr].
  by apply (built_new md).
Qed.

(** C9. After [insertPoint] has returned for a point, and after any further
    calls of [insertPoint], [index] on that point (from the root, with or
    without the test against the tree's bounds) returns a leaf whose
    [pointList] holds the point. *)
Theorem index_finds_inserted_point (t t1 t2 : Octree) (p : Point3f) :
  built t → insertPoint RootRef p t = Done (tt, t1) → grown t1 t2 →
  ∃ leaf n,
    index_tree p t2 = Done (Some leaf)
    ∧ index (descentFuel t2) p (rootNode t2) t2 = Done (Some leaf)
    ∧ heap t2 !! leaf = Some n ∧ isLeaf n = true
    ∧ p ∈ pointList n ∧ leafHolds p (pointList n) = true.
Proof.
  intros Hb Hins Hgrown. apply built_wf in Hb.
  destruct (insertPoint_spec t p Hb) as (t' & Hwf1 & _ & _ & _ & _ & _ & Hres).
  destruct Hres as [? | (Hdone & Hbound & leaf & l & Hidx & Hleaf & Hisl & Hin)];
    [congruence |].
  assert (t' = t1) as -> by congruence.
  destruct (grown_spec _ _ Hwf1 Hgrown) as (Hwf2 & Hext & Hmd & Ho & Hs & Hroot).
  assert (is_Some (rootNode t1)) as Hsome.
  { destruct (rootNode t1); [by eauto | done]. }
  destruct (Hext _ _ Hleaf) as (n & Hn & _ & _ & _ & _ & Hpts & Hlf).
  exists leaf, n.
  assert (index (descentFuel t2) p (rootNode t2) t2 = Done (Some leaf)) as Hidx2.
  { unfold descentFuel in *. rewrite Hmd, Hroot by done.
    by eapply index_monotone. }
  split_and!; auto.
  - unfold index_tree, isPointInBound_tree in *. by rewrite Ho, Hs, Hbound.
  - apply leafHolds_iff. exists p. split; [auto | apply samePoint_refl].
Qed.

Lemma index_finds_inserted_point_witness :
  let t := newOctree 1 2 origin0 in
  let t1 := inserted pHalf t in
  let t2 := inserted pFar t1 in
  ∃ leaf n,
    index_tree pHalf t2 = Done (Some leaf)
    ∧ index (descentFuel t2) pHalf (rootNode t2) t2 = Done (Some leaf)
    ∧ heap t2 !! leaf = Some n ∧ isLeaf n = true
    ∧ pHalf ∈ pointList n ∧ leafHolds pHalf (pointList n) = true.
Proof.
  intros t t1 t2.
  apply (index_finds_inserted_point t t1 t2 pHalf).
  - apply built_new. lia.
  - vm_compute. reflexivity.
  - apply (grown_insert t1 t1 pFar t2); [apply grown_refl |].
    vm_compute. reflexivity.
Defined.

(** When [deletePoint] returns on a well-formed tree, [index] from the root
    does not find the point in the tree it leaves. *)
Lemma deletePoint_index p t b t' :
  wf t → deletePoint p t = Done (b, t') →
  index (descentFuel t') p (rootNode t') t' = Done None.
Proof.
  intros Hwf Hdel.
  destruct (decide (0 < maxDepth t)) as [Hmd | Hmd].
  { destruct (deletePoint_total p t Hwf Hmd)
      as (b0 & t0 & Hdel0 & Hidx & Hroot & Hmd' & _).
    assert (t0 = t') as -> by congruence.
    unfold descentFuel in *. by rewrite Hroot, Hmd'. }
  (* depth 0: the root is the only node *)
  pose proof (wf_maxDepth _ Hwf) as Hmd0.
  unfold deletePoint in Hdel.
  destruct (index _ p _ t) as [[a |] | | |] eqn:Hidx;
    cbn [mbind outcome_bind] in Hdel; try done.
  2: { by simplify_eq. }
  destruct (index_result_leaf _ _ _ _ _ Hidx) as (n & Ha & Hl & _).
  cbn [deref] in Hdel. rewrite Ha in Hdel. cbn [mbind outcome_bind] in Hdel.
  unfold ascentFuel in Hdel.
  remember (S (Z.to_nat (maxDepth t))) as k eqn:Hk.
  cbn [deletePointRecurse read_ref mbind outcome_bind deref store heap set_heap]
    in Hdel.
  rewrite lookup_insert_eq in Hdel.
  cbn [mbind outcome_bind isLeaf set_pointList pointList parent] in Hdel.
  rewrite Hl in Hdel.
  destruct (erasePoints p (pointList n)) as [| q l] eqn:Hlist;
    cbn [empty_list negb] in Hdel.
  - simplify_eq. cbn [rootNode store set_heap].
    change (descentFuel (store a (set_pointList [] n) t)) with (descentFuel t).
    erewrite index_after_erase; eauto.
  - exfalso. destruct (parent n) as [pa |] eqn:Hpa; [| done].
    pose proof (wf_node _ Hwf _ _ Ha) as Hok.
    destruct (ok_parent _ _ _ Hok _ Hpa) as (pn & Hpn & _ & Hslot).
    destruct (ok_child _ _ _ (wf_node _ Hwf _ _ Hpn) _ _ Hslot)
      as (n' & Hn' & _ & _ & Hdn).
    assert (n' = n) as -> by congruence.
    pose proof (ok_depth _ _ _ (wf_node _ Hwf _ _ Hpn)).
    pose proof (ok_depth _ _ _ Hok). lia.
Qed.

(** C4. On a tree built by insertions and deletions, whenever [deletePoint]
    returns, [index] on the deleted point (from the root, with or without the
    test against the tree's bounds) returns null in the tree it leaves; and
    [deletePoint] does return when the tree's depth is at least 1. *)
Theorem index_after_deletePoint (t : Octree) (p : Point3f) :
  built t →
  (∀ b t', deletePoint p t = Done (b, t') →
           index_tree p t' = Done None
           ∧ index (descentFuel t') p (rootNode t') t' = Done None)
  ∧ (0 < maxDepth t → ∃ b t', deletePoint p t = Done (b, t')).
Proof.
  intros Hb. apply built_wf in Hb. split.
  - intros b t' Hdel.
    pose proof (deletePoint_index p t b t' Hb Hdel) as Hidx.
    split; [| done].
    unfold index_tree. by destruct (isPointInBound_tree p t').
  - intros Hmd.
    destruct (deletePoint_total p t Hb Hmd) as (b & t' & Hdel & _).
    by exists b, t'.
Qed.

Lemma index_after_deletePoint_witness :
  let t := inserted pHalf (inserted pHalf (newOctree 1 2 origin0)) in
  (∀ b t', deletePoint pHalf t = Done (b, t') →
           index_tree pHalf t' = Done None
           ∧ index (descentFuel t') pHalf (rootNode t') t' = Done None)
  ∧ (0 < maxDepth t → ∃ b t', deletePoint pHalf t = Done (b, t')).
Proof.
  intros t. apply (index_after_deletePoint t pHalf).
  apply (built_insert (inserted pHalf (newOctree 1 2 origin0)) pHalf).
  - apply (built_insert (newOctree 1 2 origin0) pHalf).
    + apply built_new. lia.
    + vm_compute. reflexivity.
  - vm_compute. reflexivity.
Defined.

(** At depth 0 the root is the leaf: when points are left in it after the
    loop of [deletePoint], [deletePointRecurse] goes through its null
    [parent]. *)
Remark deletePoint_root_leaf_undefined :
  deletePoint pHalf (inserted pQuarter (inserted pHalf (newOctree 0 2 origin0)))
  = Undefined.
Proof. vm_compute. reflexivity. Qed.

(** ** Facts about the traversals *)

Lemma forChildren_elem body cs (P : option addr → addr → Prop) : ∀ w,
  forChildren body cs = Done w →
  (∀ c v, c ∈ cs → body c = Done v → ∀ m, m ∈ v ↔ P c m) →
  ∀ m, m ∈ w ↔ ∃ c, c ∈ cs ∧ P c m.
Proof.
  induction cs as [| c cs IH]; intros w H Hbody m.
  - simpl in H. simplify_eq. split.
    + by intros ?%elem_of_nil.
    + by intros (c & ?%elem_of_nil & _).
  - cbn [forChildren] in H.
    destruct (body c) as [v | | |] eqn:Hc; try done.
    cbn [mbind outcome_bind] in H.
    destruct (forChildren body cs) as [w' | | |] eqn:Hcs; try done.
    cbn [mbind outcome_bind] in H. simplify_eq.
    rewrite elem_of_app.
    rewrite (Hbody c v (list_elem_of_here _ _) Hc m).
    rewrite (IH w' eq_refl); [| by intros c' v' Hin; apply Hbody; right].
    split.
    + intros [? | (c' & ? & ?)]; [exists c | exists c'];
        split; try done; [left | by right].
    + intros (c' & [-> | ?]%elem_of_cons & ?); [by left | right; eauto].
Qed.

Lemma forChildren_total body cs :
  (∀ c, c ∈ cs → ∃ v, body c = Done v) → ∃ w, forChildren body cs = Done w.
Proof.
  induction cs as [| c cs IH]; intros Hbody; [by exists [] |].
  destruct (Hbody c) as [v Hv]; [left |].
  destruct IH as [w Hw]; [by intros c' ?; apply Hbody; right |].
  cbn [forChildren]. rewrite Hv. cbn [mbind outcome_bind]. rewrite Hw.
  by eexists.
Qed.

Section Traversal.
Context (f : addr → OctreeNode → bool) (t : Octree).

Lemma below_start g a m :
  below g t a m ↔
  ∃ n, heap t !! a = Some n
       ∧ (m = a ∨ (g a n = true
                   ∧ ∃ c, Some c ∈ children n ∧ below g t c m)).
Proof.
  split.
  - intros H. destruct H as [a n Ha | a n i c m Ha Hf Hc Hb].
    + exists n. split; [done | by left].
    + exists n. split; [done | right]. split; [done |]. exists c.
      split; [| done]. apply list_elem_of_lookup. eauto.
  - intros (n & Ha & [-> | (Hf & c & Hc & Hb)]).
    + by eapply below_here.
    + apply list_elem_of_lookup in Hc as [i Hi]. by eapply below_child.
Qed.

Lemma below_some g a m :
  (∃ a', Some a = Some a' ∧ below g t a' m) ↔ below g t a m.
Proof. split; [by intros (? & [= <-] & ?) | by eauto]. Qed.

(** The nodes on which the depth-first traversal calls [f]. *)
Lemma traverseRecurseDFS_visits fuel : ∀ x v,
  traverseRecurseDFS fuel f x t = Done v →
  ∀ m, m ∈ v ↔ ∃ a, x = Some a ∧ below f t a m.
Proof.
  induction fuel as [| fuel IH]; intros x v H m; [done |].
  cbn [traverseRecurseDFS] in H. destruct x as [a |].
  2: { simplify_eq. split; [by intros ?%elem_of_nil | by intros (? & ? & _)]. }
  cbn [deref] in H. destruct (heap t !! a) as [n |] eqn:Ha; [| done].
  cbn [mbind outcome_bind] in H.
  rewrite below_some, below_start, Ha.
  destruct (f a n) eqn:Hf; cbn [negb] in H.
  - destruct (forChildren _ (children n)) as [w | | |] eqn:Hw; try done.
    cbn [mbind outcome_bind] in H. simplify_eq.
    rewrite elem_of_cons.
    rewrite (forChildren_elem _ _ (λ c m, ∃ a', c = Some a' ∧ below f t a' m)
               w Hw); [| by intros c v _ Hv m'; apply (IH c v Hv)].
    split.
    + intros [-> | (c & Hc & a' & -> & Hb)]; exists n; split; try done;
        [by left | right]. split; [done |]. eauto.
    + intros (n' & [= <-] & [-> | (_ & c & Hc & Hb)]); [by left | right].
      exists (Some c). eauto.
  - simplify_eq. rewrite list_elem_of_singleton. split.
    + intros ->. exists n. split; [done | by left].
    + intros (n' & [= <-] & [-> | (Hf' & _)]); [done | congruence].
Qed.

(** The nodes on which the other traversal calls [f]: all the nodes under
    the start node, whatever [f] answers. *)
Lemma traverseRecurseBFS_visits fuel : ∀ x v,
  traverseRecurseBFS fuel f x t = Done v →
  ∀ m, m ∈ v ↔ ∃ a, x = Some a ∧ below (λ _ _, true) t a m.
Proof.
  induction fuel as [| fuel IH]; intros x v H m; [done |].
  cbn [traverseRecurseBFS] in H. destruct x as [a |].
  2: { simplify_eq. split; [by intros ?%elem_of_nil | by intros (? & ? & _)]. }
  cbn [deref] in H. destruct (heap t !! a) as [n |] eqn:Ha; [| done].
  cbn [mbind outcome_bind] in H.
  rewrite below_some, below_start, Ha.
  destruct (forChildren _ (children n)) as [w | | |] eqn:Hw; try done.
  cbn [mbind outcome_bind] in H.
  assert (v = w ++ [a]) as -> by (destruct (negb (f a n)); congruence).
  rewrite elem_of_app, list_elem_of_singleton.
  rewrite (forChildren_elem _ _ (λ c m, ∃ a', c = Some a' ∧ below (λ _ _, true) t a' m) w Hw);
    [| by intros c v _ Hv m'; apply (IH c v Hv)].
  split.
  - intros [(c & Hc & a' & -> & Hb) | ->]; exists n; split; try done;
      [right | by left]. split; [done |]. eauto.
  - intros (n' & [= <-] & [-> | (_ & c & Hc & Hb)]); [by right | left].
    exists (Some c). eauto.
Qed.

Hypothesis Hwf : wf t.

(** Both traversals return on a well-formed tree, given fuel for the levels
    below the start node and for its null children. *)
Lemma traversals_defined fuel : ∀ a n,
  heap t !! a = Some n →
  (Z.to_nat (maxDepth t - depth n) + 1 < fuel)%nat →
  (∃ v, traverseRecurseDFS fuel f (Some a) t = Done v)
  ∧ (∃ v, traverseRecurseBFS fuel f (Some a) t = Done v).
Proof.
  induction fuel as [| fuel IH]; intros a n Ha Hfuel; [lia |].
  pose proof (wf_node _ Hwf _ _ Ha) as Hok.
  assert (Hkids : ∀ c, c ∈ children n →
            (∃ v, traverseRecurseDFS fuel f c t = Done v)
            ∧ (∃ v, traverseRecurseBFS fuel f c t = Done v)).
  { intros [c |] Hc.
    - apply list_elem_of_lookup in Hc as [i Hi].
      destruct (ok_child _ _ _ Hok _ _ Hi) as (mc & Hmc & _ & _ & Hdc).
      pose proof (ok_depth _ _ _ (wf_node _ Hwf _ _ Hmc)).
      eapply IH; eauto. lia.
    - destruct fuel; [lia |]. split; by exists []. }
  cbn [traverseRecurseDFS traverseRecurseBFS deref]. rewrite Ha.
  cbn [mbind outcome_bind].
  destruct (forChildren_total (λ c, traverseRecurseDFS fuel f c t) (children n))
    as [wd Hwd]; [by intros c Hc; apply Hkids |].
  destruct (forChildren_total (λ c, traverseRecurseBFS fuel f c t) (children n))
    as [wb Hwb]; [by intros c Hc; apply Hkids |].
  rewrite Hwd, Hwb. cbn [mbind outcome_bind].
  split; [destruct (negb (f a n)) | destruct (negb (f a n))]; by eexists.
Qed.
End Traversal.

(** C7, amended.  From any node of a tree built by insertions and deletions,
    both traversals return.  The depth-first one calls the predicate on the
    start node and on the nodes under it all of whose ancestors up to the
    start node passed the predicate, and on no other node: a false answer
    closes the subtree of that node only.  The other one calls the predicate
    on every node under the start node, whatever the predicate answers. *)
Theorem traversal_visits (t : Octree) (f : addr → OctreeNode → bool) (start : addr) :
  built t → is_Some (heap t !! start) →
  ∃ vd vb,
    traverseRecurseDFS (traversalFuel t) f (Some start) t = Done vd
    ∧ traverseRecurseBFS (traversalFuel t) f (Some start) t = Done vb
    ∧ (∀ m, m ∈ vd ↔ below f t start m)
    ∧ (∀ m, m ∈ vb ↔ below (λ _ _, true) t start m).
Proof.
  intros Hb [n Hn]. apply built_wf in Hb.
  destruct (traversals_defined f t Hb (traversalFuel t) start n Hn)
    as [[vd Hvd] [vb Hvb]].
  { pose proof (ok_depth _ _ _ (wf_node _ Hb _ _ Hn)).
    unfold traversalFuel. lia. }
  exists vd, vb. split_and!; try done.
  - intros m. rewrite (traverseRecurseDFS_visits _ _ _ _ _ Hvd m).
    apply below_some.
  - intros m. rewrite (traverseRecurseBFS_visits _ _ _ _ _ Hvb m).
    apply below_some.
Qed.

Lemma traversal_visits_witness :
  let t := inserted pFar (inserted pEighth (newOctree 1 2 origin0)) in
  ∃ vd vb,
    traverseRecurseDFS (traversalFuel t) notSecond (Some 1%positive) t = Done vd
    ∧ traverseRecurseBFS (traversalFuel t) notSecond (Some 1%positive) t = Done vb
    ∧ (∀ m, m ∈ vd ↔ below notSecond t 1%positive m)
    ∧ (∀ m, m ∈ vb ↔ below (λ _ _, true) t 1%positive m).
Proof.
  intros t. apply (traversal_visits t notSecond 1%positive).
  - apply (built_insert (inserted pEighth (newOctree 1 2 origin0)) pFar).
    + apply (built_insert (newOctree 1 2 origin0) pEighth).
      * apply built_new. lia.
      * vm_compute. reflexivity.
    + vm_compute. reflexivity.
  - eexists. vm_compute. reflexivity.
Defined.

(** * Further properties of the code *)

(** ** The erasing loop of [deletePoint] *)

Lemma eraseLoop_skipping fuel : ∀ p pre rest,
  (length rest ≤ fuel)%nat →
  eraseLoop fuel p (pre ++ rest) (length pre) = pre ++ eraseSkipping p rest.
Proof.
  induction fuel as [| fuel IH]; intros p pre rest Hlen.
  - destruct rest; [| simpl in Hlen; lia]. done.
  - destruct rest as [| x r]; cbn [eraseLoop].
    + rewrite lookup_ge_None_2; [done |]. rewrite length_app. simpl. lia.
    + rewrite list_lookup_middle by done. cbn [eraseSkipping].
      simpl in Hlen.
      destruct (samePoint p x).
      * assert (delete (length pre) (pre ++ x :: r) = pre ++ r) as ->.
        { rewrite delete_middle. done. }
        destruct r as [| y r'].
        -- destruct fuel; cbn [eraseLoop]; [done |].
           rewrite lookup_ge_None_2; [done |]. rewrite length_app. simpl. lia.
        -- replace (S (length pre)) with (length (pre ++ [y]))
             by (rewrite length_app; simpl; lia).
           replace (pre ++ y :: r') with ((pre ++ [y]) ++ r')
             by (by rewrite <- app_assoc).
           rewrite IH by (simpl in Hlen; lia). by rewrite <- app_assoc.
      * replace (S (length pre)) with (length (pre ++ [x]))
          by (rewrite length_app; simpl; lia).
        replace (pre ++ x :: r) with ((pre ++ [x]) ++ r)
          by (by rewrite <- app_assoc).
        rewrite IH by lia. by rewrite <- app_assoc.
Qed.

Lemma erasePoints_skipping p l : erasePoints p l = eraseSkipping p l.
Proof. apply (eraseLoop_skipping (length l) p [] l). lia. Qed.

Lemma skipping_ind (point : Point3f) (P : list Point3f → Prop) :
  P [] →
  (∀ x, samePoint point x = true → P [x]) →
  (∀ x y r, samePoint point x = true → P r → P (x :: y :: r)) →
  (∀ x r, samePoint point x = false → P r → P (x :: r)) →
  ∀ l, P l.
Proof.
  intros H0 H1 Hyes Hno l.
  assert (∀ n l, (length l ≤ n)%nat → P l) as Hall; [| by eapply Hall].
  clear l. induction n as [| n IH]; intros l Hlen.
  - destruct l; [done | simpl in Hlen; lia].
  - destruct l as [| x r]; [done |]. simpl in Hlen.
    destruct (samePoint point x) eqn:Hx.
    + destruct r as [| y r']; [by apply H1 |].
      apply Hyes; [done |]. apply IH. simpl in Hlen. lia.
    + apply Hno; [done |]. apply IH. lia.
Qed.

Lemma erasePoints_sublists p l :
  erasePoints p l `sublist_of` l ∧ others p l `sublist_of` erasePoints p l.
Proof.
  rewrite erasePoints_skipping. unfold others.
  induction l as [| x Hx | x y r Hx [IH1 IH2] | x r Hx [IH1 IH2]]
    using (skipping_ind p); cbn [eraseSkipping List.filter].
  - done.
  - rewrite Hx. cbn [negb]. split; [by apply sublist_cons | done].
  - rewrite Hx. cbn [negb]. split.
    + apply sublist_cons. by apply sublist_skip.
    + destruct (samePoint p y); cbn [negb];
        [by apply sublist_cons | by apply sublist_skip].
  - rewrite Hx. cbn [negb]. split; by apply sublist_skip.
Qed.

(** X1. The loop of [deletePoint] only drops entries, and never one that
    differs from the point: what it leaves is a sublist of the list, and the
    entries that differ from the point are a sublist of what it leaves. *)
Theorem erasePoints_keeps_others (p : Point3f) (l : list Point3f) :
  erasePoints p l `sublist_of` l ∧ others p l `sublist_of` erasePoints p l.
Proof. apply erasePoints_sublists. Qed.

(** X2. When no two neighbours of the list are both equal to the point, the
    loop of [deletePoint] leaves exactly the entries that differ from the
    point. *)
Theorem erasePoints_no_adjacent (p : Point3f) (l : list Point3f) :
  noAdjacentMatch p l = true → erasePoints p l = others p l.
Proof.
  rewrite erasePoints_skipping. unfold others.
  induction l as [| x Hx | x y r Hx IH | x r Hx IH]
    using (skipping_ind p); cbn [eraseSkipping List.filter noAdjacentMatch].
  - done.
  - by rewrite Hx.
  - rewrite Hx. cbn [andb negb].
    destruct (samePoint p y) eqn:Hy; cbn [negb andb]; [done |].
    intros Hadj. f_equal. apply IH. by destruct r.
  - rewrite Hx. cbn [negb andb].
    intros Hadj. f_equal. apply IH. by destruct r.
Qed.

Lemma erasePoints_no_adjacent_witness :
  erasePoints pHalf [pHalf; pFar; pHalf; pEighth] = others pHalf [pHalf; pFar; pHalf; pEighth].
Proof. apply erasePoints_no_adjacent. vm_compute. reflexivity. Defined.

Lemma erasePoints_nil_iff p l :
  erasePoints p l = [] ↔ l = [] ∨ ∃ x, l = [x] ∧ samePoint p x = true.
Proof.
  rewrite erasePoints_skipping.
  destruct l as [| x [| y r]]; cbn [eraseSkipping].
  - split; [by left | done].
  - destruct (samePoint p x) eqn:Hx; split; try done.
    + intros _. right. by exists x.
    + intros [? | (x' & [= <-] & ?)]; congruence.
  - destruct (samePoint p x); split; try done;
      intros [? | (x' & ? & ?)]; done.
Qed.

(** X3. The loop of [deletePoint] leaves an empty list only when the list was
    empty or was a single entry equal to the point. *)
Theorem erasePoints_empty_iff (p : Point3f) (l : list Point3f) :
  erasePoints p l = [] ↔ l = [] ∨ ∃ x, l = [x] ∧ samePoint p x = true.
Proof. apply erasePoints_nil_iff. Qed.

(** ** Lookup on any tree and on built trees *)

(** X4. Whatever the tree, a node that [index] (the search from the root,
    with the test against the tree's bounds) returns is a live leaf whose
    [pointList] has an entry equal to the point coordinate by coordinate, and
    the point is within the tree's bounds. *)
Theorem index_tree_sound (p : Point3f) (t : Octree) (a : addr) :
  index_tree p t = Done (Some a) →
  isPointInBound_tree p t = true
  ∧ ∃ n q, heap t !! a = Some n ∧ isLeaf n = true ∧ q ∈ pointList n
           ∧ (px p == px q)%Q ∧ (py p == py q)%Q ∧ (pz p == pz q)%Q.
Proof.
  unfold index_tree. intros H.
  destruct (isPointInBound_tree p t); [| done]. split; [done |].
  apply index_result_leaf in H as (n & Hn & Hl & Hh).
  apply leafHolds_iff in Hh as (q & Hq & Hsame).
  exists n, q. split_and!; try done;
    unfold samePoint in Hsame;
    apply andb_true_iff in Hsame as [[Hx Hy]%andb_true_iff Hz];
    by apply Qeq_bool_iff.
Qed.

Lemma index_tree_sound_witness :
  let t := inserted pHalf (newOctree 1 2 origin0) in
  isPointInBound_tree pHalf t = true
  ∧ ∃ n q, heap t !! 2%positive = Some n ∧ isLeaf n = true ∧ q ∈ pointList n
           ∧ (px pHalf == px q)%Q ∧ (py pHalf == py q)%Q ∧ (pz pHalf == pz q)%Q.
Proof.
  intros t. apply (index_tree_sound pHalf t 2%positive).
  vm_compute. reflexivity.
Defined.

(** Sample trees are built: the goals [built (inserted p t)],
    [built (deleted p t)] and [built (newOctree md s o)] by evaluation. *)
Ltac built_by_eval :=
  lazymatch goal with
  | |- built (newOctree _ _ _) => apply built_new; lia
  | |- built (inserted ?p ?t) =>
      first [ apply (built_insert t p); [built_by_eval | vm_compute; reflexivity]
            | apply (built_insert_throw t p);
              [built_by_eval | vm_compute; reflexivity] ]
  | |- built (deleted ?p ?t) =>
      apply (built_delete t p true) || apply (built_delete t p false);
      [built_by_eval | vm_compute; reflexivity]
  end.

(** X5. On a tree built by insertions and deletions both overloads of [index]
    return, for every point: the search meets no dangling pointer and ends
    within [maxDepth] + 1 calls. *)
Theorem index_returns_on_built (t : Octree) (p : Point3f) :
  built t →
  (∃ r, index_tree p t = Done r)
  ∧ (∃ r, index (descentFuel t) p (rootNode t) t = Done r).
Proof.
  intros Hb. apply built_wf in Hb.
  assert (∃ r, index (descentFuel t) p (rootNode t) t = Done r) as [r Hr].
  { destruct (rootNode t) as [root |] eqn:Hroot; [| by exists None].
    destruct (wf_root _ Hb _ Hroot) as (nr & Hnr & _ & Hd0 & _).
    eapply index_defined; eauto. unfold descentFuel. rewrite Hd0. lia. }
  split; [| by eauto].
  unfold index_tree. destruct (isPointInBound_tree p t); eauto.
Qed.

Lemma index_returns_on_built_witness :
  let t := deleted pHalf (inserted pFar (inserted pHalf (newOctree 1 2 origin0))) in
  (∃ r, index_tree pFar t = Done r)
  ∧ (∃ r, index (descentFuel t) pFar (rootNode t) t = Done r).
Proof.
  intros t. apply (index_returns_on_built t pFar). unfold t. built_by_eval.
Defined.

(** ** Insertion on built trees *)

Lemma built_result t p t' :
  built t →
  insertPoint RootRef p t = Done (tt, t') ∨ insertPoint RootRef p t = Throw t' →
  built t'.
Proof.
  intros Hb [H | H]; [by eapply built_insert | by eapply built_insert_throw].
Qed.

(** X6. On a built tree [insertPoint] on the root returns or throws (it meets
    no null or dangling pointer and ends within [maxDepth] + 1 calls), and
    either way it removes nothing: every node is still there at its depth and
    place, with the children and the points it had; the tree's depth and
    bounds are unchanged, and so is the root when there was one. *)
Theorem insertPoint_returns_or_throws (t : Octree) (p : Point3f) :
  built t →
  ∃ t', (insertPoint RootRef p t = Done (tt, t')
         ∨ insertPoint RootRef p t = Throw t')
        ∧ ext t t'
        ∧ maxDepth t' = maxDepth t
        ∧ tree_origin t' = tree_origin t ∧ tree_size t' = tree_size t
        ∧ (is_Some (rootNode t) → rootNode t' = rootNode t).
Proof.
  intros Hb. apply built_wf in Hb.
  destruct (insertPoint_spec t p Hb) as (t' & _ & ? & ? & ? & ? & ? & Hres).
  exists t'. split_and!; try done.
  destruct Hres as [? | [? _]]; auto.
Qed.

Lemma insertPoint_returns_or_throws_witness :
  let t := inserted pHalf (newOctree 1 2 origin0) in
  ∃ t', (insertPoint RootRef pFar t = Done (tt, t')
         ∨ insertPoint RootRef pFar t = Throw t')
        ∧ ext t t'
        ∧ maxDepth t' = maxDepth t
        ∧ tree_origin t' = tree_origin t ∧ tree_size t' = tree_size t
        ∧ (is_Some (rootNode t) → rootNode t' = rootNode t).
Proof.
  intros t. apply (insertPoint_returns_or_throws t pFar). unfold t. built_by_eval.
Defined.

Lemma insertPoint_throws_with_root t p r :
  wf t → rootNode t = Some r → isPointInBound_tree p t = false →
  insertPoint RootRef p t = Throw t.
Proof.
  intros Hb Hr Hout.
  destruct (wf_root _ Hb _ Hr) as (n & Hn & _ & _ & Ho & Hs).
  unfold insertPoint. cbn [read_ref mbind outcome_bind]. rewrite Hr.
  unfold descentFuel. cbn [insertPointRecurse deref]. rewrite Hn.
  cbn [mbind outcome_bind].
  unfold isPointInBound_tree in Hout. by rewrite Ho, Hs, Hout.
Qed.

Lemma insertPoint_throws_without_root t p :
  rootNode t = None → isPointInBound_tree p t = false →
  ∃ t' r, insertPoint RootRef p t = Throw t'
          ∧ isEmpty t' = false ∧ rootNode t' = Some r
          ∧ heap t' !! r
            = Some (newOctreeNode 0 (tree_size t) (tree_origin t) (-1)).
Proof.
  intros Hr Hout.
  unfold insertPoint. cbn [read_ref mbind outcome_bind]. rewrite Hr.
  cbn [write_ref mbind outcome_bind read_ref].
  set (a := fresh (dom (heap t))).
  set (root := newOctreeNode 0 (tree_size t) (tree_origin t) (-1)).
  set (t1 := set_rootNode (Some a) (store a root t)).
  assert (heap t1 !! a = Some root) as Ha by apply lookup_insert_eq.
  change (rootNode t1) with (Some a).
  unfold descentFuel. cbn [insertPointRecurse deref]. rewrite Ha.
  cbn [mbind outcome_bind].
  change (isPointInBound p _ _) with (isPointInBound_tree p t).
  rewrite Hout. cbn [negb].
  by exists t1, a.
Qed.

(** X7. On a built tree that has a root, [insertPoint] of a point that is not
    strictly inside the tree's bounds throws and leaves the tree exactly as it
    was. *)
Theorem insertPoint_out_of_bounds (t : Octree) (p : Point3f) :
  built t → is_Some (rootNode t) → isPointInBound_tree p t = false →
  insertPoint RootRef p t = Throw t.
Proof.
  intros Hb [r Hr] Hout. apply built_wf in Hb.
  by eapply insertPoint_throws_with_root.
Qed.

Lemma insertPoint_out_of_bounds_witness :
  let t := inserted pHalf (newOctree 1 2 origin0) in
  insertPoint RootRef (mkPoint3f 2 1 1) t = Throw t.
Proof.
  intros t. apply (insertPoint_out_of_bounds t (mkPoint3f 2 1 1)).
  - unfold t. built_by_eval.
  - eexists. vm_compute. reflexivity.
  - vm_compute. reflexivity.
Defined.

(** X8. On a built tree without a root, [insertPoint] of a point that is not
    strictly inside the tree's bounds throws after the root node was
    allocated: the tree it leaves is no longer empty, its root has no child,
    holds no point and is not a leaf. *)
Theorem insertPoint_out_of_bounds_first (t : Octree) (p : Point3f) :
  built t → rootNode t = None → isPointInBound_tree p t = false →
  ∃ t' r, insertPoint RootRef p t = Throw t'
          ∧ isEmpty t' = false ∧ rootNode t' = Some r
          ∧ heap t' !! r
            = Some (newOctreeNode 0 (tree_size t) (tree_origin t) (-1)).
Proof. intros _. apply insertPoint_throws_without_root. Qed.

Lemma insertPoint_out_of_bounds_first_witness :
  let t := newOctree 1 2 origin0 in
  ∃ t' r, insertPoint RootRef (mkPoint3f 2 1 1) t = Throw t'
          ∧ isEmpty t' = false ∧ rootNode t' = Some r
          ∧ heap t' !! r
            = Some (newOctreeNode 0 (tree_size t) (tree_origin t) (-1)).
Proof.
  intros t. apply (insertPoint_out_of_bounds_first t (mkPoint3f 2 1 1)).
  - unfold t. built_by_eval.
  - reflexivity.
  - vm_compute. reflexivity.
Defined.

Lemma isPointInBound_size (p o : Point3f) (s : Q) :
  isPointInBound p o s = true → (0 < s)%Q.
Proof.
  unfold isPointInBound. intros H.
  apply andb_true_iff in H as [[[Hx _]%andb_true_iff _]%andb_true_iff
                                 [[Hx' _]%andb_true_iff _]%andb_true_iff].
  apply Qlt_bool_iff in Hx, Hx'.
  apply (Qplus_lt_r _ _ (px o)). rewrite Qplus_0_r.
  by eapply Qlt_trans.
Qed.

(** X9. A tree whose size is zero or negative takes no point: every
    [insertPoint] on a built tree of such a size throws.  This is the case of
    every tree made by [Octree(maxDepth)], whose size is 0. *)
Theorem insertPoint_degenerate_size (t : Octree) (p : Point3f) :
  built t → (tree_size t <= 0)%Q →
  (∃ t', insertPoint RootRef p t = Throw t')
  ∧ isPointInBound_tree p t = false.
Proof.
  intros Hb Hs.
  assert (isPointInBound_tree p t = false) as Hout.
  { destruct (isPointInBound_tree p t) eqn:E; [| done].
    apply isPointInBound_size in E. exfalso.
    by apply (Qlt_not_le _ _ E). }
  split; [| done].
  apply built_wf in Hb.
  destruct (rootNode t) as [r |] eqn:Hr.
  - exists t. by eapply insertPoint_throws_with_root.
  - destruct (insertPoint_throws_without_root t p Hr Hout) as (t' & _ & ? & _).
    by exists t'.
Qed.

Lemma insertPoint_degenerate_size_witness :
  (∃ t', insertPoint RootRef pHalf (newOctreeDepth 3) = Throw t')
  ∧ isPointInBound_tree pHalf (newOctreeDepth 3) = false.
Proof.
  apply (insertPoint_degenerate_size (newOctreeDepth 3) pHalf).
  - apply built_new. lia.
  - vm_compute. discriminate.
Defined.

(** ** Shape of built trees *)

(** X10. In a built tree every node has [childNum] slots, and every non-null
    slot holds a live node that points back: its [parent] is the node, its
    [parentIndex] is the slot and its [depth] is one more. *)
Theorem built_child_links (t : Octree) (a : addr) (n : OctreeNode) (i : nat) (c : addr) :
  built t → heap t !! a = Some n → children n !! i = Some (Some c) →
  length (children n) = childNum
  ∧ ∃ m, heap t !! c = Some m ∧ parent m = Some a
         ∧ parentIndex m = Z.of_nat i ∧ depth m = depth n + 1.
Proof.
  intros Hb Ha Hc. apply built_wf in Hb.
  pose proof (wf_node _ Hb _ _ Ha) as Hok.
  split; [apply Hok | by apply (ok_child _ _ _ Hok)].
Qed.

Lemma built_child_links_witness :
  let t := inserted pFar (inserted pEighth (newOctree 1 2 origin0)) in
  ∃ n, heap t !! 1%positive = Some n
       ∧ length (children n) = childNum
       ∧ ∃ m, heap t !! 3%positive = Some m ∧ parent m = Some 1%positive
              ∧ parentIndex m = Z.of_nat 7 ∧ depth m = depth n + 1.
Proof.
  intros t. eexists. split; [vm_compute; reflexivity |].
  apply (built_child_links t 1%positive _ 7%nat 3%positive).
  - unfold t. built_by_eval.
  - vm_compute. reflexivity.
  - reflexivity.
Defined.

(** X11. In a built tree the root is at depth 0, no node is deeper than
    [maxDepth], a node marked as leaf is at depth [maxDepth], and a node at
    depth [maxDepth] has no child. *)
Theorem built_depths (t : Octree) (a : addr) (n : OctreeNode) :
  built t → heap t !! a = Some n →
  0 ≤ depth n ≤ maxDepth t
  ∧ (rootNode t = Some a → depth n = 0)
  ∧ (isLeaf n = true → depth n = maxDepth t)
  ∧ (depth n = maxDepth t → noLiveChild (children n) = true).
Proof.
  intros Hb Ha. apply built_wf in Hb.
  pose proof (wf_node _ Hb _ _ Ha) as Hok.
  split_and!; try apply Hok.
  - intros Hr. destruct (wf_root _ Hb _ Hr) as (n' & Hn' & _ & ? & _).
    congruence.
  - intros Hd. unfold noLiveChild. apply forallb_forall.
    intros [c |] Hin; [| done]. exfalso.
    apply list_elem_of_In, list_elem_of_lookup in Hin as [i Hi].
    eapply deepest_no_child; eauto.
Qed.

Lemma built_depths_witness :
  let t := inserted pFar (inserted pEighth (newOctree 1 2 origin0)) in
  ∃ n, heap t !! 3%positive = Some n
       ∧ 0 ≤ depth n ≤ maxDepth t
       ∧ (rootNode t = Some 3%positive → depth n = 0)
       ∧ (isLeaf n = true → depth n = maxDepth t)
       ∧ (depth n = maxDepth t → noLiveChild (children n) = true).
Proof.
  intros t. eexists. split; [vm_compute; reflexivity |].
  apply (built_depths t 3%positive).
  - unfold t. built_by_eval.
  - vm_compute. reflexivity.
Defined.

Lemma wf_reach_live t a : wf t → reach t a → is_Some (heap t !! a).
Proof.
  intros Hwf. induction 1 as [r Hr | a n i c _ _ Ha Hc].
  - destruct (wf_root _ Hwf _ Hr) as (n & Hn & _). eauto.
  - destruct (ok_child _ _ _ (wf_node _ Hwf _ _ Ha) _ _ Hc) as (m & Hm & _).
    eauto.
Qed.

Lemma wf_live_reach t : wf t → ∀ k a n,
  heap t !! a = Some n → Z.to_nat (depth n) = k → reach t a.
Proof.
  intros Hwf. induction k as [k IH] using lt_wf_ind. intros a n Ha Hk.
  pose proof (wf_node _ Hwf _ _ Ha) as Hok.
  destruct (parent n) as [pa |] eqn:Hpa.
  - destruct (ok_parent _ _ _ Hok _ Hpa) as (pn & Hpn & _ & Hslot).
    destruct (ok_child _ _ _ (wf_node _ Hwf _ _ Hpn) _ _ Hslot)
      as (n' & Hn' & _ & _ & Hd).
    assert (n' = n) as -> by congruence.
    pose proof (ok_depth _ _ _ (wf_node _ Hwf _ _ Hpn)).
    eapply reach_child; [| exact Hpn | exact Hslot].
    eapply (IH (Z.to_nat (depth pn))); eauto. lia.
  - apply reach_root. by apply Hok.
Qed.

(** X12. In a built tree the live nodes are exactly the nodes reachable from
    the root through child pointers: no child pointer dangles and no node is
    leaked. *)
Theorem built_live_iff_reachable (t : Octree) (a : addr) :
  built t → (is_Some (heap t !! a) ↔ reach t a).
Proof.
  intros Hb. apply built_wf in Hb. split.
  - intros [n Hn]. by eapply wf_live_reach.
  - by apply wf_reach_live.
Qed.

Lemma built_live_iff_reachable_witness :
  let t := deleted pEighth (inserted pQuarter (inserted pEighth (newOctree 2 2 origin0))) in
  is_Some (heap t !! 2%positive) ↔ reach t 2%positive.
Proof.
  intros t. apply (built_live_iff_reachable t 2%positive). unfold t. built_by_eval.
Defined.

(** ** Deletion, case by case *)

(** The three ways in which [deletePoint] returns on a well-formed tree: the
    point is not found; its leaf is left with an empty list; its leaf is
    detached and freed. *)
Lemma deletePoint_cases p t b t' :
  wf t → deletePoint p t = Done (b, t') →
  (index (descentFuel t) p (rootNode t) t = Done None ∧ b = false ∧ t' = t)
  ∨ (∃ a n, index (descentFuel t) p (rootNode t) t = Done (Some a)
            ∧ heap t !! a = Some n
            ∧ erasePoints p (pointList n) = [] ∧ b = true
            ∧ t' = store a (set_pointList [] n) t)
  ∨ (∃ a n pa pn,
       index (descentFuel t) p (rootNode t) t = Done (Some a)
       ∧ heap t !! a = Some n
       ∧ erasePoints p (pointList n) ≠ []
       ∧ parent n = Some pa ∧ heap t !! pa = Some pn ∧ a ≠ pa
       ∧ 0 < maxDepth t
       ∧ deletePointRecurse (S (Z.to_nat (maxDepth t))) (LocalRef (Some pa)) t'
         = Done (b, t')
       ∧ t' = free a
                (store pa
                   (set_children
                      (<[Z.to_nat (parentIndex n) := None]> (children pn)) pn)
                   (store a (set_pointList (erasePoints p (pointList n)) n) t))).
Proof.
  intros Hwf Hdel. unfold deletePoint in Hdel.
  destruct (index _ p _ t) as [[a |] | | |] eqn:Hidx;
    cbn [mbind outcome_bind] in Hdel; try done.
  2: { left. by simplify_eq. }
  right.
  destruct (index_result_leaf _ _ _ _ _ Hidx) as (n & Ha & Hl & _).
  cbn [deref] in Hdel. rewrite Ha in Hdel. cbn [mbind outcome_bind] in Hdel.
  set (l := erasePoints p (pointList n)) in *.
  set (n1 := set_pointList l n) in *.
  set (t1 := store a n1 t) in *.
  pose proof (wf_node _ Hwf _ _ Ha) as Hok.
  pose proof (ok_leaf _ _ _ Hok Hl) as Hdep.
  assert (wf t1) as Hwf1 by (eapply wf_store_payload; eauto).
  assert (heap t1 !! a = Some n1) as Ha1 by apply lookup_insert_eq.
  unfold ascentFuel in Hdel.
  remember (S (Z.to_nat (maxDepth t))) as k eqn:Hk.
  cbn [deletePointRecurse read_ref mbind outcome_bind deref] in Hdel.
  rewrite Ha1 in Hdel. cbn [mbind outcome_bind] in Hdel.
  change (isLeaf n1) with (isLeaf n) in Hdel. rewrite Hl in Hdel.
  change (pointList n1) with l in Hdel.
  destruct (decide (l = [])) as [Hnil | Hnil].
  { left. exists a, n. rewrite Hnil in Hdel. cbn [empty_list negb] in Hdel.
    injection Hdel as <- <-. split_and!; try done. unfold t1, n1.
    by rewrite Hnil. }
  right.
  assert (empty_list l = false) as Hne by (by destruct l).
  rewrite Hne in Hdel. cbn [negb] in Hdel.
  change (parent n1) with (parent n) in Hdel.
  change (parentIndex n1) with (parentIndex n) in Hdel.
  destruct (parent n) as [pa |] eqn:Hpa; [| done].
  destruct (ok_parent _ _ _ (wf_node _ Hwf1 _ _ Ha1) pa Hpa)
    as (pn1 & Hpn1 & Hidx0 & Hslot1).
  change (parentIndex n1) with (parentIndex n) in *.
  cbn [deref] in Hdel. rewrite Hpn1 in Hdel. cbn [mbind outcome_bind] in Hdel.
  destruct (decide _) as [_ | ?]; [| done].
  assert (a ≠ pa) as Hapa.
  { intros <-. assert (pn1 = n1) as -> by congruence.
    eapply (deepest_no_child t1 a n1); eauto. }
  assert (heap t !! pa = Some pn1) as Hpn.
  { unfold t1 in Hpn1. simpl in Hpn1. by rewrite lookup_insert_ne in Hpn1. }
  match type of Hdel with deletePointRecurse _ _ ?u = _ => set (t2 := u) in * end.
  assert (wf t2) as Hwf2 by (apply (wf_detach t1 a n1 pa pn1); auto).
  destruct (ok_child _ _ _ (wf_node _ Hwf1 _ _ Hpn1) _ _ Hslot1)
    as (n' & Hn' & _ & _ & Hdn).
  assert (n' = n1) as -> by congruence.
  change (depth n1) with (depth n) in Hdn.
  pose proof (ok_depth _ _ _ (wf_node _ Hwf _ _ Hpn)) as Hdpn.
  destruct (deletePointRecurse_internal k (Some pa) t2)
    as [b0 Hdel0]; [done | | lia |].
  { intros ? [= <-]. eexists. split_and!.
    - unfold t2. simpl. rewrite lookup_delete_ne by done.
      by rewrite lookup_insert_eq.
    - simpl. by eapply (parent_not_leaf t1).
    - simpl. lia. }
  assert (t' = t2) as -> by congruence.
  exists a, n, pa, pn1. split_and!; try done. lia.
Qed.

(** X13. Whatever the tree, [deletePoint] never writes [rootNode]: a tree
    that has a root keeps it through every deletion that returns, so that
    deletions never change the answer of [isEmpty]. *)
Theorem deletePoint_keeps_rootNode (p : Point3f) (t : Octree) (b : bool) (t' : Octree) :
  deletePoint p t = Done (b, t') →
  rootNode t' = rootNode t ∧ isEmpty t' = isEmpty t.
Proof.
  intros H. apply deletePoint_rootNode in H. unfold isEmpty. by rewrite H.
Qed.

Lemma deletePoint_keeps_rootNode_witness :
  let t := inserted pHalf (newOctree 1 2 origin0) in
  rootNode (deleted pHalf t) = rootNode t
  ∧ isEmpty (deleted pHalf t) = isEmpty t.
Proof.
  intros t. apply (deletePoint_keeps_rootNode pHalf t true).
  vm_compute. reflexivity.
Defined.

(** X14. On a built tree, a [deletePoint] that returns leaves a tree on which
    the same [deletePoint] again finds nothing: it returns false and changes
    nothing.  So does [deletePoint] of any point that [index] does not
    find. *)
Theorem deletePoint_twice (t : Octree) (p : Point3f) (b : bool) (t' : Octree) :
  built t → deletePoint p t = Done (b, t') →
  deletePoint p t' = Done (false, t')
  ∧ (index (descentFuel t) p (rootNode t) t = Done None → b = false ∧ t' = t).
Proof.
  intros Hb Hdel. apply built_wf in Hb. split.
  - pose proof (deletePoint_index p t b t' Hb Hdel) as Hidx.
    unfold deletePoint. by rewrite Hidx.
  - intros Hnone. unfold deletePoint in Hdel. rewrite Hnone in Hdel.
    cbn [mbind outcome_bind] in Hdel. by simplify_eq.
Qed.

Lemma deletePoint_twice_witness :
  let t := inserted pQuarter (inserted pHalf (newOctree 1 2 origin0)) in
  let t' := deleted pHalf t in
  deletePoint pHalf t' = Done (false, t')
  ∧ (index (descentFuel t) pHalf (rootNode t) t = Done None → false = false ∧ t' = t).
Proof.
  intros t t'. apply (deletePoint_twice t pHalf false t').
  - unfold t. built_by_eval.
  - vm_compute. reflexivity.
Defined.

(** X15. Whatever the tree, when [index] finds the point in a leaf whose
    [pointList] has a single entry, [deletePoint] returns true and only
    empties that list: the leaf stays where it is, with no point. *)
Theorem deletePoint_lone_point (t : Octree) (p q : Point3f) (a : addr) (n : OctreeNode) :
  index (descentFuel t) p (rootNode t) t = Done (Some a) →
  heap t !! a = Some n → pointList n = [q] →
  deletePoint p t = Done (true, store a (set_pointList [] n) t).
Proof.
  intros Hidx Ha Hq.
  destruct (index_result_leaf _ _ _ _ _ Hidx) as (n' & Hn' & Hl & Hh).
  assert (n' = n) as -> by congruence.
  rewrite Hq in Hh. unfold leafHolds in Hh. cbn [existsb] in Hh.
  rewrite orb_false_r in Hh.
  unfold deletePoint. rewrite Hidx. cbn [mbind outcome_bind deref].
  rewrite Ha. cbn [mbind outcome_bind]. rewrite Hq.
  assert (erasePoints p [q] = []) as ->.
  { unfold erasePoints. cbn [length eraseLoop lookup list_lookup]. by rewrite Hh. }
  unfold ascentFuel.
  cbn [deletePointRecurse read_ref mbind outcome_bind deref store heap set_heap].
  rewrite lookup_insert_eq.
  cbn [mbind outcome_bind isLeaf set_pointList pointList]. by rewrite Hl.
Qed.

Lemma deletePoint_lone_point_witness :
  let t := inserted pHalf (newOctree 1 2 origin0) in
  ∃ n, heap t !! 2%positive = Some n
       ∧ deletePoint pHalf t = Done (true, store 2%positive (set_pointList [] n) t).
Proof.
  intros t. eexists. split; [vm_compute; reflexivity |].
  apply (deletePoint_lone_point t pHalf pHalf 2%positive).
  - vm_compute. reflexivity.
  - vm_compute. reflexivity.
  - reflexivity.
Defined.

(** X16. On a built tree of depth at least 1, when [index] finds the point in
    a leaf whose [pointList] has two entries or more, [deletePoint] returns
    and the leaf is freed with all it held: every point that [index] found in
    that leaf before, the deleted one or another, is not found after. *)
Theorem deletePoint_crowded_leaf (t : Octree) (p : Point3f) (a : addr) (n : OctreeNode) :
  built t → 0 < maxDepth t →
  index (descentFuel t) p (rootNode t) t = Done (Some a) →
  heap t !! a = Some n → (2 ≤ length (pointList n))%nat →
  ∃ b t', deletePoint p t = Done (b, t')
          ∧ heap t' !! a = None
          ∧ ∀ q, index (descentFuel t) q (rootNode t) t = Done (Some a) →
                 index (descentFuel t') q (rootNode t') t' = Done None.
Proof.
  intros Hb Hmd Hidx Ha Hlen. apply built_wf in Hb.
  destruct (deletePoint_total p t Hb Hmd) as (b & t' & Hdel & _).
  exists b, t'. split; [done |].
  destruct (deletePoint_cases p t b t' Hb Hdel)
    as [(Hnone & _) | [(a' & n' & Hidx' & Ha' & Hnil & _)
                      | (a' & n' & pa & pn & Hidx' & Ha' & _ & Hpa & Hpn & Hne & _ & _ & ->)]].
  - congruence.
  - exfalso. assert (a' = a) as -> by congruence.
    assert (n' = n) as -> by congruence.
    apply erasePoints_nil_iff in Hnil as [Hnil | (x & Hx & _)];
      rewrite ?Hnil, ?Hx in Hlen; simpl in Hlen; lia.
  - assert (a' = a) as -> by congruence.
    assert (n' = n) as -> by congruence.
    split; [apply lookup_delete_eq |].
    intros q Hq. cbn [rootNode free store set_heap].
    match goal with |- index ?f _ _ _ = _ =>
      change f with (descentFuel t) end.
    destruct (rootNode t) as [root |] eqn:Hroot; [| done].
    eapply (index_after_detach _ q root t _ a n pa pn); eauto.
    + simpl. rewrite lookup_delete_ne by done. by rewrite lookup_insert_eq.
    + intros b' Hb'a Hb'pa. simpl.
      rewrite lookup_delete_ne by done.
      rewrite lookup_insert_ne by done. by rewrite lookup_insert_ne.
    + intros ->. destruct (wf_root _ Hb _ Hroot) as (nr & Hnr & Hnone & _).
      congruence.
Qed.

Lemma deletePoint_crowded_leaf_witness :
  let t := inserted pQuarter (inserted pHalf (newOctree 1 2 origin0)) in
  ∃ b t', deletePoint pHalf t = Done (b, t')
          ∧ heap t' !! 2%positive = None
          ∧ ∀ q, index (descentFuel t) q (rootNode t) t = Done (Some 2%positive) →
                 index (descentFuel t') q (rootNode t') t' = Done None.
Proof.
  intros t.
  apply (deletePoint_crowded_leaf t pHalf 2%positive
           (set_pointList [pHalf; pQuarter] (set_isLeaf true (set_parent (Some 1%positive)
              (newOctreeNode 1 (2 / 2)%Q
                 (childOrigin pHalf origin0 2) 0))))).
  - unfold t. built_by_eval.
  - vm_compute. reflexivity.
  - vm_compute. reflexivity.
  - vm_compute. reflexivity.
  - simpl. lia.
Defined.

Lemma deletePointRecurse_false fuel : ∀ a n t t',
  wf t → heap t !! a = Some n → isLeaf n = false →
  deletePointRecurse fuel (LocalRef (Some a)) t = Done (false, t') →
  ∃ r nr, rootNode t = Some r ∧ heap t !! r = Some nr
          ∧ noLiveChild (children nr) = true.
Proof.
  induction fuel as [| fuel IH]; intros a n t t' Hwf Ha Hl H; [done |].
  cbn [deletePointRecurse read_ref mbind outcome_bind deref] in H.
  rewrite Ha in H. cbn [mbind outcome_bind] in H. rewrite Hl in H.
  destruct (noLiveChild (children n)) eqn:Hkids; [| by simplify_eq].
  cbn [write_ref mbind outcome_bind] in H.
  pose proof (wf_node _ Hwf _ _ Ha) as Hok.
  destruct (parent n) as [pa |] eqn:Hpa.
  - destruct (ok_parent _ _ _ Hok _ Hpa) as (pn & Hpn & _ & Hslot).
    eapply (IH pa pn); eauto. by eapply parent_not_leaf.
  - exists a, n. split_and!; try done. by apply Hok.
Qed.

(** X17. On a built tree, [deletePoint] returning false does not tell that
    nothing was removed: either [index] did not find the point and the tree is
    unchanged, or the leaf of the point was freed and the root is left
    without any child. *)
Theorem deletePoint_false (t : Octree) (p : Point3f) (t' : Octree) :
  built t → deletePoint p t = Done (false, t') →
  (index (descentFuel t) p (rootNode t) t = Done None ∧ t' = t)
  ∨ (∃ a r nr, index (descentFuel t) p (rootNode t) t = Done (Some a)
               ∧ heap t' !! a = None
               ∧ rootNode t' = Some r ∧ heap t' !! r = Some nr
               ∧ noLiveChild (children nr) = true).
Proof.
  intros Hb Hdel. apply built_wf in Hb.
  pose proof (deletePoint_wf _ _ _ _ Hb Hdel) as Hwf'.
  destruct (deletePoint_cases p t false t' Hb Hdel)
    as [(Hnone & _ & ->) | [(a & n & _ & _ & _ & ? & _)
                           | (a & n & pa & pn & Hidx & Ha & _ & Hpa & Hpn & Hne
                              & _ & Hrec & Heq)]];
    [by left | done | right].
  assert (heap t' !! pa
          = Some (set_children
                    (<[Z.to_nat (parentIndex n) := None]> (children pn)) pn))
    as Hpa'.
  { rewrite Heq. simpl. rewrite lookup_delete_ne by done.
    by rewrite lookup_insert_eq. }
  assert (isLeaf pn = false) as Hlf.
  { destruct (ok_parent _ _ _ (wf_node _ Hb _ _ Ha) _ Hpa)
      as (pn' & Hpn' & _ & Hslot).
    assert (pn' = pn) as -> by congruence.
    exact (parent_not_leaf _ _ _ _ _ Hb Hpn Hslot). }
  destruct (deletePointRecurse_false _ _ _ _ _ Hwf' Hpa' Hlf Hrec)
    as (r & nr & ? & ? & ?).
  exists a, r, nr. split_and!; try done.
  rewrite Heq. apply lookup_delete_eq.
Qed.

Lemma deletePoint_false_witness :
  let t := inserted pQuarter (inserted pHalf (newOctree 1 2 origin0)) in
  let t' := deleted pHalf t in
  (index (descentFuel t) pHalf (rootNode t) t = Done None ∧ t' = t)
  ∨ (∃ a r nr, index (descentFuel t) pHalf (rootNode t) t = Done (Some a)
               ∧ heap t' !! a = None
               ∧ rootNode t' = Some r ∧ heap t' !! r = Some nr
               ∧ noLiveChild (children nr) = true).
Proof.
  intros t t'. apply (deletePoint_false t pHalf t').
  - unfold t. built_by_eval.
  - vm_compute. reflexivity.
Defined.

(** ** Induction on the elementary changes *)

Lemma step_wf t t' : wf t → step t t' → wf t'.
Proof.
  intros Hwf Hstep.
  destruct Hstep as [t Hr | t a n p Ha Hb Hd Hc | t a n p Ha Hb Hd
                    | t a n p Ha Hl | t a n pa pn Ha Hl Hpa Hpn Hne].
  - by apply wf_new_root.
  - apply wf_add_child; auto. apply fresh_not_allocated.
  - eapply wf_store_payload; eauto.
  - eapply wf_store_payload; eauto.
    intros _. by apply (ok_leaf _ _ _ (wf_node _ Hwf _ _ Ha)).
  - eapply wf_detach; eauto.
    by apply (ok_leaf _ _ _ (wf_node _ Hwf _ _ Ha)).
Qed.

Section StepInduction.
Context (P : Octree → Prop).
Hypothesis Hstep : ∀ t t', wf t → step t t' → P t → P t'.

Lemma insertPointRecurse_preserves fuel : ∀ t a p t',
  wf t → P t →
  insertPointRecurse fuel (Some a) p t = Done (tt, t')
  ∨ insertPointRecurse fuel (Some a) p t = Throw t' →
  P t'.
Proof.
  induction fuel as [| fuel IH]; intros t a p t' Hwf HP H;
    [by destruct H |].
  cbn [insertPointRecurse deref] in H.
  destruct (heap t !! a) as [n |] eqn:Ha; [| by destruct H].
  cbn [mbind outcome_bind] in H.
  destruct (isPointInBound p (node_origin n) (node_size n)) eqn:Hb;
    cbn [negb] in H.
  2: { destruct H as [H | H]; by simplify_eq. }
  destruct (depth n =? maxDepth t) eqn:Hd.
  { apply Z.eqb_eq in Hd. destruct H as [H | H]; simplify_eq.
    eapply Hstep; [done | | done]. by apply step_push. }
  apply Z.eqb_neq in Hd.
  unfold at_index in H.
  destruct (children n !! childIndex p (node_origin n) (node_size n))
    as [[c |] |] eqn:Hc; cbn [mbind outcome_bind] in H.
  - by eapply IH.
  - eapply IH; [| | exact H].
    + apply wf_add_child; auto. apply fresh_not_allocated.
    + eapply Hstep; [done | | done]. by apply step_child.
  - by destruct H.
Qed.

Lemma insertPoint_preserves t p t' :
  wf t → P t →
  insertPoint RootRef p t = Done (tt, t') ∨ insertPoint RootRef p t = Throw t' →
  P t'.
Proof.
  intros Hwf HP H. unfold insertPoint in H.
  cbn [read_ref mbind outcome_bind] in H.
  destruct (rootNode t) as [r |] eqn:Hr.
  - by eapply insertPointRecurse_preserves.
  - cbn [write_ref mbind outcome_bind read_ref rootNode set_rootNode] in H.
    eapply insertPointRecurse_preserves; [| | exact H].
    + by apply wf_new_root.
    + eapply Hstep; [done | | done]. by apply step_root.
Qed.

Lemma deletePoint_preserves t p b t' :
  wf t → P t → deletePoint p t = Done (b, t') → P t'.
Proof.
  intros Hwf HP H.
  destruct (deletePoint_cases p t b t' Hwf H)
    as [(_ & _ & ->) | [(a & n & Hidx & Ha & Hnil & _ & ->)
                       | (a & n & pa & pn & Hidx & Ha & _ & Hpa & Hpn & Hne
                          & _ & _ & ->)]];
    [done | |];
    destruct (index_result_leaf _ _ _ _ _ Hidx) as (n' & Hn' & Hl & _);
    assert (n' = n) as -> by congruence.
  - rewrite <- Hnil. eapply Hstep; [done | | done]. by apply step_erase.
  - assert (wf (store a (set_pointList (erasePoints p (pointList n)) n) t))
      as Hwf1.
    { eapply step_wf; [done |]. by apply step_erase. }
    eapply Hstep; [exact Hwf1 | | ].
    + apply (step_detach _ a (set_pointList (erasePoints p (pointList n)) n)
               pa pn); try done.
      * apply lookup_insert_eq.
      * simpl. by rewrite lookup_insert_ne.
    + apply (Hstep t); [done | by apply step_erase | done].
Qed.

Hypothesis Hnew : ∀ md s o, 0 ≤ md → P (newOctree md s o).

(** A property that holds of the empty trees and that every elementary change
    of a well-formed tree keeps holds of every built tree. *)
Lemma built_step_ind t : built t → P t.
Proof.
  induction 1 as [md s o Hmd | t p t' Hb IH H | t p t' Hb IH H
                 | t p b t' Hb IH H].
  - by apply Hnew.
  - apply (insertPoint_preserves t p t'); auto. by apply built_wf.
  - apply (insertPoint_preserves t p t'); auto. by apply built_wf.
  - apply (deletePoint_preserves t p b t'); auto. by apply built_wf.
Qed.
End StepInduction.

(** ** Invariants of built trees, by induction on the elementary changes *)

(** Case analysis on a lookup in a store that was written or freed. *)
Ltac split_lookup H :=
  cbn [heap store free set_heap set_rootNode] in H;
  repeat match type of H with
  | <[?i:=_]> _ !! ?j = _ =>
      let E := fresh "Eaddr" in
      destruct (decide (i = j)) as [E | E];
      [rewrite <- E in *; rewrite lookup_insert_eq in H
      | rewrite lookup_insert_ne in H by done]
  | delete ?i _ !! ?j = _ =>
      let E := fresh "Eaddr" in
      destruct (decide (i = j)) as [E | E];
      [rewrite <- E in *; rewrite lookup_delete_eq in H; discriminate H
      | rewrite lookup_delete_ne in H by done]
  end.

Lemma payload_ok_step t t' : wf t → step t t' → payload_ok t → payload_ok t'.
Proof.
  intros Hwf Hstep HP.
  destruct Hstep as [t Hr | t a n p Ha Hb Hd Hc | t a n p Ha Hb Hd
                    | t a n p Ha Hl | t a n pa pn Ha Hl Hpa Hpn Hne];
    intros x m Hx; split_lookup Hx; simplify_eq;
    cbn [isLeaf pointList node_origin node_size set_children set_parent
         set_pointList set_isLeaf newOctreeNode];
    try (by apply (HP _ _ Hx)); try (by apply (HP _ _ Ha));
    try (by apply (HP _ _ Hpn)).
  - split; [done | by intros q ?%elem_of_nil].
  - split; [done | by intros q ?%elem_of_nil].
  - split; [done |]. intros q [Hq | ->%list_elem_of_singleton]%elem_of_app;
      [by apply (HP _ _ Ha) | done].
  - split; [by rewrite Hl |]. intros q Hq. apply (HP _ _ Ha).
    eapply elem_of_sublist; [exact Hq |]. apply erasePoints_sublists.
Qed.

Lemma payload_ok_built t : built t → payload_ok t.
Proof.
  apply (built_step_ind payload_ok).
  - intros ???. by apply payload_ok_step.
  - intros md s o _ a n Ha. cbn [heap newOctree] in Ha.
    by rewrite lookup_empty in Ha.
Qed.

(** X18. In a built tree only leaves hold points: a node whose [pointList]
    is not empty is marked as leaf and is at depth [maxDepth]; and every point
    it holds passes [isPointInBound] for the node's own cube. *)
Theorem built_points_in_leaf_cube (t : Octree) (a : addr) (n : OctreeNode) (q : Point3f) :
  built t → heap t !! a = Some n → q ∈ pointList n →
  isLeaf n = true ∧ depth n = maxDepth t
  ∧ isPointInBound q (node_origin n) (node_size n) = true.
Proof.
  intros Hb Ha Hq.
  destruct (payload_ok_built t Hb a n Ha) as [Hleaf Hin].
  assert (isLeaf n = true) as Hl.
  { destruct (isLeaf n); [done |]. rewrite Hleaf in Hq by done.
    by apply elem_of_nil in Hq. }
  split_and!; [done | | by apply Hin].
  apply built_wf in Hb. by apply (ok_leaf _ _ _ (wf_node _ Hb _ _ Ha)).
Qed.

Lemma built_points_in_leaf_cube_witness :
  let t := inserted pFar (inserted pEighth (newOctree 1 2 origin0)) in
  ∃ n, heap t !! 3%positive = Some n
       ∧ isLeaf n = true ∧ depth n = maxDepth t
       ∧ isPointInBound pFar (node_origin n) (node_size n) = true.
Proof.
  intros t. eexists. split; [vm_compute; reflexivity |].
  apply (built_points_in_leaf_cube t 3%positive).
  - unfold t. built_by_eval.
  - vm_compute. reflexivity.
  - simpl. apply list_elem_of_here.
Defined.

Lemma size_ok_step t t' : wf t → step t t' → size_ok t → size_ok t'.
Proof.
  intros Hwf Hstep HP.
  destruct Hstep as [t Hr | t a n p Ha Hb Hd Hc | t a n p Ha Hb Hd
                    | t a n p Ha Hl | t a n pa pn Ha Hl Hpa Hpn Hne];
    intros x m Hx; split_lookup Hx; simplify_eq;
    cbn [depth node_size tree_size set_children set_parent set_rootNode
         set_pointList set_isLeaf newOctreeNode store free set_heap];
    try (by apply (HP _ _ Hx)); try (by apply (HP _ _ Ha));
    try (by apply (HP _ _ Hpn)).
  - change (2 ^ 0)%Q with 1%Q. field.
  - rewrite (HP _ _ Ha).
    pose proof (ok_depth _ _ _ (wf_node _ Hwf _ _ Ha)) as [Hd0 _].
    rewrite Qpower_plus by done. change (2 ^ 1)%Q with 2%Q.
    field. apply Qpower_not_0. done.
Qed.

Lemma size_ok_built t : built t → size_ok t.
Proof.
  apply (built_step_ind size_ok).
  - intros ???. by apply size_ok_step.
  - intros md s o _ a n Ha. cbn [heap newOctree] in Ha.
    by rewrite lookup_empty in Ha.
Qed.

(** X19. In a built tree the size of a node at depth d is the size of the
    tree divided by 2^d. *)
Theorem built_node_size (t : Octree) (a : addr) (n : OctreeNode) :
  built t → heap t !! a = Some n →
  (node_size n == tree_size t / 2 ^ depth n)%Q.
Proof. intros Hb Ha. by apply (size_ok_built t Hb a n). Qed.

Lemma built_node_size_witness :
  let t := inserted pEighth (newOctree 2 2 origin0) in
  ∃ n, heap t !! 3%positive = Some n
       ∧ (node_size n == tree_size t / 2 ^ depth n)%Q.
Proof.
  intros t. eexists. split; [vm_compute; reflexivity |].
  apply (built_node_size t 3%positive).
  - unfold t. built_by_eval.
  - vm_compute. reflexivity.
Defined.






(** ** What is stored is found *)

(** The points held after [insertPointRecurse]: those held before, in the
    same nodes, and, when the call returns, the inserted point in the node
    that [index] then returns for it. *)
Lemma insertPointRecurse_points fuel : ∀ t a n p t' r,
  wf t → heap t !! a = Some n →
  (Z.to_nat (maxDepth t - depth n) < fuel)%nat →
  insertPointRecurse fuel (Some a) p t = r →
  r = Done (tt, t') ∨ r = Throw t' →
  ∀ x m q, heap t' !! x = Some m → q ∈ pointList m →
    (∃ m0, heap t !! x = Some m0 ∧ q ∈ pointList m0)
    ∨ (q = p ∧ r = Done (tt, t') ∧ index fuel p (Some a) t' = Done (Some x)).
Proof.
  induction fuel as [| fuel IH];
    intros t a n p t' r Hwf Ha Hfuel H Hr x m q Hx Hq; [lia |].
  pose proof (wf_node _ Hwf _ _ Ha) as Hok.
  cbn [insertPointRecurse deref] in H. rewrite Ha in H.
  cbn [mbind outcome_bind] in H.
  destruct (isPointInBound p (node_origin n) (node_size n)) eqn:Hb;
    cbn [negb] in H.
  2: { left. subst r. destruct Hr as [Hr | Hr]; simplify_eq. eauto. }
  destruct (depth n =? maxDepth t) eqn:Hd.
  { apply Z.eqb_eq in Hd. subst r. destruct Hr as [Hr | Hr]; simplify_eq.
    cbn [heap store set_heap] in Hx.
    destruct (decide (x = a)) as [-> | Hxa].
    - rewrite lookup_insert_eq in Hx. simplify_eq.
      cbn [pointList set_pointList] in Hq.
      apply elem_of_app in Hq as [Hq | ->%list_elem_of_singleton];
        [left; by eauto | right].
      split_and!; [done .. |]. cbn [index deref store heap set_heap].
      rewrite lookup_insert_eq.
      cbn [mbind outcome_bind isLeaf set_pointList set_isLeaf pointList].
      assert (leafHolds p (pointList n ++ [p]) = true) as ->; [| done].
      apply leafHolds_iff. exists p. split; [| apply samePoint_refl].
      apply elem_of_app. right. by apply list_elem_of_singleton.
    - rewrite lookup_insert_ne in Hx by done. left. eauto. }
  apply Z.eqb_neq in Hd.
  pose proof (ok_depth _ _ _ Hok) as Hdep.
  unfold at_index in H.
  set (ci := childIndex p (node_origin n) (node_size n)) in *.
  (* the call on the child [c] in the tree [t1] *)
  assert (Hsub : ∀ t1 c mc n1,
            wf t1 → heap t1 !! c = Some mc → depth mc = depth n + 1 →
            maxDepth t1 = maxDepth t →
            heap t1 !! a = Some n1 → children n1 !! ci = Some (Some c) →
            node_origin n1 = node_origin n → node_size n1 = node_size n →
            insertPointRecurse fuel (Some c) p t1 = r →
            (∃ m0, heap t1 !! x = Some m0 ∧ q ∈ pointList m0)
            ∨ (q = p ∧ r = Done (tt, t')
               ∧ index (S fuel) p (Some a) t' = Done (Some x))).
  { intros t1 c mc n1 Hwf1 Hc Hdc Hm1 Hn1 Hn1c Ho1 Hs1 Hcall.
    assert (Z.to_nat (maxDepth t1 - depth mc) < fuel)%nat as Hfuel1
      by (rewrite Hm1, Hdc; lia).
    destruct (IH t1 c mc p t' r Hwf1 Hc Hfuel1 Hcall Hr x m q Hx Hq)
      as [? | (-> & Hdone & Hidx)]; [by left | right].
    split_and!; [done .. |].
    destruct (insertPointRecurse_spec fuel t1 c mc p Hwf1 Hc Hfuel1)
      as (t'' & Hwf' & Hext' & _ & _ & _ & _ & Hres).
    assert (t'' = t') as -> by (destruct Hres as [? | [? _]]; congruence).
    destruct (Hext' _ _ Hn1) as (n' & Hn' & _ & Ho' & Hs' & Hc' & _ & _).
    rewrite <- Hidx. eapply index_step; eauto.
    - exact (parent_not_leaf _ _ _ _ _ Hwf' Hn' (Hc' _ _ Hn1c)).
    - by rewrite Ho', Hs', Ho1, Hs1.
    - rewrite Ho', Hs', Ho1, Hs1. by apply Hc'. }
  destruct (children n !! ci) as [[c |] |] eqn:Hc;
    cbn [mbind outcome_bind] in H.
  - destruct (ok_child _ _ _ Hok _ _ Hc) as (mc & Hmc & _ & _ & Hdc).
    by apply (Hsub t c mc n).
  - pose proof (fresh_not_allocated t) as Hfresh.
    set (c := fresh (dom (heap t))) in *.
    assert (a ≠ c) as Hac by congruence.
    assert (ci < length (children n))%nat by (by eapply lookup_lt_Some).
    match type of H with (insertPointRecurse _ _ _ ?u = _) =>
      set (t1 := u) in * end.
    destruct (Hsub t1 c (set_parent (Some a)
                (newOctreeNode (depth n + 1) (node_size n / 2)%Q
                   (childOrigin p (node_origin n) (node_size n)) (Z.of_nat ci)))
                (set_children (<[ci := Some c]> (children n)) n))
      as [(m0 & Hm0 & Hq0) | ?]; try done; [.. | | by right].
    + by apply wf_add_child.
    + unfold t1. simpl. rewrite lookup_insert_ne by done.
      by rewrite lookup_insert_eq.
    + unfold t1. simpl. by rewrite lookup_insert_eq.
    + simpl. by rewrite list_lookup_insert_eq.
    + left. unfold t1 in Hm0. cbn [heap store set_heap] in Hm0.
      destruct (decide (x = a)) as [-> | Hxa].
      * rewrite lookup_insert_eq in Hm0. simplify_eq. by exists n.
      * rewrite lookup_insert_ne in Hm0 by done.
        destruct (decide (x = c)) as [-> | Hxc].
        -- rewrite lookup_insert_eq in Hm0. simplify_eq.
           by apply elem_of_nil in Hq0.
        -- rewrite lookup_insert_ne in Hm0 by done. eauto.
  - subst r. by destruct Hr.
Qed.

Lemma insertPoint_points t p t' r :
  wf t → insertPoint RootRef p t = r →
  r = Done (tt, t') ∨ r = Throw t' →
  ∀ x m q, heap t' !! x = Some m → q ∈ pointList m →
    (∃ m0, heap t !! x = Some m0 ∧ q ∈ pointList m0)
    ∨ (q = p ∧ r = Done (tt, t')
       ∧ index (descentFuel t') p (rootNode t') t' = Done (Some x)).
Proof.
  intros Hwf H Hr x m q Hx Hq.
  destruct (insertPoint_result t p t' Hwf) as (_ & _ & Hmd & _ & _ & Hroot).
  { destruct Hr; [left | right]; congruence. }
  unfold insertPoint in H. cbn [read_ref mbind outcome_bind] in H.
  destruct (rootNode t) as [root |] eqn:Hroot'.
  - destruct (wf_root _ Hwf _ Hroot') as (n & Hn & _ & Hd0 & _).
    assert (Z.to_nat (maxDepth t - depth n) < descentFuel t)%nat as Hfuel.
    { unfold descentFuel. rewrite Hd0. lia. }
    destruct (insertPointRecurse_points _ t root n p t' r Hwf Hn Hfuel H Hr
                x m q Hx Hq) as [? | (-> & Hdone & Hidx)]; [by left | right].
    split_and!; [done .. |]. unfold descentFuel in *.
    rewrite Hroot, Hmd by eauto. done.
  - cbn [write_ref mbind outcome_bind read_ref rootNode set_rootNode] in H.
    set (a := fresh (dom (heap t))) in *.
    match type of H with (insertPointRecurse _ _ _ ?u = _) =>
      set (t1 := u) in * end.
    assert (wf t1) as Hwf1 by (by apply wf_new_root).
    assert (heap t1 !! a = Some (newOctreeNode 0 (tree_size t) (tree_origin t) (-1)))
      as Ha by apply lookup_insert_eq.
    assert (Z.to_nat (maxDepth t1 - 0) < descentFuel t)%nat as Hfuel.
    { unfold descentFuel. simpl. lia. }
    destruct (insertPointRecurse_spec (descentFuel t) t1 a _ p Hwf1 Ha Hfuel)
      as (t'' & _ & _ & Hr' & _ & _ & _ & Hres).
    assert (t'' = t') as -> by (destruct Hr, Hres as [? | [? _]]; congruence).
    destruct (insertPointRecurse_points _ t1 a _ p t' r Hwf1 Ha Hfuel H Hr
                x m q Hx Hq) as [(m0 & Hm0 & Hq0) | (-> & Hdone & Hidx)].
    + exfalso. unfold t1 in Hm0. cbn [heap set_rootNode store set_heap] in Hm0.
      rewrite (wf_empty _ Hwf Hroot') in Hm0.
      destruct (decide (x = a)) as [-> | ?].
      * rewrite lookup_insert_eq in Hm0. simplify_eq.
        by apply elem_of_nil in Hq0.
      * rewrite lookup_insert_ne in Hm0 by done.
        by rewrite lookup_empty in Hm0.
    + right. split_and!; [done .. |]. unfold descentFuel in *.
      rewrite Hr', Hmd. done.
Qed.

(** A leaf that [index] returns is still returned after the list of another
    leaf was rewritten. *)
Lemma index_other_after_erase fuel : ∀ q x0 t a n l x,
  index fuel q x0 t = Done (Some x) → x ≠ a →
  heap t !! a = Some n → isLeaf n = true →
  index fuel q x0 (store a (set_pointList l n) t) = Done (Some x).
Proof.
  induction fuel as [| fuel IH]; intros q x0 t a n l x H Hxa Ha Hl; [done |].
  cbn [index] in *. destruct x0 as [x0 |]; [| done].
  cbn [deref store heap set_heap] in *.
  destruct (heap t !! x0) as [nx |] eqn:Hx0; [| done].
  cbn [mbind outcome_bind] in H.
  destruct (decide (x0 = a)) as [-> | Hne].
  - assert (nx = n) as -> by congruence. rewrite Hl in H.
    destruct (leafHolds q (pointList n)); simplify_eq.
  - rewrite lookup_insert_ne by done. rewrite Hx0. cbn [mbind outcome_bind].
    destruct (isLeaf nx); [done |].
    destruct (isPointInBound _ _ _); [| done].
    unfold at_index in *.
    destruct (children nx !! _) as [[c |] |]; try done.
    cbn [mbind outcome_bind] in *. by apply IH.
Qed.

(** A leaf that [index] returns is still returned after another leaf was
    detached and freed. *)
Lemma index_other_after_detach fuel : ∀ q x0 t t2 a n pa pn x,
  wf t → heap t !! a = Some n → isLeaf n = true →
  parent n = Some pa → heap t !! pa = Some pn →
  heap t2 !! pa
    = Some (set_children (<[Z.to_nat (parentIndex n) := None]> (children pn)) pn) →
  (∀ b, b ≠ a → b ≠ pa → heap t2 !! b = heap t !! b) →
  x0 ≠ a → x ≠ a →
  index fuel q (Some x0) t = Done (Some x) →
  index fuel q (Some x0) t2 = Done (Some x).
Proof.
  induction fuel as [| fuel IH];
    intros q x0 t t2 a n pa pn x Hwf Ha Hl Hpa Hpn Hpa2 Hframe Hx0a Hxa H;
    [done |].
  destruct (ok_parent _ _ _ (wf_node _ Hwf _ _ Ha) _ Hpa)
    as (pn0 & Hpn0 & _ & Hslot).
  assert (pn0 = pn) as -> by congruence.
  pose proof (parent_not_leaf _ _ _ _ _ Hwf Hpn Hslot) as Hpl.
  cbn [index deref] in *. destruct (heap t !! x0) as [nx |] eqn:Hx0; [| done].
  cbn [mbind outcome_bind] in H.
  destruct (decide (x0 = pa)) as [-> | Hx0pa].
  - assert (nx = pn) as -> by congruence.
    rewrite Hpa2. cbn [mbind outcome_bind].
    cbn [isLeaf node_origin node_size set_children children].
    rewrite Hpl in *.
    destruct (isPointInBound q (node_origin pn) (node_size pn)); [| done].
    unfold at_index in *.
    destruct (children pn !! childIndex q (node_origin pn) (node_size pn))
      as [[c |] |] eqn:Hc; try done.
    cbn [mbind outcome_bind] in H.
    assert (c ≠ a) as Hca.
    { intros ->. destruct fuel; [done |]. cbn [index deref] in H.
      rewrite Ha in H. cbn [mbind outcome_bind] in H. rewrite Hl in H.
      destruct (leafHolds q (pointList n)); simplify_eq. }
    rewrite list_lookup_insert_ne by (intros Heq; rewrite Heq in Hslot; congruence).
    rewrite Hc. cbn [mbind outcome_bind].
    by apply (IH q c t t2 a n pa pn x).
  - rewrite Hframe by done. rewrite Hx0. cbn [mbind outcome_bind].
    destruct (isLeaf nx); [done |].
    destruct (isPointInBound q (node_origin nx) (node_size nx)); [| done].
    unfold at_index in *.
    destruct (children nx !! childIndex q (node_origin nx) (node_size nx))
      as [[c |] |] eqn:Hc; try done.
    cbn [mbind outcome_bind] in *.
    assert (c ≠ a) as Hca.
    { intros ->. destruct fuel; [done |]. cbn [index deref] in H.
      rewrite Ha in H. cbn [mbind outcome_bind] in H. rewrite Hl in H.
      destruct (leafHolds q (pointList n)); simplify_eq. }
    by apply (IH q c t t2 a n pa pn x).
Qed.

Lemma findable_ok_insert t p t' :
  wf t → findable_ok t →
  insertPoint RootRef p t = Done (tt, t') ∨ insertPoint RootRef p t = Throw t' →
  findable_ok t'.
Proof.
  intros Hwf IH H a n q Ha Hq.
  destruct (insertPoint_result t p t' Hwf H) as (Hwf' & Hext & Hmd & Ho & Hs & Hroot).
  destruct (insertPoint_points t p t' _ Hwf eq_refl H a n q Ha Hq)
    as [(m0 & Hm0 & Hq0) | (-> & Hdone & Hidx)].
  - destruct (IH a m0 q Hm0 Hq0) as [Hin Hidx].
    assert (is_Some (rootNode t)) as Hsome.
    { destruct (rootNode t) eqn:Hr; [by eauto |].
      rewrite (wf_empty _ Hwf Hr) in Hm0. by rewrite lookup_empty in Hm0. }
    split.
    + unfold isPointInBound_tree in *. by rewrite Ho, Hs.
    + unfold descentFuel in *. rewrite Hmd, Hroot by done.
      by eapply index_monotone.
  - split; [| done].
    destruct (insertPoint_spec t p Hwf) as (t'' & _ & _ & _ & _ & _ & _ & Hres).
    destruct Hres as [? | (? & ? & _)]; congruence.
Qed.

Lemma findable_ok_delete t p b t' :
  wf t → findable_ok t → deletePoint p t = Done (b, t') → findable_ok t'.
Proof.
  intros Hwf IH H.
  destruct (deletePoint_cases p t b t' Hwf H)
    as [(_ & _ & ->) | [(a & n & Hidx & Ha & Hnil & _ & ->)
                       | (a & n & pa & pn & Hidx & Ha & _ & Hpa & Hpn & Hne
                          & _ & _ & ->)]];
    [done | |];
    destruct (index_result_leaf _ _ _ _ _ Hidx) as (n' & Hn' & Hl & _);
    assert (n' = n) as -> by congruence;
    intros x m q Hx Hq.
  - cbn [heap store set_heap] in Hx.
    destruct (decide (x = a)) as [-> | Hxa].
    { rewrite lookup_insert_eq in Hx. simplify_eq. by apply elem_of_nil in Hq. }
    rewrite lookup_insert_ne in Hx by done.
    destruct (IH x m q Hx Hq) as [Hin Hq'].
    split; [done |]. by apply index_other_after_erase.
  - cbn [heap free store set_heap] in Hx.
    destruct (decide (x = a)) as [-> | Hxa].
    { by rewrite lookup_delete_eq in Hx. }
    rewrite lookup_delete_ne in Hx by done.
    assert (∃ m0, heap t !! x = Some m0 ∧ q ∈ pointList m0) as (m0 & Hm0 & Hq0).
    { destruct (decide (x = pa)) as [-> | Hxpa].
      - rewrite lookup_insert_eq in Hx. simplify_eq. by exists pn.
      - rewrite !lookup_insert_ne in Hx by done. by exists m. }
    destruct (IH x m0 q Hm0 Hq0) as [Hin Hq'].
    split; [done |].
    cbn [rootNode free store set_heap].
    match goal with |- index ?f _ _ _ = _ =>
      change f with (descentFuel t) end.
    destruct (rootNode t) as [root |] eqn:Hroot; [| done].
    eapply (index_other_after_detach _ q root t _ a n pa pn); eauto.
    + simpl. rewrite lookup_delete_ne by done. by rewrite lookup_insert_eq.
    + intros b' Hb'a Hb'pa. simpl.
      rewrite lookup_delete_ne by done.
      rewrite lookup_insert_ne by done. by rewrite lookup_insert_ne.
    + intros ->. destruct (wf_root _ Hwf _ Hroot) as (nr & Hnr & Hnone & _).
      congruence.
Qed.

Lemma findable_ok_built t : built t → findable_ok t.
Proof.
  induction 1 as [md s o Hmd | t p t' Hb IH H | t p t' Hb IH H
                 | t p b t' Hb IH H].
  - intros a n q Ha. cbn [heap newOctree] in Ha. by rewrite lookup_empty in Ha.
  - apply (findable_ok_insert t p t'); auto. by apply built_wf.
  - apply (findable_ok_insert t p t'); auto. by apply built_wf.
  - apply (findable_ok_delete t p b t'); auto. by apply built_wf.
Qed.

(** X21. In a built tree every point held by a node is within the tree's
    bounds and is found by [index] in that very node; so no point is held by
    two nodes. *)
Theorem built_stored_is_found (t : Octree) (a : addr) (n : OctreeNode) (q : Point3f) :
  built t → heap t !! a = Some n → q ∈ pointList n →
  index_tree q t = Done (Some a)
  ∧ ∀ a' n', heap t !! a' = Some n' → q ∈ pointList n' → a' = a.
Proof.
  intros Hb Ha Hq. pose proof (findable_ok_built t Hb) as HF.
  destruct (HF a n q Ha Hq) as [Hin Hidx]. split.
  - unfold index_tree. by rewrite Hin.
  - intros a' n' Ha' Hq'. destruct (HF a' n' q Ha' Hq') as [_ Hidx'].
    congruence.
Qed.

Lemma built_stored_is_found_witness :
  let t := deleted pEighth (inserted pFar (inserted pHalf (inserted pEighth
             (newOctree 2 2 origin0)))) in
  ∃ a n, heap t !! a = Some n
         ∧ index_tree pFar t = Done (Some a)
         ∧ ∀ a' n', heap t !! a' = Some n' → pFar ∈ pointList n' → a' = a.
Proof.
  intros t. exists 6%positive. eexists. split; [vm_compute; reflexivity |].
  eapply (built_stored_is_found t 6%positive).
  - unfold t. built_by_eval.
  - vm_compute. reflexivity.
  - simpl. apply list_elem_of_here.
Defined.

(** ** The bounding box and the construction from a point cloud *)







(** What [insertEach] leaves when it returns: a built tree that has only
    grown and that holds every point of the list. *)
Lemma insertEach_spec pointCloud : ∀ t r,
  built t → insertEach pointCloud t = Done r →
  built (snd r) ∧ ext t (snd r)
  ∧ tree_origin (snd r) = tree_origin t ∧ tree_size (snd r) = tree_size t
  ∧ maxDepth (snd r) = maxDepth t
  ∧ ∀ p, p ∈ pointCloud →
         ∃ a n, heap (snd r) !! a = Some n ∧ p ∈ pointList n.
Proof.
  induction pointCloud as [| p rest IH]; intros t r Hb H.
  - simpl in H. simplify_eq. split_and!; try done; [apply ext_refl |].
    by intros p ?%elem_of_nil.
  - cbn [insertEach] in H.
    destruct (insertPoint RootRef p t) as [[[] t1] | | |] eqn:Hins; try done.
    cbn [mbind outcome_bind snd] in H.
    pose proof (built_wf _ Hb) as Hwf.
    destruct (insertPoint_spec t p Hwf)
      as (t1' & Hwf1 & Hext1 & ? & ? & ? & _ & Hres).
    destruct Hres as [? | (Hdone & _ & leaf & l & _ & Hleaf & _ & Hin)];
      [congruence |].
    assert (t1' = t1) as -> by congruence.
    destruct (IH t1 r) as (Hbr & Hextr & ? & ? & ? & Hall);
      [by eapply built_insert | done |].
    split_and!; try congruence; [by eapply ext_trans |].
    intros q [-> | Hq]%elem_of_cons; [| by apply Hall].
    destruct (Hextr _ _ Hleaf) as (n & Hn & _ & _ & _ & _ & Hpts & _).
    exists leaf, n. auto.
Qed.

(** X23. When the constructor from a point cloud returns, the tree is a
    built one and [index] finds every point of the cloud in a leaf that holds
    it. *)
Theorem newOctreeFromPointCloud_finds_all (md : Z) (pointCloud : list Point3f) (t : Octree) :
  0 ≤ md → newOctreeFromPointCloud md pointCloud = Done t →
  built t
  ∧ ∀ p, p ∈ pointCloud →
         ∃ leaf n, index_tree p t = Done (Some leaf)
                   ∧ heap t !! leaf = Some n ∧ isLeaf n = true
                   ∧ p ∈ pointList n.
Proof.
  intros Hmd H. unfold newOctreeFromPointCloud, convertFromPointCloud in H.
  destruct (findCenterInPointCloud pointCloud) as [center | | |]; try done.
  cbn [mbind outcome_bind] in H.
  destruct (insertEach pointCloud _) as [r | | |] eqn:Hr; try done.
  cbn [mbind outcome_bind snd] in H. simplify_eq.
  destruct (insertEach_spec _ _ _ (built_new md _ _ Hmd) Hr)
    as (Hb & _ & _ & _ & _ & Hall).
  split; [done |]. intros p Hp.
  destruct (Hall p Hp) as (a & n & Ha & Hin).
  destruct (findable_ok_built _ Hb a n p Ha Hin) as [Hbound Hidx].
  destruct (index_result_leaf _ _ _ _ _ Hidx) as (n' & Hn' & Hl & _).
  assert (n' = n) as -> by congruence.
  exists a, n. split_and!; try done. unfold index_tree. by rewrite Hbound.
Qed.

Lemma newOctreeFromPointCloud_finds_all_witness :
  built treeTwo
  ∧ ∀ p, p ∈ cloudTwo →
         ∃ leaf n, index_tree p treeTwo = Done (Some leaf)
                   ∧ heap treeTwo !! leaf = Some n ∧ isLeaf n = true
                   ∧ p ∈ pointList n.
Proof.
  apply (newOctreeFromPointCloud_finds_all 1 cloudTwo treeTwo).
  - lia.
  - vm_compute. reflexivity.
Defined.

(** X24. A cloud whose box midpoint has no positive coordinate cannot be
    made into a tree: the size derived from it is zero or negative, and the
    constructor throws at the first point, whatever the depth. *)
Theorem newOctreeFromPointCloud_degenerate (md : Z) (pointCloud : list Point3f)
    (center : Point3f) :
  findCenterInPointCloud pointCloud = Done center →
  (px center <= 0)%Q → (py center <= 0)%Q → (pz center <= 0)%Q →
  ∃ t, newOctreeFromPointCloud md pointCloud = Throw t.
Proof.
  intros Hc Hx Hy Hz.
  unfold newOctreeFromPointCloud, convertFromPointCloud. rewrite Hc.
  cbn [mbind outcome_bind].
  destruct pointCloud as [| first rest]; [done |].
  set (h := fmax (px center) (fmax (py center) (pz center))).
  assert (h <= 0)%Q as Hh.
  { unfold h, fmax.
    repeat match goal with |- context [if ?b then _ else _] => destruct b end;
      done. }
  match goal with |- context [insertEach _ ?u] => set (t1 := u) end.
  assert (isPointInBound_tree first t1 = false) as Hout.
  { destruct (isPointInBound_tree first t1) eqn:E; [| done].
    apply isPointInBound_size in E. exfalso. apply (Qlt_not_le _ _ E).
    change (tree_size t1) with (2 * h)%Q.
    apply Qle_trans with (2 * 0)%Q; [by apply Qmult_le_l | by compute]. }
  destruct (insertPoint_throws_without_root t1 first eq_refl Hout)
    as (t' & _ & Hthrow & _).
  exists t'. cbn [insertEach]. by rewrite Hthrow.
Qed.

Lemma newOctreeFromPointCloud_degenerate_witness :
  ∃ t, newOctreeFromPointCloud 1 cloudNegative = Throw t.
Proof.
  apply (newOctreeFromPointCloud_degenerate 1 cloudNegative
           (mkPoint3f (-4#2) (-4#2) (-4#2))).
  - vm_compute. reflexivity.
  - vm_compute. discriminate.
  - vm_compute. discriminate.
  - vm_compute. discriminate.
Defined.

(** ** Traversals from the root *)

Lemma below_reach f t a m : reach t a → below f t a m → reach t m.
Proof.
  intros Ha Hb. induction Hb as [a n Hn | a n i c m Hn Hf Hc _ IH]; [done |].
  apply IH. by eapply reach_child.
Qed.

Lemma below_snoc f t r a n i c :
  below f t r a → heap t !! a = Some n → f a n = true →
  children n !! i = Some (Some c) → is_Some (heap t !! c) →
  below f t r c.
Proof.
  intros Hb Hn Hf Hc [m Hm].
  induction Hb as [a n' Hn' | r nr j c' a Hnr Hfr Hc' _ IH].
  - eapply below_child; eauto. by eapply below_here.
  - eapply below_child; eauto.
Qed.

Lemma reach_below t r m :
  wf t → rootNode t = Some r → reach t m → below everywhere t r m.
Proof.
  intros Hwf Hr. induction 1 as [r' Hr' | a n i c _ IH Ha Hc].
  - assert (r' = r) as -> by congruence.
    destruct (wf_root _ Hwf _ Hr) as (n & Hn & _). by eapply below_here.
  - destruct (ok_child _ _ _ (wf_node _ Hwf _ _ Ha) _ _ Hc) as (mc & Hmc & _).
    eapply below_snoc; eauto.
Qed.

(** The nodes under the root are the live nodes. *)
Lemma below_root_live t r m :
  wf t → rootNode t = Some r →
  below everywhere t r m ↔ is_Some (heap t !! m).
Proof.
  intros Hwf Hr. split.
  - intros Hb. apply (wf_reach_live t m Hwf).
    eapply below_reach; [| exact Hb]. by apply reach_root.
  - intros [n Hn]. apply reach_below; [done .. |]. by eapply wf_live_reach.
Qed.

(** X25. On a built tree both traversals, started from the root, return;
    the one named breadth-first calls the predicate on exactly the live nodes
    of the tree, whatever the predicate answers, and so does the depth-first
    one when the predicate is true everywhere. *)
Theorem traversals_visit_live_nodes (t : Octree) (f : addr → OctreeNode → bool) :
  built t →
  ∃ vb vd,
    traverseRecurseBFS (traversalFuel t) f (rootNode t) t = Done vb
    ∧ traverseRecurseDFS (traversalFuel t) everywhere (rootNode t) t = Done vd
    ∧ ∀ m, (m ∈ vb ↔ is_Some (heap t !! m)) ∧ (m ∈ vd ↔ is_Some (heap t !! m)).
Proof.
  intros Hb. apply built_wf in Hb.
  destruct (rootNode t) as [r |] eqn:Hr.
  - destruct (wf_root _ Hb _ Hr) as (n & Hn & _ & Hd0 & _).
    assert (Z.to_nat (maxDepth t - depth n) + 1 < traversalFuel t)%nat as Hfuel.
    { unfold traversalFuel. rewrite Hd0. lia. }
    destruct (traversals_defined f t Hb _ r n Hn Hfuel) as [_ [vb Hvb]].
    destruct (traversals_defined everywhere t Hb _ r n Hn Hfuel) as [[vd Hvd] _].
    exists vb, vd. split_and!; try done. intros m.
    rewrite (traverseRecurseBFS_visits _ _ _ _ _ Hvb m).
    rewrite (traverseRecurseDFS_visits _ _ _ _ _ Hvd m).
    rewrite !below_some. split; by apply below_root_live.
  - exists [], []. split_and!; try done. intros m.
    rewrite (wf_empty _ Hb Hr), lookup_empty.
    split; (split; [by intros ?%elem_of_nil | by intros [? ?]]).
Qed.

Lemma traversals_visit_live_nodes_witness :
  let t := deleted pEighth (inserted pFar (inserted pEighth (newOctree 1 2 origin0))) in
  ∃ vb vd,
    traverseRecurseBFS (traversalFuel t) notSecond (rootNode t) t = Done vb
    ∧ traverseRecurseDFS (traversalFuel t) everywhere (rootNode t) t = Done vd
    ∧ ∀ m, (m ∈ vb ↔ is_Some (heap t !! m)) ∧ (m ∈ vd ↔ is_Some (heap t !! m)).
Proof.
  intros t. apply (traversals_visit_live_nodes t notSecond). unfold t. built_by_eval.
Defined.

Lemma cubesAt_app t v w : cubesAt t (v ++ w) = cubesAt t v ++ cubesAt t w.
Proof. apply omap_app. Qed.

Lemma forLiveChildren_DFS t fuel cs : ∀ w,
  (∀ c v, traverseRecurseDFS fuel everywhere c t = Done v →
          Traverse fuel c t = Done (cubesAt t v)) →
  forChildren (λ c, traverseRecurseDFS fuel everywhere c t) cs = Done w →
  forLiveChildren (λ c, Traverse fuel c t) cs = Done (cubesAt t w).
Proof.
  intros w IH. revert w. induction cs as [| c cs IHcs]; intros w H.
  - simpl in H. by simplify_eq.
  - cbn [forChildren] in H.
    destruct (traverseRecurseDFS fuel everywhere c t) as [v | | |] eqn:Hc;
      try done.
    cbn [mbind outcome_bind] in H.
    destruct (forChildren _ cs) as [w' | | |] eqn:Hcs; try done.
    cbn [mbind outcome_bind] in H. simplify_eq.
    rewrite cubesAt_app. destruct c as [c |]; cbn [forLiveChildren].
    + rewrite (IH _ _ Hc). cbn [mbind outcome_bind].
      by rewrite (IHcs w' eq_refl).
    + destruct fuel; [done |]. simpl in Hc. simplify_eq.
      by rewrite (IHcs w' eq_refl).
Qed.

(** The drawing pass adds the cubes of the nodes that the depth-first
    traversal visits when nothing stops it, in the same order. *)
Lemma Traverse_DFS t fuel : ∀ x v,
  traverseRecurseDFS fuel everywhere x t = Done v →
  Traverse fuel x t = Done (cubesAt t v).
Proof.
  induction fuel as [| fuel IH]; intros x v H; [done |].
  cbn [traverseRecurseDFS Traverse] in *. destruct x as [a |].
  2: { by simplify_eq. }
  cbn [deref] in *. destruct (heap t !! a) as [n |] eqn:Ha; [| done].
  cbn [mbind outcome_bind everywhere negb] in *.
  destruct (forChildren _ (children n)) as [w | | |] eqn:Hw; try done.
  cbn [mbind outcome_bind] in H. simplify_eq.
  rewrite (forLiveChildren_DFS t fuel (children n) w IH Hw).
  cbn [mbind outcome_bind]. unfold cubesAt at 2. cbn [omap list_omap].
  by rewrite Ha.
Qed.

Lemma cubesAt_length t v :
  (∀ m, m ∈ v → is_Some (heap t !! m)) → length (cubesAt t v) = length v.
Proof.
  unfold cubesAt. induction v as [| a v IH]; intros Hlive; [done |].
  cbn [omap list_omap].
  destruct (Hlive a (list_elem_of_here _ _)) as [n Hn].
  rewrite Hn. cbn [fmap option_fmap option_map length]. f_equal.
  apply IH. intros m Hm. apply Hlive. by right.
Qed.

(** X26. On a built tree the drawing pass of main.cpp, started from the
    root, returns: it adds the cube of every live node, in the order in which
    the depth-first traversal visits the nodes when nothing stops it. *)
Theorem Traverse_draws_live_nodes (t : Octree) :
  built t →
  ∃ v, traverseRecurseDFS (traversalFuel t) everywhere (rootNode t) t = Done v
       ∧ Traverse (traversalFuel t) (rootNode t) t = Done (cubesAt t v)
       ∧ length (cubesAt t v) = length v
       ∧ ∀ m, m ∈ v ↔ is_Some (heap t !! m).
Proof.
  intros Hb. apply built_wf in Hb.
  assert (∃ v, traverseRecurseDFS (traversalFuel t) everywhere (rootNode t) t
               = Done v ∧ ∀ m, m ∈ v ↔ is_Some (heap t !! m)) as (v & Hv & Hlive).
  { destruct (rootNode t) as [r |] eqn:Hr.
    - destruct (wf_root _ Hb _ Hr) as (n & Hn & _ & Hd0 & _).
      destruct (traversals_defined everywhere t Hb (traversalFuel t) r n Hn)
        as [[vd Hvd] _].
      { unfold traversalFuel. rewrite Hd0. lia. }
      exists vd. split; [done |]. intros m.
      rewrite (traverseRecurseDFS_visits _ _ _ _ _ Hvd m), below_some.
      by apply below_root_live.
    - exists []. split; [done |]. intros m.
      rewrite (wf_empty _ Hb Hr), lookup_empty.
      split; [by intros ?%elem_of_nil | by intros [? ?]]. }
  exists v. split_and!; try done.
  - by apply Traverse_DFS.
  - apply cubesAt_length. intros m Hm. by apply Hlive.
Qed.

Lemma Traverse_draws_live_nodes_witness :
  let t := inserted pFar (inserted pEighth (newOctree 1 2 origin0)) in
  ∃ v, traverseRecurseDFS (traversalFuel t) everywhere (rootNode t) t = Done v
       ∧ Traverse (traversalFuel t) (rootNode t) t = Done (cubesAt t v)
       ∧ length (cubesAt t v) = length v
       ∧ ∀ m, m ∈ v ↔ is_Some (heap t !! m).
Proof.
  intros t. apply (Traverse_draws_live_nodes t). unfold t. built_by_eval.
Defined.

(** ** Teardown: [OctreeNode::clear] and [Octree::clear] *)

Lemma orphan_index_ok_step t t' :
  wf t → step t t' → orphan_index_ok t → orphan_index_ok t'.
Proof.
  intros Hwf Hstep HP.
  destruct Hstep as [t Hr | t a n p Ha Hb Hd Hc | t a n p Ha Hb Hd
                    | t a n p Ha Hl | t a n pa pn Ha Hl Hpa Hpn Hne];
    intros x m Hx; split_lookup Hx; simplify_eq;
    cbn [parent parentIndex set_children set_parent
         set_pointList set_isLeaf newOctreeNode];
    try done;
    try (by apply (HP _ _ Hx)); try (by apply (HP _ _ Ha));
    try (by apply (HP _ _ Hpn)).
Qed.

Lemma orphan_index_ok_built t : built t → orphan_index_ok t.
Proof.
  apply (built_step_ind orphan_index_ok).
  - intros ???. by apply orphan_index_ok_step.
  - intros md s o _ a n Ha. cbn [heap newOctree] in Ha.
    by rewrite lookup_empty in Ha.
Qed.

(** Freeing a node without children and clearing its slot keeps the tree
    well formed, at any depth. *)
Lemma wf_detach_childless t a n pa pn :
  wf t → heap t !! a = Some n →
  (∀ i c, children n !! i = Some (Some c) → False) →
  parent n = Some pa → heap t !! pa = Some pn →
  wf (free a (store pa (set_children
                          (<[Z.to_nat (parentIndex n) := None]> (children pn)) pn) t)).
Proof.
  intros Hwf Ha Hd Hpa Hpn.
  set (idx := Z.to_nat (parentIndex n)).
  set (pn' := set_children (<[idx := None]> (children pn)) pn).
  pose proof (wf_node _ Hwf _ _ Ha) as Hoka.
  pose proof (wf_node _ Hwf _ _ Hpn) as Hokp.
  destruct (ok_parent _ _ _ Hoka _ Hpa) as (pn0 & Hpn0 & Hidx0 & Hslot).
  simplify_eq. fold idx in Hslot.
  assert (a ≠ pa) as Hne.
  { intros <-. simplify_eq.
    exact (Hd _ _ Hslot). }
  (* the slots that still hold a child after the update *)
  assert (Hslots : ∀ b m i x, heap t !! b = Some m →
            children m !! i = Some (Some x) → x ≠ a ∨ (b = pa ∧ i = idx)).
  { intros b m i x Hb Hix. destruct (decide (x = a)) as [-> | ?]; [| by left].
    right. destruct (ok_child _ _ _ (wf_node _ Hwf _ _ Hb) _ _ Hix)
      as (m' & Hm' & Hp' & Hpi' & _).
    simplify_eq. split; [congruence |]. unfold idx. rewrite Hpi'.
    by rewrite Nat2Z.id. }
  assert (Hlk : ∀ b m, heap t !! b = Some m → b ≠ a →
            ∃ m', delete a (<[pa:=pn']> (heap t)) !! b = Some m'
                  ∧ parent m' = parent m
                  ∧ parentIndex m' = parentIndex m ∧ depth m' = depth m
                  ∧ node_origin m' = node_origin m ∧ node_size m' = node_size m
                  ∧ isLeaf m' = isLeaf m
                  ∧ length (children m') = length (children m)
                  ∧ (∀ i x, children m !! i = Some (Some x) → x ≠ a →
                            children m' !! i = Some (Some x))
                  ∧ (∀ i x, children m' !! i = Some (Some x) →
                            children m !! i = Some (Some x) ∧ x ≠ a)).
  { intros b m Hb Hba. rewrite lookup_delete_ne by done.
    destruct (decide (pa = b)) as [<- | Hpb].
    - rewrite lookup_insert_eq. exists pn'.
      assert (m = pn) as -> by congruence.
      split_and!; try done.
      + simpl. by rewrite length_insert.
      + intros i x Hix Hx. simpl. rewrite list_lookup_insert_ne; [done |].
        intros <-. congruence.
      + intros i x Hix. simpl in Hix.
        destruct (decide (idx = i)) as [<- | Hi].
        * rewrite list_lookup_insert_eq in Hix; [done |].
          by eapply lookup_lt_Some.
        * rewrite list_lookup_insert_ne in Hix by done.
          split; [done |].
          destruct (Hslots _ _ _ _ Hb Hix) as [? | [_ ?]]; done.
    - rewrite lookup_insert_ne by done. exists m. split_and!; try done.
      intros i x Hix. split; [done |].
      destruct (Hslots _ _ _ _ Hb Hix) as [? | [? _]]; done. }
  assert (Hback : ∀ b m, delete a (<[pa:=pn']> (heap t)) !! b = Some m →
            b ≠ a ∧ ∃ m0, heap t !! b = Some m0).
  { intros b m Hb. destruct (decide (b = a)) as [-> | Hba].
    - by rewrite lookup_delete_eq in Hb.
    - split; [done |]. rewrite lookup_delete_ne in Hb by done.
      destruct (decide (pa = b)) as [<- | Hpb]; [by eauto |].
      rewrite lookup_insert_ne in Hb by done. eauto. }
  split; simpl.
  - apply Hwf.
  - intros Hr. apply (wf_empty _ Hwf) in Hr. rewrite Hr in Ha.
    by rewrite lookup_empty in Ha.
  - intros r Hr. destruct (wf_root _ Hwf r Hr) as (m & Hm & Hmp & ? & ? & ?).
    assert (r ≠ a) by (intros ->; congruence).
    destruct (Hlk _ _ Hm) as (m' & Hm' & ? & ? & ? & ? & ? & _); [done |].
    exists m'. repeat split; congruence.
  - intros b m Hb.
    destruct (Hback _ _ Hb) as (Hba & m0 & Hm0).
    destruct (Hlk _ _ Hm0 Hba)
      as (m' & Hm' & Hp' & Hpi' & Hd' & _ & _ & Hl' & Hlen' & Hfw & Hbw).
    simplify_eq.
    pose proof (wf_node _ Hwf _ _ Hm0) as Hok.
    split; simpl.
    + rewrite Hlen'. apply Hok.
    + rewrite Hd'. apply Hok.
    + rewrite Hl', Hd'. apply Hok.
    + intros i x Hix. destruct (Hbw _ _ Hix) as [Hix0 Hxa].
      destruct (ok_child _ _ _ Hok _ _ Hix0) as (mc & Hmc & ? & ? & ?).
      destruct (Hlk _ _ Hmc Hxa) as (mc' & Hmc' & ? & ? & ? & _).
      exists mc'. repeat split; congruence.
    + intros pp Hpp. rewrite Hp' in Hpp.
      destruct (ok_parent _ _ _ Hok _ Hpp) as (mp & Hmp & ? & Hslot').
      assert (pp ≠ a).
      { intros ->. simplify_eq.
        exact (Hd _ _ Hslot'). }
      destruct (Hlk _ _ Hmp) as (mp' & Hmp' & _ & _ & _ & _ & _ & _ & _ & Hcs & _);
        [done |].
      exists mp'. rewrite Hpi'. repeat split; auto.
    + rewrite Hp'. apply Hok.
Qed.

Lemma shrunk_refl t : shrunk t t.
Proof. intros x m Hx. exists m. by split_and!. Qed.

Lemma below_shrunk t' t a x :
  shrunk t' t → below everywhere t' a x → below everywhere t a x.
Proof.
  intros Hs. induction 1 as [a n Ha | a n i c m Ha Hf Hc _ IH].
  - destruct (Hs _ _ Ha) as (m & Hm & _). by eapply below_here.
  - destruct (Hs _ _ Ha) as (m0 & Hm0 & _ & Hch).
    eapply below_child; [exact Hm0 | done | by apply Hch | done].
Qed.

(** The last two statements of [OctreeNode::clear], on a node that has a
    parent and no child left. *)
Lemma clearParentSlot_childless t a n pa pn :
  wf t → heap t !! a = Some n →
  (∀ i c, children n !! i = Some (Some c) → False) →
  parent n = Some pa → heap t !! pa = Some pn →
  ∃ t1, clearParentSlot a t = Done t1
    ∧ wf (free a t1)
    ∧ rootNode (free a t1) = rootNode t ∧ maxDepth (free a t1) = maxDepth t
    ∧ tree_size (free a t1) = tree_size t
    ∧ tree_origin (free a t1) = tree_origin t
    ∧ heap (free a t1) !! a = None
    ∧ heap (free a t1) !! pa
      = Some (set_children (<[Z.to_nat (parentIndex n) := None]> (children pn)) pn)
    ∧ (∀ x m, x ≠ pa → heap (free a t1) !! x = Some m → heap t !! x = Some m)
    ∧ (∀ x, is_Some (heap t !! x) → x ≠ a → is_Some (heap (free a t1) !! x)).
Proof.
  intros Hwf Ha Hnk Hpa Hpn.
  pose proof (wf_node _ Hwf _ _ Ha) as Hoka.
  destruct (ok_parent _ _ _ Hoka _ Hpa) as (pn0 & Hpn0 & Hidx0 & Hslot).
  simplify_eq.
  assert (a ≠ pa) as Hne.
  { intros <-. simplify_eq. exact (Hnk _ _ Hslot). }
  eexists. split.
  { unfold clearParentSlot. cbn [deref mbind outcome_bind]. rewrite Ha.
    cbn [mbind outcome_bind].
    destruct (decide (parentIndex n = -1)) as [? | _]; [lia |].
    rewrite Hpa. cbn [deref]. rewrite Hpn. cbn [mbind outcome_bind].
    apply lookup_lt_Some in Hslot as Hlt.
    destruct (decide (0 ≤ parentIndex n < Z.of_nat (length (children pn))))
      as [_ | ?]; [reflexivity | lia]. }
  split; [by apply wf_detach_childless |].
  split_and!; try done; cbn [heap free store set_heap].
  - by rewrite lookup_delete_eq.
  - rewrite lookup_delete_ne by done. by rewrite lookup_insert_eq.
  - intros x m Hx Hm. split_lookup Hm; done.
  - intros x Hx Hxa. rewrite lookup_delete_ne by done.
    destruct (decide (pa = x)) as [<- | ?].
    + rewrite lookup_insert_eq. eauto.
    + by rewrite lookup_insert_ne.
Qed.

Lemma clears_shrunk t a n pa pn t' :
  heap t !! pa = Some pn → clears t a n pa pn t' → shrunk t' t.
Proof.
  intros Hpn (_ & _ & _ & _ & _ & _ & Hpa' & Hoth & _) x m' Hx.
  destruct (decide (x = pa)) as [-> | Hne].
  - exists pn. rewrite Hpa' in Hx. injection Hx as <-.
    split_and!; [done | done |]. cbn [children set_children].
    intros j y Hj. destruct (decide (Z.to_nat (parentIndex n) = j)) as [<- | ?].
    + apply lookup_lt_Some in Hj as Hlt. rewrite length_insert in Hlt.
      by rewrite list_lookup_insert_eq in Hj.
    + by rewrite list_lookup_insert_ne in Hj.
  - exists m'. split_and!; [by apply Hoth | done | done].
Qed.

Section ClearChildren.
Variable body : addr → Octree → outcome Octree.
Variables D MD : Z.
Hypothesis Hbody : ∀ t c nc pa pn,
  wf t → maxDepth t = MD → heap t !! c = Some nc → depth nc = D + 1 →
  parent nc = Some pa → heap t !! pa = Some pn →
  ∃ t', body c t = Done t' ∧ clears t c nc pa pn t'.

(** The loop over the children of [this]: every slot it went through is
    null afterwards, and [this] is otherwise as it was. *)
Lemma clearChildren_spec idxs : ∀ t this n,
  wf t → maxDepth t = MD → heap t !! this = Some n → depth n = D →
  (∀ j, j ∈ idxs → (j < childNum)%nat) →
  ∃ t' n', clearChildren body this idxs t = Done t'
    ∧ wf t'
    ∧ rootNode t' = rootNode t ∧ maxDepth t' = maxDepth t
    ∧ tree_size t' = tree_size t ∧ tree_origin t' = tree_origin t
    ∧ heap t' !! this = Some n'
    ∧ parent n' = parent n ∧ parentIndex n' = parentIndex n
    ∧ (∀ j, j ∈ idxs → children n' !! j = Some None)
    ∧ (∀ j, children n !! j = Some None → children n' !! j = Some None)
    ∧ (∀ x m, x ≠ this → heap t' !! x = Some m → heap t !! x = Some m)
    ∧ (∀ x, is_Some (heap t !! x) →
            is_Some (heap t' !! x) ∨ below everywhere t this x).
Proof.
  induction idxs as [| i rest IH]; intros t this n Hwf HMD Hthis HD Hidx.
  - exists t, n. cbn [clearChildren]. split_and!; try done.
    + by intros j ?%elem_of_nil.
    + intros x ?. by left.
  - cbn [clearChildren deref mbind outcome_bind]. rewrite Hthis.
    cbn [mbind outcome_bind].
    pose proof (wf_node _ Hwf _ _ Hthis) as Hok.
    assert (i < childNum)%nat as Hi by (apply Hidx; left).
    destruct (children n !! i) as [slot |] eqn:Hsl.
    2:{ apply lookup_ge_None in Hsl. rewrite (ok_slots _ _ _ Hok) in Hsl. lia. }
    unfold at_index. rewrite Hsl. cbn [mbind outcome_bind].
    destruct slot as [c |].
    + destruct (ok_child _ _ _ Hok _ _ Hsl) as (nc & Hnc & Hpc & Hpic & Hdc).
      destruct (Hbody t c nc this n) as (t1 & Hb1 & Hcl); try done; [lia |].
      pose proof (clears_shrunk _ _ _ _ _ _ Hthis Hcl) as Hshr.
      destruct Hcl as (Hwf1 & Hr1 & Hmd1 & Hs1 & Ho1 & Hc1 & Hpa1 & Hoth1 & Hsurv1).
      rewrite Hb1. cbn [mbind outcome_bind].
      rewrite Hpic, Nat2Z.id in Hpa1.
      destruct (IH t1 this _ Hwf1 ltac:(congruence) Hpa1 HD)
        as (t' & n' & Hrun & Hwf' & Hr' & Hmd' & Hs' & Ho' & Hn' & Hp' & Hpi'
            & Hnull & Hstay & Hoth' & Hsurv').
      { intros j Hj. apply Hidx. by right. }
      exists t', n'. split_and!; try done; try congruence.
      * intros j [-> | Hj]%elem_of_cons; [| by apply Hnull].
        apply Hstay. cbn [children set_children].
        apply list_lookup_insert_eq. by eapply lookup_lt_Some.
      * intros j Hj. apply Hstay. cbn [children set_children].
        destruct (decide (i = j)) as [<- | ?].
        -- apply list_lookup_insert_eq. by eapply lookup_lt_Some.
        -- by rewrite list_lookup_insert_ne.
      * intros x m Hx Hm. apply Hoth1; [done |]. by apply Hoth'.
      * intros x Hx. destruct (Hsurv1 x Hx) as [Hx1 | Hbel].
        -- destruct (Hsurv' x Hx1) as [? | Hbel]; [by left |].
           right. by eapply below_shrunk.
        -- right. eapply below_child; [exact Hthis | done | exact Hsl | done].
    + destruct (IH t this n Hwf HMD Hthis HD)
        as (t' & n' & Hrun & Hwf' & Hr' & Hmd' & Hs' & Ho' & Hn' & Hp' & Hpi'
            & Hnull & Hstay & Hoth' & Hsurv').
      { intros j Hj. apply Hidx. by right. }
      exists t', n'. split_and!; try done.
      intros j [-> | Hj]%elem_of_cons; [by apply Hstay | by apply Hnull].
Qed.
End ClearChildren.

(** [clear] on a node that has a parent, with fuel for the levels under
    it. *)
Lemma OctreeNode_clear_spec fuel : ∀ t a n pa pn,
  wf t → heap t !! a = Some n → maxDepth t - depth n < Z.of_nat fuel →
  parent n = Some pa → heap t !! pa = Some pn →
  ∃ t', OctreeNode_clear fuel a t = Done t' ∧ clears t a n pa pn t'.
Proof.
  induction fuel as [| fuel IH]; intros t a n pa pn Hwf Ha Hfuel Hpa Hpn.
  { pose proof (ok_depth _ _ _ (wf_node _ Hwf _ _ Ha)). lia. }
  cbn [OctreeNode_clear deref mbind outcome_bind]. rewrite Ha.
  cbn [mbind outcome_bind].
  pose proof (wf_node _ Hwf _ _ Ha) as Hok.
  destruct (isLeaf n) eqn:Hl.
  - assert (Hnk : ∀ i c, children n !! i = Some (Some c) → False).
    { intros i c. apply (deepest_no_child t a n i c Hwf Ha).
      by apply (ok_leaf _ _ _ Hok). }
    destruct (clearParentSlot_childless t a n pa pn Hwf Ha Hnk Hpa Hpn)
      as (t1 & Hrun & Hwf' & Hr & Hmd & Hs & Ho & Hfreed & Hslot & Hoth & Hsurv).
    rewrite Hrun. cbn [mbind outcome_bind]. eexists. split; [done |].
    unfold clears. split_and!; try done.
    intros x Hx. destruct (decide (x = a)) as [-> | ?].
    + right. by eapply below_here.
    + left. by apply Hsurv.
  - destruct (clearChildren_spec (OctreeNode_clear fuel) (depth n) (maxDepth t))
      with (idxs := seq 0 childNum) (t := t) (this := a) (n := n)
      as (t1 & n1 & Hrun & Hwf1 & Hr1 & Hmd1 & Hs1 & Ho1 & Hn1 & Hp1 & Hpi1
          & Hnull & _ & Hoth1 & Hsurv1); try done.
    { intros t0 c nc pa0 pn0 Hwf0 Hmd0 Hc0 Hd0 Hp0 Hpn0.
      apply IH; try done. lia. }
    { intros j Hj. apply elem_of_seq in Hj. lia. }
    rewrite Hrun. cbn [mbind outcome_bind].
    pose proof (wf_node _ Hwf1 _ _ Hn1) as Hok1.
    assert (Hnk : ∀ i c, children n1 !! i = Some (Some c) → False).
    { intros i c Hic. apply lookup_lt_Some in Hic as Hlt.
      rewrite (ok_slots _ _ _ Hok1) in Hlt.
      rewrite Hnull in Hic; [done |]. apply elem_of_seq. lia. }
    assert (a ≠ pa) as Hne.
    { intros <-. destruct (ok_parent _ _ _ Hok _ Hpa) as (m & Hm & _ & Hsl).
      simplify_eq.
      destruct (ok_child _ _ _ Hok _ _ Hsl) as (m & Hm & _ & _ & Hd).
      simplify_eq. lia. }
    assert (heap t1 !! pa = Some pn) as Hpn1.
    { rewrite <- Hp1 in Hpa.
      destruct (ok_parent _ _ _ Hok1 _ Hpa) as (m & Hm & _).
      rewrite Hm. apply Hoth1 in Hm; [congruence | done]. }
    rewrite <- Hp1 in Hpa.
    destruct (clearParentSlot_childless t1 a n1 pa pn Hwf1 Hn1 Hnk Hpa Hpn1)
      as (t2 & Hrun2 & Hwf' & Hr & Hmd & Hs & Ho & Hfreed & Hslot & Hoth & Hsurv).
    rewrite Hrun2. cbn [mbind outcome_bind]. eexists. split; [done |].
    unfold clears. split_and!; try done; try congruence.
    + intros x m Hx Hm. apply Hoth1; [| by apply Hoth].
      intros ->. congruence.
    + intros x Hx. destruct (Hsurv1 x Hx) as [Hx1 | ?]; [| by right].
      destruct (decide (x = a)) as [-> | ?].
      * right. by eapply below_here.
      * left. by apply Hsurv.
Qed.

Lemma clears_below_freed t a n pa pn t' x :
  wf t → heap t !! pa = Some pn → clears t a n pa pn t' →
  below everywhere t a x → heap t' !! x = None.
Proof.
  intros Hwf Hpn Hcl Hbel.
  pose proof (clears_shrunk _ _ _ _ _ _ Hpn Hcl) as Hshr.
  destruct Hcl as (Hwf' & _ & _ & _ & _ & Hfreed & _).
  revert Hfreed.
  induction Hbel as [a n0 Ha | a n0 i c m Ha _ Hc _ IH]; [done |].
  intros Hfreed. apply IH.
  destruct (heap t' !! c) as [mc' |] eqn:Hc'; [| done].
  destruct (Hshr _ _ Hc') as (mc & Hmc & Hpar & _).
  destruct (ok_child _ _ _ (wf_node _ Hwf _ _ Ha) _ _ Hc) as (m0 & Hm0 & Hp0 & _).
  assert (parent mc' = Some a) as Hp' by congruence.
  destruct (ok_parent _ _ _ (wf_node _ Hwf' _ _ Hc') _ Hp') as (? & ? & _).
  congruence.
Qed.

(** X27. [OctreeNode::clear] called on a node of a built tree that has a
    parent returns; it frees the node and the nodes below it and no other
    node, sets the node's slot in the parent to null and leaves every other
    node as it was; the tree is well formed afterwards, so that no pointer to
    a freed node is left. *)
Theorem OctreeNode_clear_subtree (t : Octree) (a : addr) (n : OctreeNode) (pa : addr) :
  built t → heap t !! a = Some n → parent n = Some pa →
  ∃ t' pn,
    OctreeNode_clear (descentFuel t) a t = Done t'
    ∧ wf t' ∧ rootNode t' = rootNode t
    ∧ (∀ x, is_Some (heap t' !! x)
            ↔ is_Some (heap t !! x) ∧ ¬ below everywhere t a x)
    ∧ heap t !! pa = Some pn
    ∧ heap t' !! pa
      = Some (set_children (<[Z.to_nat (parentIndex n) := None]> (children pn)) pn)
    ∧ (∀ x m, x ≠ pa → heap t' !! x = Some m → heap t !! x = Some m).
Proof.
  intros Hb Ha Hpa. apply built_wf in Hb as Hwf.
  pose proof (wf_node _ Hwf _ _ Ha) as Hok.
  destruct (ok_parent _ _ _ Hok _ Hpa) as (pn & Hpn & _).
  destruct (OctreeNode_clear_spec (descentFuel t) t a n pa pn) as (t' & Hrun & Hcl);
    try done.
  { pose proof (ok_depth _ _ _ Hok). unfold descentFuel. lia. }
  pose proof (clears_shrunk _ _ _ _ _ _ Hpn Hcl) as Hshr.
  pose proof (λ x, clears_below_freed t a n pa pn t' x Hwf Hpn Hcl) as Hfreed.
  destruct Hcl as (Hwf' & Hr & _ & _ & _ & _ & Hslot & Hoth & Hsurv).
  exists t', pn. split_and!; try done.
  intros x. split.
  - intros [m' Hx]. split.
    + destruct (Hshr _ _ Hx) as (m & Hm & _). eauto.
    + intros Hbel. apply Hfreed in Hbel. congruence.
  - intros [Hx Hnb]. by destruct (Hsurv x Hx).
Qed.

Lemma OctreeNode_clear_subtree_witness :
  let t := inserted pFar (inserted pEighth (newOctree 2 2 origin0)) in
  ∃ n, heap t !! 2%positive = Some n ∧
  ∃ t' pn,
    OctreeNode_clear (descentFuel t) 2%positive t = Done t'
    ∧ wf t' ∧ rootNode t' = rootNode t
    ∧ (∀ x, is_Some (heap t' !! x)
            ↔ is_Some (heap t !! x) ∧ ¬ below everywhere t 2%positive x)
    ∧ heap t !! 1%positive = Some pn
    ∧ heap t' !! 1%positive
      = Some (set_children (<[Z.to_nat (parentIndex n) := None]> (children pn)) pn)
    ∧ (∀ x m, x ≠ 1%positive → heap t' !! x = Some m → heap t !! x = Some m).
Proof.
  intros t. eexists. split; [vm_compute; reflexivity |].
  apply (OctreeNode_clear_subtree t 2%positive _ 1%positive).
  - unfold t. built_by_eval.
  - vm_compute. reflexivity.
  - reflexivity.
Defined.

Lemma clearParentSlot_orphan t a n :
  heap t !! a = Some n → parentIndex n = -1 → clearParentSlot a t = Done t.
Proof.
  intros Ha Hpi. unfold clearParentSlot. cbn [deref mbind outcome_bind].
  rewrite Ha. cbn [mbind outcome_bind].
  by destruct (decide (parentIndex n = -1)).
Qed.

(** A root without children is the only node of a well-formed tree. *)
Lemma free_root_empty t r n :
  wf t → rootNode t = Some r → heap t !! r = Some n →
  (∀ i c, children n !! i = Some (Some c) → False) →
  delete r (heap t) = ∅.
Proof.
  intros Hwf Hr Hn Hnk. apply map_eq. intros x. rewrite lookup_empty.
  destruct (decide (r = x)) as [<- | Hne]; [by rewrite lookup_delete_eq |].
  rewrite lookup_delete_ne by done.
  destruct (heap t !! x) as [m |] eqn:Hx; [| done].
  exfalso. apply Hne.
  assert (reach t x) as Hreach by (by eapply wf_live_reach).
  clear Hx Hne. induction Hreach as [r' Hr' | a na i c _ IH Ha Hc].
  - congruence.
  - subst a. simplify_eq. by destruct (Hnk _ _ Hc).
Qed.

Lemma Octree_clear_spec t :
  wf t → orphan_index_ok t →
  ∃ t', Octree_clear t = Done t'
    ∧ heap t' = ∅ ∧ rootNode t' = rootNode t
    ∧ tree_size t' = 0%Q ∧ maxDepth t' = 0 ∧ tree_origin t' = mkPoint3f 0 0 0.
Proof.
  intros Hwf Horph. unfold Octree_clear.
  destruct (rootNode t) as [r |] eqn:Hr.
  2:{ cbn [mbind outcome_bind]. eexists. split; [done |].
      cbn [heap rootNode tree_size maxDepth tree_origin].
      split_and!; try done. by apply (wf_empty _ Hwf). }
  destruct (wf_root _ Hwf _ Hr) as (n & Hn & Hpar & Hd & _).
  pose proof (Horph _ _ Hn Hpar) as Hpi.
  pose proof (wf_node _ Hwf _ _ Hn) as Hok.
  unfold descentFuel. cbn [OctreeNode_clear deref mbind outcome_bind].
  rewrite Hn. cbn [mbind outcome_bind].
  destruct (isLeaf n) eqn:Hl.
  - rewrite (clearParentSlot_orphan _ _ _ Hn Hpi). cbn [mbind outcome_bind].
    eexists. split; [done |].
    cbn [heap rootNode tree_size maxDepth tree_origin free set_heap].
    split_and!; try done.
    apply (free_root_empty t r n Hwf Hr Hn).
    intros i c. apply (deepest_no_child t r n i c Hwf Hn).
    by apply (ok_leaf _ _ _ Hok).
  - destruct (clearChildren_spec (OctreeNode_clear (Z.to_nat (maxDepth t)))
                (depth n) (maxDepth t))
      with (idxs := seq 0 childNum) (t := t) (this := r) (n := n)
      as (t1 & n1 & Hrun & Hwf1 & Hr1 & Hmd1 & Hs1 & Ho1 & Hn1 & Hp1 & Hpi1
          & Hnull & _); try done.
    { intros t0 c nc pa0 pn0 Hwf0 Hmd0 Hc0 Hd0 Hp0 Hpn0.
      apply OctreeNode_clear_spec; try done.
      pose proof (ok_depth _ _ _ (wf_node _ Hwf0 _ _ Hc0)). lia. }
    { intros j Hj. apply elem_of_seq in Hj. lia. }
    rewrite Hrun. cbn [mbind outcome_bind].
    rewrite (clearParentSlot_orphan _ _ _ Hn1) by congruence.
    cbn [mbind outcome_bind].
    eexists. split; [done |].
    cbn [heap rootNode tree_size maxDepth tree_origin free set_heap].
    split_and!; try done; [| congruence].
    apply (free_root_empty t1 r n1 Hwf1); [congruence | done |].
    intros i c Hic. apply lookup_lt_Some in Hic as Hlt.
    rewrite (ok_slots _ _ _ (wf_node _ Hwf1 _ _ Hn1)) in Hlt.
    rewrite Hnull in Hic; [done |]. apply elem_of_seq. lia.
Qed.

(** X28. [Octree::clear] on a built tree returns and frees every node; the
    size and the depth of the tree are 0 and its origin is (0,0,0)
    afterwards.  [rootNode] is not reset: it keeps the address it had. *)
Theorem Octree_clear_frees_all (t : Octree) :
  built t →
  ∃ t', Octree_clear t = Done t'
    ∧ heap t' = ∅ ∧ rootNode t' = rootNode t
    ∧ tree_size t' = 0%Q ∧ maxDepth t' = 0 ∧ tree_origin t' = mkPoint3f 0 0 0.
Proof.
  intros Hb. apply Octree_clear_spec; [by apply built_wf |].
  by apply orphan_index_ok_built.
Qed.

Lemma Octree_clear_frees_all_witness :
  let t := inserted pFar (inserted pEighth (newOctree 2 2 origin0)) in
  ∃ t', Octree_clear t = Done t'
    ∧ heap t' = ∅ ∧ rootNode t' = rootNode t
    ∧ tree_size t' = 0%Q ∧ maxDepth t' = 0 ∧ tree_origin t' = mkPoint3f 0 0 0.
Proof.
  intros t. apply (Octree_clear_frees_all t). unfold t. built_by_eval.
Defined.

(** X29. After [Octree::clear] on a built tree that had a root, [rootNode]
    points to a freed node: [isEmpty] answers false, and [insertPoint] on the
    root, [deletePoint], [index] from the root, the traversal
    [traverseRecurseBFS] from the root and a second [clear] all dereference
    it. *)
Theorem Octree_clear_dangling_root (t t' : Octree) (p : Point3f)
    (f : addr → OctreeNode → bool) :
  built t → is_Some (rootNode t) → Octree_clear t = Done t' →
  isEmpty t' = false
  ∧ insertPoint RootRef p t' = Undefined
  ∧ deletePoint p t' = Undefined
  ∧ index (descentFuel t') p (rootNode t') t' = Undefined
  ∧ traverseRecurseBFS (traversalFuel t') f (rootNode t') t' = Undefined
  ∧ Octree_clear t' = Undefined.
Proof.
  intros Hb [r Hr] Hrun.
  destruct (Octree_clear_spec t (built_wf _ Hb) (orphan_index_ok_built _ Hb))
    as (t0 & Hrun0 & Hheap & Hroot & Hs & Hmd & Ho).
  assert (t0 = t') as -> by congruence.
  rewrite Hr in Hroot.
  unfold isEmpty, insertPoint, deletePoint, Octree_clear, descentFuel,
    traversalFuel.
  rewrite Hmd.
  cbn. rewrite ?Hroot. cbn. rewrite ?Hroot, ?Hheap. cbn.
  rewrite ?lookup_empty. cbn. done.
Qed.

Lemma Octree_clear_dangling_root_witness :
  let t := inserted pEighth (newOctree 1 2 origin0) in
  ∃ t', Octree_clear t = Done t'
    ∧ isEmpty t' = false
    ∧ insertPoint RootRef pEighth t' = Undefined
    ∧ deletePoint pEighth t' = Undefined
    ∧ index (descentFuel t') pEighth (rootNode t') t' = Undefined
    ∧ traverseRecurseBFS (traversalFuel t') everywhere (rootNode t') t' = Undefined
    ∧ Octree_clear t' = Undefined.
Proof.
  intros t. eexists. split; [vm_compute; reflexivity |].
  apply (Octree_clear_dangling_root t _ pEighth everywhere).
  - unfold t. built_by_eval.
  - eexists. vm_compute. reflexivity.
  - vm_compute. reflexivity.
Defined.
